(** * includeme: the index generator [generate.py]

    A shallow embedding of the merge, salvage and serialization passes of
    [generate.py] (Python 2), with the properties of the written
    specification stated and proved over it.

    Conventions of the embedding:
    - a Python [dict] with string keys is a [gmap string _]; [d.items()] and
      [d.values()] return a fresh list in Python 2, so every [for] loop of the
      source is a fold over a list, and the order in which a dictionary
      enumerates its entries is a parameter of [main];
    - a Python [set] of header names is a [gset string]; its equality is
      Leibniz equality, as [==] on Python sets is extensional;
    - Python integers are [Z], [/] on them is floor division;
    - an uncaught exception is a [Raise] result, also when it comes from
      the environment: listing a directory, opening, reading, parsing or
      writing a file are parameters of [Full.main] that answer or raise;
    - text written to [sys.stderr] is a list of [diag] events, in the order
      they are printed;
    - the Lisp literal that the serializer writes is read back with a
      reader of its own, [Lisp.read], written from the notation. *)

From stdpp Require Import gmap strings list fin_maps sorting.
From stdpp Require Import pretty.

Local Open Scope Z_scope.

(** ** Exceptions

    [KeyError] and [TypeError] are raised by the passes of [main],
    [IndexError] by an index out of a list; [RecursionDepth] is the model's
    own, for a recursion that outruns its bound; [OSError], [IOError] and
    [ParseError] come from the environment. *)

Inductive error : Type :=
  | KeyError (key : string)
  | TypeError
  | IndexError
  | RecursionDepth
  | OSError
  | IOError
  | ParseError.

Inductive result (A : Type) : Type :=
  | Ok (a : A)
  | Raise (e : error).
Arguments Ok {A} a.
Arguments Raise {A} e.

Global Instance result_ret : MRet result := @Ok.

Global Instance result_bind : MBind result := λ A B k r,
  match r with
  | Ok a => k a
  | Raise e => Raise e
  end.

Global Instance result_fmap : FMap result := λ A B f r,
  match r with
  | Ok a => Ok (f a)
  | Raise e => Raise e
  end.

(** ** Strings *)

Definition dquote : string := String (Ascii.ascii_of_nat 34) EmptyString.
Definition newline : string := String (Ascii.ascii_of_nat 10) EmptyString.

(** [sep.join(l)] *)
Fixpoint join (sep : string) (l : list string) : string :=
  match l with
  | [] => EmptyString
  | [x] => x
  | x :: l' => x +:+ sep +:+ join sep l'
  end.

(** [l[i]] for a Python list: a negative index counts from the end, an index
    out of range raises. *)
Definition py_index {A} (l : list A) (i : Z) : result A :=
  let n := Z.of_nat (length l) in
  let j := if i <? 0 then i + n else i in
  if (0 <=? j) && (j <? n)
  then from_option Ok (Raise IndexError) (l !! Z.to_nat j)
  else Raise IndexError.

(** ** The header shadow table *)

Definition shadows : gmap string string :=
  list_to_map [
    ("assert.h", "cassert");
    ("complex.h", "ccomplex");
    ("ctype.h", "cctype");
    ("errno.h", "cerrno");
    ("fenv.h", "cfenv");
    ("float.h", "cfloat");
    ("inttypes.h", "cinttypes");
    ("limits.h", "climits");
    ("locale.h", "clocale");
    ("math.h", "cmath");
    ("setjmp.h", "csetjmp");
    ("signal.h", "csignal");
    ("stdalign.h", "cstdalign");
    ("stdarg.h", "cstdarg");
    ("stdbool.h", "cstdbool");
    ("stddef.h", "cstddef");
    ("stdint.h", "cstdint");
    ("stdio.h", "cstdio");
    ("stdlib.h", "cstdlib");
    ("string.h", "cstring");
    ("tgmath.h", "ctgmath");
    ("time.h", "ctime");
    ("wchar.h", "cwchar");
    ("wctype.h", "cwctype")
  ].

(** [shadows.get(hdr, hdr)] *)
Definition shadows_get (hdr : string) : string :=
  default hdr (shadows !! hdr).

(** [set(shadows.keys())] *)
Definition shadows_keys : gset string := dom shadows.

(** [set(shadows.get(hdr, hdr) for hdr in hdrs)] *)
Definition shadow_set (hdrs : gset string) : gset string :=
  set_map shadows_get hdrs.

(** ** Index values

    A value of a final index is a set of headers or, for a short alias, the
    canonical name (a string): [make_happy_tree] tells them apart with
    [isinstance(hdrs, basestring)]. *)

Inductive value : Type :=
  | Hdrs (hdrs : gset string)
  | Canonical (canonical_name : string).

Global Instance value_eq_dec : EqDecision value.
Proof. solve_decision. Defined.

(** ** make_happy_tree *)

(** [syms.sort(key=operator.itemgetter(0))]: a stable sort on the name, with
    the byte-wise lexicographic order of Python 2 [str].  Stability fixes the
    result completely, whatever the algorithm. *)
Fixpoint sort_insert {V} (x : string * V) (l : list (string * V)) : list (string * V) :=
  match l with
  | [] => [x]
  | y :: l' =>
      if String.leb x.1 y.1 then x :: y :: l'
      else y :: sort_insert x l'
  end.

Fixpoint sort_by_name {V} (l : list (string * V)) : list (string * V) :=
  match l with
  | [] => []
  | x :: l' => sort_insert x (sort_by_name l')
  end.

(** The nested list that the emitted literal denotes: [nil] or
    [(entry left . right)]. *)
Inductive tree : Type :=
  | Nil
  | Node (entry : string * value) (left right : tree).

Fixpoint inorder (t : tree) : list (string * value) :=
  match t with
  | Nil => []
  | Node e l r => inorder l ++ e :: inorder r
  end.


Section serializer.

(** The order in which [" ".join(hdrs)] enumerates a set of headers. *)
Variable set_iter : gset string → list string.

(** The text of the entry of a node, up to the end of its line. *)
Definition entry_text (e : string * value) : string :=
  match e.2 with
  | Canonical canonical_name =>
      "((" +:+ dquote +:+ e.1 +:+ dquote +:+ " . " +:+ canonical_name +:+ ")" +:+ newline
  | Hdrs hdrs =>
      "((" +:+ dquote +:+ e.1 +:+ dquote +:+ " " +:+ join " " (set_iter hdrs) +:+ ")" +:+ newline
  end.

(** [do_node(start, end)], writing to [out].  The recursion of the source
    is bounded by [fuel]; [make_happy_tree] gives it enough. *)
Fixpoint do_node (fuel : nat) (syms : list (string * value))
    (start end_ : Z) (out : string) : result string :=
  match fuel with
  | O => Raise RecursionDepth
  | S fuel' =>
      if bool_decide (start = end_) then Ok (out +:+ "nil")
      else
        let pivot := start + (end_ - start) / 2 in
        e ← py_index syms pivot;
        let out := out +:+ entry_text e in
        out ← do_node fuel' syms start pivot out;
        let out := out +:+ " . " in
        out ← do_node fuel' syms (pivot + 1) end_ out;
        Ok (out +:+ ")")
  end.

Definition make_happy_tree (out : string) (syms : list (string * value)) : result string :=
  let syms := sort_by_name syms in
  let out := out +:+ "'" in
  do_node (S (length syms)) syms 0 (Z.of_nat (length syms)) out.

(** The text of a tree. *)
Fixpoint render (t : tree) : string :=
  match t with
  | Nil => "nil"
  | Node e l r => entry_text e +:+ render l +:+ " . " +:+ render r +:+ ")"
  end.

End serializer.

(** The tree that [do_node(start, end)] emits: the same recursion, building
    the nodes instead of writing them. *)
Fixpoint node_tree (fuel : nat) (syms : list (string * value))
    (start end_ : Z) : result tree :=
  match fuel with
  | O => Raise RecursionDepth
  | S fuel' =>
      if bool_decide (start = end_) then Ok Nil
      else
        let pivot := start + (end_ - start) / 2 in
        e ← py_index syms pivot;
        l ← node_tree fuel' syms start pivot;
        r ← node_tree fuel' syms (pivot + 1) end_;
        Ok (Node e l r)
  end.

Definition happy_tree (syms : list (string * value)) : result tree :=
  let syms := sort_by_name syms in
  node_tree (S (length syms)) syms 0 (Z.of_nat (length syms)).

Definition name_lt (a b : string) : Prop := String.ltb a b = true.

(** ** Strings, as the passes use them *)

(** [s.startswith(p)] *)
Definition startswith (p s : string) : bool := String.prefix p s.
Global Arguments startswith : simpl never.

(** [s[n:]] *)
Fixpoint string_drop (n : nat) (s : string) : string :=
  match n, s with
  | O, _ => s
  | S n', String _ s' => string_drop n' s'
  | S _, EmptyString => EmptyString
  end.

(** [sub in s] *)
Fixpoint contains (sub s : string) : bool :=
  startswith sub s ||
  match s with
  | EmptyString => false
  | String _ s' => contains sub s'
  end.

(** [s.rindex(sub)]: the highest index at which [sub] occurs in [s];
    [None] stands for the [ValueError] that the caller catches. *)
Fixpoint rindex (sub s : string) : option nat :=
  match s with
  | EmptyString => if startswith sub s then Some 0%nat else None
  | String _ s' =>
      match rindex sub s' with
      | Some i => Some (S i)
      | None => if startswith sub s then Some 0%nat else None
      end
  end.

(** ** Diagnostics

    One constructor for each message printed to [sys.stderr] by the passes
    modelled here, carrying the values that the message formats. *)
Inductive diag : Type :=
  | NoIncludes (func path : string)
  | ManConflict (func : string) (stored seen : gset string)
  | SalvageFromC (name : string) (hdrs : gset string)
  | SalvageFromMan (name : string) (hdrs : gset string)
  | Discard (lang name : string)
  | Conflict (name : string).

(** ** parse_man *)

(** What the generator [parse_man] does, in order: it yields a fact or prints
    a diagnostic. *)
Inductive man_event : Type :=
  | Yield (func : string) (includes : gset string)
  | Print (d : diag).

Section man_pages.

(** Group 1 of [re.search('#include <(.*?)>', line)], when it matches. *)
Variable re_include : string → option string.
(** Group 1 of the search for a declared function in [line] (the pattern
    of line 102), when it matches. *)
Variable re_func : string → option string.

Definition br_inc : string := ".BR " +:+ dquote +:+ "#inc".

Definition add_include (line : string) (includes : gset string) : gset string :=
  match re_include line with
  | Some hdr => {[hdr]} ∪ includes
  | None => includes
  end.

(** The loop of [parse_man] over the lines that are left, [includes] being
    the local set.  [continue] skips the test for [DESCRIPTION]. *)
Fixpoint parse_man_loop (path : string) (text : list string)
    (includes : gset string) : list man_event :=
  match text with
  | [] => []
  | line :: text' =>
      let includes :=
        if startswith ".B " line || startswith br_inc line
        then add_include line includes else includes in
      let includes :=
        if startswith br_inc line
        then add_include line includes else includes in
      let rest :=
        if contains "DESCRIPTION" line then []
        else parse_man_loop path text' includes in
      match (if startswith ".B" line then re_func line else None) with
      | Some func =>
          if bool_decide (includes = ∅)
          then Print (NoIncludes func path) :: parse_man_loop path text' includes
          else Yield func includes :: rest
      | None => rest
      end
  end.

Definition parse_man (path : string) (text : list string) : list man_event :=
  parse_man_loop path text ∅.

(** The body of the loop that loads the man pages, for one fact. *)
Definition add_man_fact (st : gmap string (gset string) * list diag)
    (fact : string * gset string) : gmap string (gset string) * list diag :=
  let '(man_syms, err) := st in
  let '(func, includes) := fact in
  match man_syms !! func with
  | Some stored =>
      if bool_decide (includes ≠ stored)
      then (man_syms, err ++ [ManConflict func stored includes])
      else (man_syms, err)
  | None => (<[func := includes]> man_syms, err)
  end.

Definition man_step (st : gmap string (gset string) * list diag)
    (ev : man_event) : gmap string (gset string) * list diag :=
  match ev with
  | Yield func includes => add_man_fact st (func, includes)
  | Print d => (st.1, st.2 ++ [d])
  end.

(** [for path, text in ...: for func, includes in parse_man(path, text)],
    [mans] being the pages that [get_mans(3)] then [get_mans(2)] produce. *)
Definition load_mans (mans : list (string * list string))
    (st : gmap string (gset string) * list diag) :
    gmap string (gset string) * list diag :=
  foldl (λ st page, foldl man_step st (parse_man page.1 page.2)) st mans.

End man_pages.

(** ** Symbol records

    The dictionaries that the catalog passes build for each node: [alias] and
    [link] are [None] when the attribute is missing, [header] is [None] until
    the header pass sets the key. *)
Record sym : Type := Sym {
  name : string;
  type : string;
  alias : option string;
  link : option string;
  header : option string;
}.

(** The truth value of a string or [None]. *)
Definition truthy (s : option string) : bool :=
  match s with
  | Some (String _ _) => true
  | _ => false
  end.

(** ** Second pass over the C++ symbols: typedef aliases

    The loop runs over [cpp_syms.values()], a list of references to the
    records of the table; a reference is the key under which the record is
    stored, and the body reads and writes the record in the table, so that a
    record changed by an earlier iteration is seen changed.  A key that is
    not in the table refers to nothing and is passed over. *)
Definition resolve_alias (cpp_syms : gmap string sym) (key : string) :
    result (gmap string sym) :=
  match cpp_syms !! key with
  | None => Ok cpp_syms
  | Some s =>
      if negb (truthy (alias s)) then Ok cpp_syms
      else
        let target := default EmptyString (alias s) in
        match cpp_syms !! target with
        | None => Raise (KeyError target)
        | Some other =>
            Ok (<[key := Sym (name s)
                             (type s +:+ "(" +:+ type other +:+ ")")
                             (alias s) (link other) (header s)]> cpp_syms)
        end
  end.

Fixpoint resolve_aliases (keys : list string) (cpp_syms : gmap string sym) :
    result (gmap string sym) :=
  match keys with
  | [] => Ok cpp_syms
  | key :: keys' =>
      cpp_syms ← resolve_alias cpp_syms key;
      resolve_aliases keys' cpp_syms
  end.

(** ** filter_syms *)

(** The variable [c_syms] of [main], which [filter_syms] reads: the records
    of the catalog while the C symbols are filtered, the filtered index
    afterwards. *)
Inductive c_table : Type :=
  | Catalog (syms : gmap string sym)
  | Filtered (syms : gmap string value).

(** [key in c_syms and c_syms[key] & set(shadows.keys())]: the headers
    [c_syms[key]] when the test holds.  [&] raises on a record and on a
    string. *)
Definition c_shadowed (c_syms : c_table) (key : string) : result (option (gset string)) :=
  match c_syms with
  | Catalog syms =>
      match syms !! key with
      | None => Ok None
      | Some _ => Raise TypeError
      end
  | Filtered syms =>
      match syms !! key with
      | None => Ok None
      | Some (Hdrs hdrs) =>
          Ok (if bool_decide (hdrs ∩ shadows_keys ≠ ∅) then Some hdrs else None)
      | Some (Canonical _) => Raise TypeError
      end
  end.

(** [key in man_syms and man_syms[key] & set(shadows.keys())] *)
Definition man_shadowed (man_syms : gmap string (gset string)) (key : string) :
    option (gset string) :=
  match man_syms !! key with
  | Some hdrs => if bool_decide (hdrs ∩ shadows_keys ≠ ∅) then Some hdrs else None
  | None => None
  end.

(** The body of the loop of [filter_syms]: what it yields, if anything, and
    what it prints. *)
Definition filter_sym (c_syms : c_table) (man_syms : gmap string (gset string))
    (lang : string) (item : string * sym) :
    result (option (string * value) * list diag) :=
  let '(name, s) := item in
  if truthy (header s)
  then Ok (Some (name, Hdrs {[default EmptyString (header s)]}), [])
  else
    from_c ← (if startswith "std::" name
              then c_shadowed c_syms (string_drop 5 name) else Ok None);
    match from_c with
    | Some c_hdrs =>
        let hdrs := shadow_set c_hdrs in
        Ok (Some (name, Hdrs hdrs), [SalvageFromC name hdrs])
    | None =>
        match (if startswith "std::" name
               then man_shadowed man_syms (string_drop 5 name) else None) with
        | Some man_hdrs =>
            let hdrs := shadow_set man_hdrs in
            Ok (Some (name, Hdrs hdrs), [SalvageFromMan name hdrs])
        | None => Ok (None, [Discard lang name])
        end
    end.

(** [dict(filter_syms(lang, syms))], [items] being [syms.items()]: the
    dictionary is filled in the order of the yields. *)
Fixpoint filter_syms (c_syms : c_table) (man_syms : gmap string (gset string))
    (lang : string) (items : list (string * sym))
    (acc : gmap string value * list diag) :
    result (gmap string value * list diag) :=
  match items with
  | [] => Ok acc
  | item :: items' =>
      r ← filter_sym c_syms man_syms lang item;
      let acc :=
        (match r.1 with
         | Some (name, v) => <[name := v]> acc.1
         | None => acc.1
         end, acc.2 ++ r.2) in
      filter_syms c_syms man_syms lang items' acc
  end.

(** ** Merging the man symbols into the two indexes *)

Definition merge_man (st : gmap string value * gmap string value)
    (fact : string * gset string) : gmap string value * gmap string value :=
  let '(c_syms, cpp_syms) := st in
  let '(name, hdrs) := fact in
  let c_syms :=
    if bool_decide (c_syms !! name = None)
    then <[name := Hdrs hdrs]> c_syms else c_syms in
  let cpp_syms :=
    if bool_decide (cpp_syms !! name = None)
       && bool_decide (cpp_syms !! ("std::" +:+ name) = None)
    then <[name := Hdrs (shadow_set hdrs)]> cpp_syms else cpp_syms in
  (c_syms, cpp_syms).

Definition merge_mans (facts : list (string * gset string))
    (st : gmap string value * gmap string value) :
    gmap string value * gmap string value :=
  foldl merge_man st facts.

(** ** Decanonicalizing the C++ index *)

(** [name[name.rindex('::') + 2:]], or [None] on [ValueError]. *)
Definition short_name (name : string) : option string :=
  i ← rindex "::" name; Some (string_drop (i + 2) name).

Definition decanonicalize_step (st : gmap string value * list diag)
    (item : string * value) : gmap string value * list diag :=
  let '(cpp_syms, err) := st in
  let '(name, _) := item in
  match short_name name with
  | None => (cpp_syms, err)
  | Some short =>
      if bool_decide (is_Some (cpp_syms !! short))
      then (cpp_syms, err ++ [Conflict name])
      else (<[short := Canonical name]> cpp_syms, err)
  end.

(** [items] is the copy [cpp_syms.items()[:]] taken before the loop. *)
Definition decanonicalize (items : list (string * value))
    (st : gmap string value * list diag) : gmap string value * list diag :=
  foldl decanonicalize_step st items.

(** What is known of the order of [d.items()]: each entry comes once. *)
Definition enumerates (items : ∀ V, gmap string V → list (string * V)) : Prop :=
  ∀ V (m : gmap string V), items V m ≡ₚ map_to_list m.

(** ** main, from the loaded tables on

    [c_syms] and [cpp_syms] are the two tables of records as the header pass
    leaves them (line 190); what comes before, but for the man pages, reads
    the XML catalogs and the HTML pages and is modelled further down, in
    [Full], with the two [print] of table sizes to the standard output, which
    are left out here, and with the opening and the writing of the two
    files. *)
Section main.

Variable re_include : string → option string.
Variable re_func : string → option string.
Variable set_iter : gset string → list string.

(** [d.items()]: the entries of a dictionary, in the order in which it
    enumerates them (see [enumerates]). *)
Variable items : ∀ V, gmap string V → list (string * V).

Definition build_indexes (mans : list (string * list string))
    (c_syms cpp_syms : gmap string sym) :
    result (gmap string value * gmap string value * list diag) :=
  let '(man_syms, err) := load_mans re_include re_func mans (∅, []) in
  '(c_index, err) ←
    filter_syms (Catalog c_syms) man_syms "C" (items _ c_syms) (∅, err);
  '(cpp_index, err) ←
    filter_syms (Filtered c_index) man_syms "C++" (items _ cpp_syms) (∅, err);
  let '(c_index, cpp_index) :=
    merge_mans (items _ man_syms) (c_index, cpp_index) in
  let '(cpp_index, err) :=
    decanonicalize (items _ cpp_index) (cpp_index, err) in
  Ok (c_index, cpp_index, err).

(** The text that goes to the file [name.el] (lines 247-249). *)
Definition write_index (name : string) (syms : gmap string value) : result string :=
  out ← make_happy_tree set_iter ("(setq " +:+ name +:+ " ") (items _ syms);
  Ok (out +:+ ")" +:+ newline).

End main.

(** ** Well-formed indexes *)

(** Every value is a non-empty set of headers. *)
Definition all_hdrs (index : gmap string value) : Prop :=
  ∀ name v, index !! name = Some v → ∃ hdrs, v = Hdrs hdrs ∧ hdrs ≠ ∅.

(** Every name has a non-empty set of headers, or redirects to a name of the
    index that has one. *)
Definition resolves (index : gmap string value) : Prop :=
  ∀ name v, index !! name = Some v →
    match v with
    | Hdrs hdrs => hdrs ≠ ∅
    | Canonical target => ∃ hdrs, index !! target = Some (Hdrs hdrs) ∧ hdrs ≠ ∅
    end.

Definition alias_of (cpp_syms : gmap string sym) (key target : string) : Prop :=
  ∃ s, cpp_syms !! key = Some s ∧ alias s = Some target ∧ target ≠ EmptyString.

(** ** Salvage, as the specification words it *)

(** The set of headers of an entry that holds one. *)
Definition hdrs_of (index : gmap string value) (key : string) : option (gset string) :=
  match index !! key with
  | Some (Hdrs hdrs) => Some hdrs
  | _ => None
  end.

(** [name] is [std::] followed by a name that [table] resolves to [hdrs], and
    [hdrs] has a header of the shadow table. *)
Definition salvageable (table : string → option (gset string))
    (name : string) (hdrs : gset string) : Prop :=
  ∃ rest, name = "std::" +:+ rest
          ∧ table rest = Some hdrs
          ∧ hdrs ∩ shadows_keys ≠ ∅.

(** The headers that the test of a salvage branch finds, if it holds. *)
Definition salvage_test (table : string → option (gset string))
    (name : string) : option (gset string) :=
  if startswith "std::" name
  then match table (string_drop 5 name) with
       | Some hdrs => if bool_decide (hdrs ∩ shadows_keys ≠ ∅) then Some hdrs else None
       | None => None
       end
  else None.

(** Every stored set of headers is non-empty. *)
Definition man_nonempty (man_syms : gmap string (gset string)) : Prop :=
  ∀ func hdrs, man_syms !! func = Some hdrs → hdrs ≠ ∅.

Definition yields_nonempty (ev : man_event) : Prop :=
  match ev with
  | Yield _ includes => includes ≠ ∅
  | Print _ => True
  end.

(** What the decanonicalizer keeps true of the index, [cpp_syms] being the
    index it starts from: the entries of [cpp_syms] are there, and any other
    entry redirects to a name of [cpp_syms]. *)
Definition decanonicalized (cpp_syms index : gmap string value) : Prop :=
  cpp_syms ⊆ index
  ∧ ∀ name v, index !! name = Some v →
      cpp_syms !! name = Some v
      ∨ ∃ target, v = Canonical target ∧ is_Some (cpp_syms !! target).

(** ** A small run

    Two man pages and two catalogs of a few symbols, with matchers that know
    the lines of these pages. *)
Module Example.

Definition re_include (line : string) : option string :=
  if contains "#include <math.h>" line then Some "math.h"
  else if contains "#include <sys/stat.h>" line then Some "sys/stat.h"
  else None.

Definition re_func (line : string) : option string :=
  if contains "log10(" line then Some "log10"
  else if contains "fstat(" line then Some "fstat"
  else None.

Definition mans : list (string * list string) :=
  [ ("/usr/share/man/man3/log10.3",
     [".B #include <math.h>";
      ".BI double log10(double x);";
      ".SH DESCRIPTION"]);
    ("/usr/share/man/man2/fstat.2",
     [".BI int fstat(int fd, struct stat *buf);";
      ".B #include <sys/stat.h>";
      ".BI int fstat(int fd, struct stat *buf);"]) ].

Definition c_syms : gmap string sym :=
  {[ "printf" := Sym "printf" "function" None (Some "c/io/fprintf") (Some "stdio.h");
     "log10" := Sym "log10" "function" None (Some "c/numeric/math/log10") None ]}.

Definition cpp_syms : gmap string sym :=
  {[ "std::printf" :=
       Sym "std::printf" "function" None (Some "cpp/io/c/fprintf") (Some "cstdio");
     "std::log10" :=
       Sym "std::log10" "function" None (Some "cpp/numeric/math/log10") None ]}.

Definition items (V : Type) (m : gmap string V) : list (string * V) :=
  map_to_list m.

(** What the run gives. *)
Definition c_index : gmap string value :=
  {[ "printf" := Hdrs {["stdio.h"]};
     "log10" := Hdrs {["math.h"]};
     "fstat" := Hdrs {["sys/stat.h"]} ]}.

Definition cpp_index : gmap string value :=
  {[ "std::printf" := Hdrs {["cstdio"]};
     "std::log10" := Hdrs {["cmath"]};
     "fstat" := Hdrs {["sys/stat.h"]};
     "printf" := Canonical "std::printf";
     "log10" := Canonical "std::log10" ]}.

Definition err : list diag :=
  [ NoIncludes "fstat" "/usr/share/man/man2/fstat.2";
    Discard "C" "log10";
    SalvageFromMan "std::log10" {["cmath"]} ].

End Example.

(** ** Shape of the emitted tree *)

Fixpoint nodes (t : tree) : nat :=
  match t with
  | Nil => 0%nat
  | Node _ l r => S (nodes l + nodes r)
  end.

(** At every node the left subtree has as many entries as the right one, or
    one more. *)
Fixpoint balanced (t : tree) : Prop :=
  match t with
  | Nil => True
  | Node _ l r => (nodes r ≤ nodes l ≤ S (nodes r))%nat ∧ balanced l ∧ balanced r
  end.

(** ** What a page yields *)

(** The sets of headers yielded, in order. *)
Definition yield_sets (evs : list man_event) : list (gset string) :=
  omap (λ ev, match ev with Yield _ includes => Some includes | Print _ => None end) evs.

(** The set of headers of the first yield of [func]. *)
Fixpoint first_yield (func : string) (evs : list man_event) : option (gset string) :=
  match evs with
  | [] => None
  | Yield g includes :: evs' =>
      if decide (g = func) then Some includes else first_yield func evs'
  | Print _ :: evs' => first_yield func evs'
  end.

(** What the pages yield and print, page after page. *)
Definition page_events (re_include re_func : string → option string)
    (mans : list (string * list string)) : list man_event :=
  mans ≫= (λ page, parse_man re_include re_func page.1 page.2).

(** [line] is one of those on which [parse_man] looks for an include. *)
Definition include_line (line : string) : bool :=
  startswith ".B " line || startswith br_inc line.

(** ** Where the C pass of [filter_syms] raises *)

(** An item without a header, named [std::] followed by a name of the
    catalog: the salvage test applies [&] to a record. *)
Definition c_crash (c_syms : gmap string sym) (item : string * sym) : Prop :=
  truthy (header item.2) = false
  ∧ startswith "std::" item.1 = true
  ∧ is_Some (c_syms !! string_drop 5 item.1).

(** ** The whole of main

    The passes that [main] runs before the symbols are filtered read the
    two catalogs and the HTML pages; they are modelled here, with the rest
    of [main] after them.

    The records of the C catalog are objects of a store, [c_objs], and the
    table [c_syms] holds their addresses: a record replaced in [c_syms] by a
    later one of the same name stays in [links] and still gets a header.
    The records of the C++ table are reached by their key: [links] gets
    them (line 172) once the table is complete, one record for each key.

    The file system and the parsers are parameters: the listing of a
    directory, the lines of a plain and of a compressed file, the children
    of the root of an XML document, whether a path exists, the text of a
    file and the writing of one, each of which answers or raises; so are the
    searches of [re] and the order of [items()].  What [print] writes is
    taken to reach the standard output and the standard error: [print] does
    not raise. *)
Module Full.

Record element : Type := Element {
  tag : string;
  attrib : gmap string string;
}.

(** [d[key]] *)
Definition getitem {V} (d : gmap string V) (key : string) : result V :=
  match d !! key with
  | Some v => Ok v
  | None => Raise (KeyError key)
  end.

(** A record held by [links]. *)
Inductive ref : Type :=
  | CRef (addr : nat)
  | CppRef (key : string).

Global Instance ref_eq_dec : EqDecision ref.
Proof. solve_decision. Defined.

(** [links.setdefault(link, []).append(r)] *)
Definition setdefault_append (link : option string) (r : ref)
    (links : gmap (option string) (list ref)) : gmap (option string) (list ref) :=
  <[link := default [] (links !! link) ++ [r]]> links.

Record c_state : Type := CState {
  c_objs : list sym;
  c_refs : gmap string nat;
  links : gmap (option string) (list ref);
}.

(** The body of the loop over the C catalog (lines 135-149). *)
Definition load_c_child (st : c_state) (child : element) : result c_state :=
  match attrib child !! "link" with
  | None => Ok st
  | Some link =>
      if negb (contains "/" link) then Ok st
      else if startswith "cpp/" link then Ok st
      else
        name ← getitem (attrib child) "name";
        if contains "(" name then Ok st
        else
          let s := Sym name (tag child) None (Some link) None in
          let addr := length (c_objs st) in
          Ok (CState (c_objs st ++ [s])
                     (<[name := addr]> (c_refs st))
                     (setdefault_append (Some link) (CRef addr) (links st)))
  end.

Fixpoint load_c (children : list element) (st : c_state) : result c_state :=
  match children with
  | [] => Ok st
  | child :: children' =>
      st ← load_c_child st child;
      load_c children' st
  end.

(** The body of the loop over the C++ catalog (lines 153-160). *)
Definition load_cpp_child (cpp_syms : gmap string sym) (child : element) :
    result (gmap string sym) :=
  name ← getitem (attrib child) "name";
  if contains "(" name then Ok cpp_syms
  else
    Ok (<[name := Sym name (tag child) (attrib child !! "alias")
                      (attrib child !! "link") None]> cpp_syms).

Fixpoint load_cpp (children : list element) (cpp_syms : gmap string sym) :
    result (gmap string sym) :=
  match children with
  | [] => Ok cpp_syms
  | child :: children' =>
      cpp_syms ← load_cpp_child cpp_syms child;
      load_cpp children' cpp_syms
  end.

(** The body of the third pass (line 172), for the record stored under
    [item.1]. *)
Definition backlink (links : gmap (option string) (list ref))
    (item : string * sym) : gmap (option string) (list ref) :=
  setdefault_append (link item.2) (CppRef item.1) links.

(** What the header pass prints, with the messages of the other passes. *)
Inductive message : Type :=
  | Diag (d : diag)
  | MissingHtml (htmlfile : string)
  | NoHeaderFound (htmlfile : string).

Definition with_header (hdr : string) (s : sym) : sym :=
  Sym (name s) (type s) (alias s) (link s) (Some hdr).

(** [s.replace(old, '')] for a non-empty [old]: the occurrences of [old] are
    found from the left and do not overlap; [skip] characters of the one
    just found are still to be dropped. *)
Fixpoint remove_sub (old : string) (skip : nat) (s : string) : string :=
  match s with
  | EmptyString => EmptyString
  | String c s' =>
      match skip with
      | S skip' => remove_sub old skip' s'
      | O =>
          if startswith old s then remove_sub old (String.length old - 1) s'
          else String c (remove_sub old 0 s')
      end
  end.

(** [sym['header'] = header] for the record that [r] refers to. *)
Definition set_header (hdr : string) (st : list sym * gmap string sym) (r : ref) :
    list sym * gmap string sym :=
  match r with
  | CRef addr => (alter (with_header hdr) addr st.1, st.2)
  | CppRef key => (st.1, alter (with_header hdr) key st.2)
  end.

(** [s.endswith(suffix)] *)
Definition endswith (suffix s : string) : bool :=
  (String.length suffix <=? String.length s)%nat
  && bool_decide (string_drop (String.length s - String.length suffix) s = suffix).

(** [os.path.join(a, b)] *)
Definition path_join (a b : string) : string :=
  if startswith "/" b then b
  else if bool_decide (a = EmptyString) || endswith "/" a then a +:+ b
  else a +:+ "/" +:+ b.

Section io.

(** The environment.  A call that the operating system or a parser can
    refuse answers [Raise]: [os.listdir] with [OSError], [open],
    [gzip.open] and the reading of a file with [IOError], [ET.parse] with
    [IOError] or [ParseError]. *)

(** [os.listdir(path)] *)
Variable listdir : string → result (list string).
(** The lines that iterating [open(path)] and [gzip.open(path)] gives to
    [parse_man], or what opening or reading the file raises. *)
Variable open_ : string → result (list string).
Variable gzip_open : string → result (list string).
(** The children of [ET.parse(path).getroot()]. *)
Variable xml_root : string → result (list element).
(** [os.path.exists(path)] and [open(path).read()]. *)
Variable exists_ : string → bool.
Variable read : string → result string.
(** [open(path, 'w')], and what is written to the file, as a whole. *)
Variable create : string → result unit.
Variable write : string → string → result unit.

Variable re_include : string → option string.
Variable re_func : string → option string.
(** Group 1 of the search for the header of a page in its text (the pattern
    of line 181), when it matches. *)
Variable re_header : string → option string.

Variable set_iter : gset string → list string.
Variable items : ∀ V, gmap string V → list (string * V).
(** [links.items()] *)
Variable link_items :
  gmap (option string) (list ref) → list (option string * list ref).

(** The loop of [get_mans] over the names of the directory: the pages that
    it yields, each with its lines. *)
Fixpoint open_mans (level : Z) (root : string) (names : list string) :
    result (list (string * list string)) :=
  match names with
  | [] => Ok []
  | name :: names' =>
      let path := path_join root name in
      if endswith ("." +:+ pretty level +:+ ".gz") path then
        text ← gzip_open path;
        mans ← open_mans level root names';
        Ok ((path, text) :: mans)
      else if endswith ("." +:+ pretty level) path then
        text ← open_ path;
        mans ← open_mans level root names';
        Ok ((path, text) :: mans)
      else open_mans level root names'
  end.

(** [get_mans(level, root)], run to its end.  The generator is consumed by
    the loop of [main] (line 124), whose body raises nothing: the first call
    that the environment refuses is the same whether the pages are taken one
    by one or all at once. *)
Definition get_mans (level : Z) (root : string) :
    result (list (string * list string)) :=
  let root := path_join root ("man" +:+ pretty level) in
  names ← listdir root;
  open_mans level root names.

(** ['%s/%s.html' % (htmldir, link)]; a missing link is [None]. *)
Definition html_file (htmldir : string) (link : option string) : string :=
  htmldir +:+ "/" +:+ default "None" link +:+ ".html".

(** The header that the page of [link] gives, if the page is there, can be
    read and declares one. *)
Definition page_header (htmldir : string) (link : option string) : option string :=
  if exists_ (html_file htmldir link)
  then
    match read (html_file htmldir link) with
    | Ok html => remove_sub "&lt;" 0 <$> re_header html
    | Raise _ => None
    end
  else None.

(** The body of the loop over [links.items()] (lines 176-189). *)
Definition resolve_link (htmldir : string)
    (st : list sym * gmap string sym * list message)
    (entry : option string * list ref) :
    result (list sym * gmap string sym * list message) :=
  let htmlfile := html_file htmldir entry.1 in
  if negb (exists_ htmlfile) then Ok (st.1, st.2 ++ [MissingHtml htmlfile])
  else
    html ← read htmlfile;
    match re_header html with
    | Some header =>
        let header := remove_sub "&lt;" 0 header in
        Ok (foldl (set_header header) st.1 entry.2, st.2)
    | None => Ok (st.1, st.2 ++ [NoHeaderFound htmlfile])
    end.

Fixpoint resolve_links (htmldir : string)
    (st : list sym * gmap string sym * list message)
    (entries : list (option string * list ref)) :
    result (list sym * gmap string sym * list message) :=
  match entries with
  | [] => Ok st
  | entry :: entries' =>
      st ← resolve_link htmldir st entry;
      resolve_links htmldir st entries'
  end.

(** [main] up to the header pass (lines 114-189): the man symbols, the two
    tables of records and what was printed. *)
Definition tables (cppdir : string) :
    result (gmap string (gset string) * gmap string sym * gmap string sym
            * list message) :=
  let xml_c_index := cppdir +:+ "/index-functions-c.xml" in
  let xml_cpp_index := cppdir +:+ "/index-functions-cpp.xml" in
  let htmldir := cppdir +:+ "/reference/en.cppreference.com/w" in
  mans3 ← get_mans 3 "/usr/share/man";
  mans2 ← get_mans 2 "/usr/share/man";
  let '(man_syms, err) :=
    load_mans re_include re_func (mans3 ++ mans2) (∅, []) in
  c_nodes ← xml_root xml_c_index;
  st ← load_c c_nodes (CState [] ∅ ∅);
  cpp_nodes ← xml_root xml_cpp_index;
  cpp_syms ← load_cpp cpp_nodes ∅;
  cpp_syms ← resolve_aliases (items _ cpp_syms).*1 cpp_syms;
  let links := foldl backlink (links st) (items _ cpp_syms) in
  '(objs, cpp_syms, err) ←
    resolve_links htmldir (c_objs st, cpp_syms, Diag <$> err) (link_items links);
  Ok (man_syms, omap (λ addr, objs !! addr) (c_refs st), cpp_syms, err).

(** [print "len(x) =", n] *)
Definition print_len (x : string) (n : nat) : string :=
  "len(" +:+ x +:+ ") = " +:+ pretty n +:+ newline.

(** [main] up to the final indexes (lines 114-241), with what was printed
    to the standard output and to the standard error. *)
Definition indexes (cppdir : string) :
    result (gmap string value * gmap string value * string * list message) :=
  '(man_syms, c_syms, cpp_syms, err) ← tables cppdir;
  '(c_index, err1) ←
    filter_syms (Catalog c_syms) man_syms "C" (items _ c_syms) (∅, []);
  '(cpp_index, err2) ←
    filter_syms (Filtered c_index) man_syms "C++" (items _ cpp_syms) (∅, err1);
  let out :=
    print_len "c_syms" (size c_index) +:+ print_len "cpp_syms" (size cpp_index)
    +:+ print_len "man_syms" (size man_syms) in
  let '(c_index, cpp_index) :=
    merge_mans (items _ man_syms) (c_index, cpp_index) in
  let '(cpp_index, err3) :=
    decanonicalize (items _ cpp_index) (cpp_index, err2) in
  Ok (c_index, cpp_index, out, err ++ (Diag <$> err3)).

(** The body of the last loop (lines 246-249): the file is opened, then
    written; the text that went to it. *)
Definition write_file (name : string) (syms : gmap string value) : result string :=
  _ ← create (name +:+ ".el");
  text ← write_index set_iter items name syms;
  _ ← write (name +:+ ".el") text;
  Ok text.

(** [main(cppdir)]: the texts of the two files, the standard output and the
    standard error. *)
Definition main (cppdir : string) :
    result (string * string * string * list message) :=
  '(c_index, cpp_index, out, err) ← indexes cppdir;
  c_el ← write_file "includeme-index-c" c_index;
  cpp_el ← write_file "includeme-index-cpp" cpp_index;
  Ok (c_el, cpp_el, out, err).

End io.

End Full.

(** ** What the catalog passes and the header pass come to *)

(** A node of the C catalog passes the tests on its link. *)
Definition c_link (child : Full.element) : option string :=
  match Full.attrib child !! "link" with
  | Some link =>
      if contains "/" link && negb (startswith "cpp/" link) then Some link else None
  | None => None
  end.

(** The record that a node of the C catalog gives, with its name, if the
    node is kept. *)
Definition c_record (child : Full.element) : option (string * sym) :=
  link ← c_link child;
  name ← Full.attrib child !! "name";
  if contains "(" name then None
  else Some (name, Sym name (Full.tag child) None (Some link) None).

(** The same for a node of the C++ catalog. *)
Definition cpp_record (child : Full.element) : option (string * sym) :=
  name ← Full.attrib child !! "name";
  if contains "(" name then None
  else Some (name, Sym name (Full.tag child) (Full.attrib child !! "alias")
                       (Full.attrib child !! "link") None).

(** The table of records that [c_syms] stands for. *)
Definition c_table_of (st : Full.c_state) : gmap string sym :=
  omap (λ addr, Full.c_objs st !! addr) (Full.c_refs st).

(** The record that a reference leads to. *)
Definition deref (store : list sym * gmap string sym) (r : Full.ref) : option sym :=
  match r with
  | Full.CRef addr => store.1 !! addr
  | Full.CppRef key => store.2 !! key
  end.

(** [links] lists each record of the store once, under its link. *)
Definition links_wf (links : gmap (option string) (list Full.ref))
    (store : list sym * gmap string sym) : Prop :=
  (∀ l refs r, links !! l = Some refs → r ∈ refs →
     ∃ s, deref store r = Some s ∧ link s = l)
  ∧ (∀ r s, deref store r = Some s →
       ∃ refs, links !! link s = Some refs ∧ r ∈ refs).

(** The header that its page gives to a record. *)
Definition set_page_header (page : option string → option string) (s : sym) : sym :=
  match page (link s) with
  | Some hdr => Full.with_header hdr s
  | None => s
  end.

(** No record of the store has a header yet. *)
Definition no_header (store : list sym * gmap string sym) : Prop :=
  ∀ r s, deref store r = Some s → header s = None.

(** What the pass over the C catalog keeps true of its state. *)
Definition c_inv (st : Full.c_state) : Prop :=
  links_wf (Full.links st) (Full.c_objs st, ∅)
  ∧ no_header (Full.c_objs st, ∅)
  ∧ ∀ k addr, Full.c_refs st !! k = Some addr → (addr < length (Full.c_objs st))%nat.

(** [s'] is [s] but for its type and its link. *)
Definition retyped (s s' : sym) : Prop :=
  name s' = name s ∧ alias s' = alias s ∧ header s' = header s.

(** The record [s] once the header pass has been over it: its header is the
    one that the page of its link gives. *)
Definition paged (page : option string → option string) (s : sym) : sym :=
  Sym (name s) (type s) (alias s) (link s) (page (link s)).

(** What the header pass prints for a link (lines 177-189), if anything. *)
Definition page_message (exists_ : string → bool) (read : string → result string)
    (re_header : string → option string) (htmldir : string) (link : option string) :
    option Full.message :=
  let htmlfile := Full.html_file htmldir link in
  if negb (exists_ htmlfile) then Some (Full.MissingHtml htmlfile)
  else
    match read htmlfile with
    | Ok html =>
        match re_header html with
        | Some _ => None
        | None => Some (Full.NoHeaderFound htmlfile)
        end
    | Raise _ => None
    end.

(** The state after the body of the header pass: the state before it, had
    the body raised. *)
Definition header_step (exists_ : string → bool) (read : string → result string)
    (re_header : string → option string) (htmldir : string)
    (st : list sym * gmap string sym * list Full.message)
    (entry : option string * list Full.ref) :
    list sym * gmap string sym * list Full.message :=
  match Full.resolve_link exists_ read re_header htmldir st entry with
  | Ok st' => st'
  | Raise _ => st
  end.

(** No link is listed without a record. *)
Definition links_nonempty (links : gmap (option string) (list Full.ref)) : Prop :=
  ∀ l refs, links !! l = Some refs → refs ≠ [].

(** ** A small site

    Two directories of man pages, two catalogs and a few pages of the
    reference, for the whole of [main]: the C catalog names [printf] twice,
    the page of the first link is missing, a page declares its header with an
    entity before it, and a C++ record is an alias. *)

Module Site.

Definition listdir (dir : string) : result (list string) :=
  if bool_decide (dir = "/usr/share/man/man3") then Ok ["log10.3.gz"; "README"]
  else if bool_decide (dir = "/usr/share/man/man2") then Ok ["fstat.2"]
  else Raise OSError.

(** A machine without man pages. *)
Definition listdir_none (dir : string) : result (list string) := Raise OSError.

Definition gzip_open (path : string) : result (list string) :=
  Ok [".B #include <math.h>";
      ".BI double log10(double x);";
      ".SH DESCRIPTION"].

Definition open_ (path : string) : result (list string) :=
  Ok [".BI int fstat(int fd, struct stat *buf);";
      ".B #include <sys/stat.h>";
      ".BI int fstat(int fd, struct stat *buf);"].

Definition c_nodes : list Full.element :=
  [Full.Element "function" {[ "name" := "printf"; "link" := "c/io/printf" ]};
   Full.Element "function" {[ "name" := "log10"; "link" := "c/numeric/math/log10" ]};
   Full.Element "function" {[ "name" := "operator()"; "link" := "c/language/call" ]};
   Full.Element "function" {[ "name" := "abs" ]};
   Full.Element "function" {[ "name" := "swap"; "link" := "cpp/algorithm/swap" ]};
   Full.Element "function" {[ "name" := "printf"; "link" := "c/io/fprintf" ]};
   Full.Element "function"
     {[ "name" := "feclearexcept"; "link" := "c/numeric/fenv/feclearexcept" ]}].

Definition cpp_nodes : list Full.element :=
  [Full.Element "function" {[ "name" := "std::printf"; "link" := "cpp/io/c/fprintf" ]};
   Full.Element "class"
     {[ "name" := "std::basic_string"; "link" := "cpp/string/basic_string" ]};
   Full.Element "typedef" {[ "name" := "std::string"; "alias" := "std::basic_string" ]};
   Full.Element "function"
     {[ "name" := "std::log10"; "link" := "cpp/numeric/math/log10" ]}].

Definition xml_root (path : string) : result (list Full.element) :=
  if Full.endswith "-c.xml" path then Ok c_nodes else Ok cpp_nodes.

(** A C++ catalog whose only record is an alias of a name it does not have. *)
Definition xml_dangling (path : string) : result (list Full.element) :=
  if Full.endswith "-c.xml" path then Ok []
  else Ok [Full.Element "typedef"
             {[ "name" := "std::string"; "alias" := "std::basic_string" ]}].

Definition exists_ (path : string) : bool :=
  negb (contains "log10" path) && negb (contains "/c/io/printf" path).

Definition read (path : string) : result string :=
  if Full.endswith "/w/c/io/fprintf.html" path
  then Ok "Defined in header <code>&lt;stdio.h&gt;</code>"
  else if Full.endswith "/w/cpp/string/basic_string.html" path
  then Ok "Defined in header <code>&lt;string&gt;</code>"
  else if Full.endswith "/w/c/numeric/fenv/feclearexcept.html" path
  then Ok "Defined in header <code>&nbsp;&lt;fenv.h&gt;</code>"
  else Ok "<html></html>".

Definition create (path : string) : result unit := Ok ().

Definition write (path text : string) : result unit := Ok ().

(** A directory in which the second file cannot be opened. *)
Definition create_one (path : string) : result unit :=
  if bool_decide (path = "includeme-index-c.el") then Ok () else Raise IOError.

Definition re_header (html : string) : option string :=
  if contains "<code>&lt;stdio.h&gt;" html then Some "stdio.h"
  else if contains "<code>&lt;string&gt;" html then Some "string"
  else if contains "&nbsp;&lt;fenv.h&gt;" html then Some "&lt;fenv.h"
  else None.

Definition link_items (links : gmap (option string) (list Full.ref)) :
    list (option string * list Full.ref) :=
  map_to_list links.

(** What the run gives. *)
Definition c_state : Full.c_state :=
  Full.CState
    [Sym "printf" "function" None (Some "c/io/printf") None;
     Sym "log10" "function" None (Some "c/numeric/math/log10") None;
     Sym "printf" "function" None (Some "c/io/fprintf") None;
     Sym "feclearexcept" "function" None (Some "c/numeric/fenv/feclearexcept") None]
    {[ "printf" := 2%nat; "log10" := 1%nat; "feclearexcept" := 3%nat ]}
    {[ Some "c/io/printf" := [Full.CRef 0];
       Some "c/numeric/math/log10" := [Full.CRef 1];
       Some "c/io/fprintf" := [Full.CRef 2];
       Some "c/numeric/fenv/feclearexcept" := [Full.CRef 3] ]}.

Definition man_syms : gmap string (gset string) :=
  {[ "log10" := {["math.h"]}; "fstat" := {["sys/stat.h"]} ]}.

Definition c_syms : gmap string sym :=
  {[ "printf" := Sym "printf" "function" None (Some "c/io/fprintf") (Some "stdio.h");
     "log10" := Sym "log10" "function" None (Some "c/numeric/math/log10") None;
     "feclearexcept" :=
       Sym "feclearexcept" "function" None (Some "c/numeric/fenv/feclearexcept")
         (Some "fenv.h") ]}.

Definition cpp_syms : gmap string sym :=
  {[ "std::printf" := Sym "std::printf" "function" None (Some "cpp/io/c/fprintf") None;
     "std::basic_string" :=
       Sym "std::basic_string" "class" None (Some "cpp/string/basic_string")
         (Some "string");
     "std::string" :=
       Sym "std::string" "typedef(class)" (Some "std::basic_string")
         (Some "cpp/string/basic_string") (Some "string");
     "std::log10" :=
       Sym "std::log10" "function" None (Some "cpp/numeric/math/log10") None ]}.

Definition c_index : gmap string value :=
  {[ "printf" := Hdrs {["stdio.h"]};
     "feclearexcept" := Hdrs {["fenv.h"]};
     "log10" := Hdrs {["math.h"]};
     "fstat" := Hdrs {["sys/stat.h"]} ]}.

Definition cpp_index : gmap string value :=
  {[ "std::printf" := Hdrs {["cstdio"]};
     "std::basic_string" := Hdrs {["string"]};
     "std::string" := Hdrs {["string"]};
     "std::log10" := Hdrs {["cmath"]};
     "fstat" := Hdrs {["sys/stat.h"]};
     "printf" := Canonical "std::printf";
     "basic_string" := Canonical "std::basic_string";
     "string" := Canonical "std::string";
     "log10" := Canonical "std::log10" ]}.

Definition err : list Full.message :=
  [Full.Diag (NoIncludes "fstat" "/usr/share/man/man2/fstat.2");
   Full.MissingHtml "/doc/reference/en.cppreference.com/w/c/io/printf.html";
   Full.MissingHtml "/doc/reference/en.cppreference.com/w/c/numeric/math/log10.html";
   Full.NoHeaderFound "/doc/reference/en.cppreference.com/w/cpp/io/c/fprintf.html";
   Full.MissingHtml "/doc/reference/en.cppreference.com/w/cpp/numeric/math/log10.html"].

Definition out : string :=
  "len(c_syms) = 2" +:+ newline +:+ "len(cpp_syms) = 4" +:+ newline
  +:+ "len(man_syms) = 2" +:+ newline.

Definition err_all : list Full.message :=
  err ++ [Full.Diag (Discard "C" "log10");
          Full.Diag (SalvageFromMan "std::log10" {["cmath"]});
          Full.Diag (SalvageFromC "std::printf" {["cstdio"]})].

End Site.

(** The environment raises [e]: one of the calls that [main] makes to it
    answers [Raise e]. *)
Definition environment_raises
    (listdir open_ gzip_open : string → result (list string))
    (xml_root : string → result (list Full.element))
    (read : string → result string) (create : string → result unit)
    (write : string → string → result unit) (e : error) : Prop :=
  (∃ path, listdir path = Raise e)
  ∨ (∃ path, open_ path = Raise e)
  ∨ (∃ path, gzip_open path = Raise e)
  ∨ (∃ path, xml_root path = Raise e)
  ∨ (∃ path, read path = Raise e)
  ∨ (∃ path, create path = Raise e)
  ∨ (∃ path text, write path text = Raise e).

(** ** Reading the literal back

    A reader for the notation in which [make_happy_tree] writes: lists in
    parentheses, dotted pairs, strings in double quotes, the quote mark, and
    atoms, which are kept as their text; [nil] is the empty list.  It is
    written from the notation, not from the serializer.  A backslash, a
    comment and the other characters that the Lisp reader treats specially
    are not read. *)
Module Lisp.

Inductive sexp : Type :=
  | Atom (s : string)
  | Str (s : string)
  | Null
  | Cons (a d : sexp).

Inductive char_class : Type :=
  | Blank | Open | Close | Quote | DQuote | Special | Constituent.

(** Blanks are tab, newline, form feed, return and space; the special
    characters are [#], [,], [;], [?], the square brackets, the backslash
    and the backquote. *)
Definition classify (c : Ascii.ascii) : char_class :=
  match Ascii.N_of_ascii c with
  | 9 | 10 | 12 | 13 | 32 => Blank
  | 40 => Open
  | 41 => Close
  | 39 => Quote
  | 34 => DQuote
  | 35 | 44 | 59 | 63 | 91 | 92 | 93 | 96 => Special
  | _ => Constituent
  end%N.

Definition backslash (c : Ascii.ascii) : bool := (Ascii.N_of_ascii c =? 92)%N.

Inductive token : Type :=
  | TOpen
  | TClose
  | TQuote
  | TDot
  | TStr (s : string)
  | TAtom (s : string)
  | TBad.

Inductive lex_state : Type :=
  | Idle
  | InAtom (acc : string)
  | InStr (acc : string).

(** A dot on its own is the mark of a dotted pair. *)
Definition atom_token (s : string) : token :=
  if bool_decide (s = ".") then TDot else TAtom s.

Definition flush (st : lex_state) : list token :=
  match st with
  | InAtom acc => [atom_token acc]
  | _ => []
  end.

Definition pending (st : lex_state) : string :=
  match st with
  | InAtom acc => acc
  | _ => EmptyString
  end.

(** The tokens of a text; [TBad] ends them at a character that is not read
    and at a string left open. *)
Fixpoint lex (st : lex_state) (s : string) : list token :=
  match s with
  | EmptyString =>
      match st with
      | InStr _ => [TBad]
      | _ => flush st
      end
  | String c s' =>
      match st with
      | InStr acc =>
          match classify c with
          | DQuote => TStr acc :: lex Idle s'
          | _ =>
              if backslash c then [TBad]
              else lex (InStr (acc +:+ String c EmptyString)) s'
          end
      | _ =>
          match classify c with
          | Blank => flush st ++ lex Idle s'
          | Open => flush st ++ TOpen :: lex Idle s'
          | Close => flush st ++ TClose :: lex Idle s'
          | Quote => flush st ++ TQuote :: lex Idle s'
          | DQuote => flush st ++ lex (InStr EmptyString) s'
          | Special => flush st ++ [TBad]
          | Constituent => lex (InAtom (pending st +:+ String c EmptyString)) s'
          end
      end
  end.

(** One expression from the head of the tokens, with the tokens left;
    [read_tail] reads the rest of a list whose parenthesis is open. *)
Fixpoint read_sexp (fuel : nat) (ts : list token) : option (sexp * list token) :=
  match fuel with
  | O => None
  | S fuel' =>
      match ts with
      | TAtom s :: ts' => Some (if bool_decide (s = "nil") then Null else Atom s, ts')
      | TStr s :: ts' => Some (Str s, ts')
      | TQuote :: ts' =>
          match read_sexp fuel' ts' with
          | Some (x, ts'') => Some (Cons (Atom "quote") (Cons x Null), ts'')
          | None => None
          end
      | TOpen :: ts' => read_tail fuel' ts'
      | _ => None
      end
  end
with read_tail (fuel : nat) (ts : list token) : option (sexp * list token) :=
  match fuel with
  | O => None
  | S fuel' =>
      match ts with
      | [] => None
      | TClose :: ts' => Some (Null, ts')
      | TDot :: ts' =>
          match read_sexp fuel' ts' with
          | Some (d, TClose :: ts'') => Some (d, ts'')
          | _ => None
          end
      | _ =>
          match read_sexp fuel' ts with
          | Some (a, ts') =>
              match read_tail fuel' ts' with
              | Some (d, ts'') => Some (Cons a d, ts'')
              | None => None
              end
          | None => None
          end
      end
  end.

(** The expression that a text is, when it is one and nothing else. *)
Definition read (text : string) : option sexp :=
  let ts := lex Idle text in
  match read_sexp (2 * length ts + 1) ts with
  | Some (x, []) => Some x
  | _ => None
  end.

(** The tree that an expression is, as the documentation of
    [make_happy_tree] gives it (lines 48-57): a node is
    [(entry left . right)], its entry [(name . canonical)] or
    [(name header ...)], the name a string and the rest atoms. *)
Fixpoint atoms (x : sexp) : option (list string) :=
  match x with
  | Null => Some []
  | Cons (Atom h) d => (h ::.) <$> atoms d
  | _ => None
  end.

Definition entry (x : sexp) : option (string * value) :=
  match x with
  | Cons (Str name) (Atom canonical) => Some (name, Canonical canonical)
  | Cons (Str name) d => hdrs ← atoms d; Some (name, Hdrs (list_to_set hdrs))
  | _ => None
  end.

Fixpoint tree_of (x : sexp) : option tree :=
  match x with
  | Null => Some Nil
  | Cons e (Cons l r) =>
      e ← entry e; l ← tree_of l; r ← tree_of r; Some (Node e l r)
  | _ => None
  end.

(** [x] when the expression is ['x]. *)
Definition quoted (x : sexp) : option sexp :=
  match x with
  | Cons (Atom q) (Cons body Null) =>
      if bool_decide (q = "quote") then Some body else None
  | _ => None
  end.

Definition read_tree (text : string) : option tree :=
  x ← read text; body ← quoted x; tree_of body.

(** A text that is read as one atom, other than [nil] and the dot; a text
    that a string between double quotes holds as it is. *)
Fixpoint constituents (s : string) : bool :=
  match s with
  | EmptyString => true
  | String c s' =>
      match classify c with
      | Constituent => constituents s'
      | _ => false
      end
  end.

Definition symbol (s : string) : bool :=
  constituents s
  && negb (bool_decide (s = EmptyString))
  && negb (bool_decide (s = "."))
  && negb (bool_decide (s = "nil")).

Fixpoint verbatim (s : string) : bool :=
  match s with
  | EmptyString => true
  | String c s' =>
      match classify c with
      | DQuote => false
      | _ => negb (backslash c) && verbatim s'
      end
  end.

(** The next character, if any, ends an atom. *)
Definition delimited (s : string) : bool :=
  match s with
  | EmptyString => true
  | String c _ =>
      match classify c with
      | Constituent => false
      | _ => true
      end
  end.

End Lisp.

(** An entry whose name a Lisp string holds as it is and whose headers, or
    canonical name, are atoms. *)
Definition readable (e : string * value) : bool :=
  Lisp.verbatim e.1
  && match e.2 with
     | Canonical canonical_name => Lisp.symbol canonical_name
     | Hdrs hdrs => forallb Lisp.symbol (elements hdrs)
     end.

(** The tokens and the expression of the literal of a tree, [set_iter]
    giving the order of the headers. *)
Definition entry_tokens (set_iter : gset string → list string)
    (e : string * value) : list Lisp.token :=
  Lisp.TOpen :: Lisp.TStr e.1
  :: match e.2 with
     | Canonical canonical_name => [Lisp.TDot; Lisp.TAtom canonical_name]
     | Hdrs hdrs => Lisp.TAtom <$> set_iter hdrs
     end ++ [Lisp.TClose].

Fixpoint tree_tokens (set_iter : gset string → list string) (t : tree) :
    list Lisp.token :=
  match t with
  | Nil => [Lisp.TAtom "nil"]
  | Node e l r =>
      Lisp.TOpen :: entry_tokens set_iter e ++ tree_tokens set_iter l
      ++ Lisp.TDot :: tree_tokens set_iter r ++ [Lisp.TClose]
  end.

Definition entry_sexp (set_iter : gset string → list string)
    (e : string * value) : Lisp.sexp :=
  Lisp.Cons (Lisp.Str e.1)
    match e.2 with
    | Canonical canonical_name => Lisp.Atom canonical_name
    | Hdrs hdrs => foldr (λ h d, Lisp.Cons (Lisp.Atom h) d) Lisp.Null (set_iter hdrs)
    end.

Fixpoint tree_sexp (set_iter : gset string → list string) (t : tree) : Lisp.sexp :=
  match t with
  | Nil => Lisp.Null
  | Node e l r =>
      Lisp.Cons (entry_sexp set_iter e)
        (Lisp.Cons (tree_sexp set_iter l) (tree_sexp set_iter r))
  end.

(** What is known of the order in which a set is iterated: each element
    comes once. *)
Definition set_enumerates (set_iter : gset string → list string) : Prop :=
  ∀ hdrs, set_iter hdrs ≡ₚ elements hdrs.

Definition name_le {V} (a b : string * V) : Prop := String.le a.1 b.1.

(** [l[i:j]] *)
Definition slice {A} (l : list A) (i j : nat) : list A :=
  take (j - i) (drop i l).

(** * Properties of the serializer *)

Lemma string_app_assoc (a b c : string) : (a +:+ b) +:+ c = a +:+ (b +:+ c).
Proof.
  induction a as [|x a IH]; [done|].
  change (String x ((a +:+ b) +:+ c) = String x (a +:+ (b +:+ c))).
  by f_equal.
Qed.

Lemma py_index_lookup {A} (l : list A) (i : nat) (x : A) :
  l !! i = Some x → py_index l (Z.of_nat i) = Ok x.
Proof.
  intros Hx. pose proof (lookup_lt_Some _ _ _ Hx) as Hlt.
  unfold py_index.
  destruct (Z.ltb_spec (Z.of_nat i) 0) as [?|_]; [lia|].
  destruct (Z.leb_spec 0 (Z.of_nat i)) as [_|?]; [|lia].
  destruct (Z.ltb_spec (Z.of_nat i) (Z.of_nat (length l))) as [_|?]; [|lia].
  simpl. by rewrite Nat2Z.id, Hx.
Qed.

(** [do_node] writes the text of the tree that [node_tree] builds, and fails
    when it fails. *)
Lemma do_node_render set_iter fuel syms start end_ out :
  do_node set_iter fuel syms start end_ out
  = (λ t, out +:+ render set_iter t) <$> node_tree fuel syms start end_.
Proof.
  revert start end_ out.
  induction fuel as [|fuel IH]; intros start end_ out; simpl; [done|].
  case_bool_decide; [done|].
  destruct (py_index syms _) as [e|err]; simpl; [|done].
  rewrite IH.
  destruct (node_tree fuel syms start _) as [l|err]; simpl; [|done].
  rewrite IH.
  destruct (node_tree fuel syms _ end_) as [r|err]; simpl; [|done].
  by rewrite !string_app_assoc.
Qed.

(** ** The sort *)

Lemma sort_insert_perm {V} (x : string * V) l : sort_insert x l ≡ₚ x :: l.
Proof.
  induction l as [|y l IH]; simpl; [done|].
  destruct (String.leb x.1 y.1); [done|].
  by rewrite IH, Permutation_swap.
Qed.

Lemma sort_by_name_perm {V} (l : list (string * V)) : sort_by_name l ≡ₚ l.
Proof.
  induction l as [|x l IH]; simpl; [done|].
  by rewrite sort_insert_perm, IH.
Qed.

Lemma sort_by_name_length {V} (l : list (string * V)) :
  length (sort_by_name l) = length l.
Proof. by rewrite sort_by_name_perm. Qed.

Lemma sort_insert_hd {V} (a x : string * V) l :
  name_le a x → HdRel name_le a l → HdRel name_le a (sort_insert x l).
Proof.
  intros Hax Hal. destruct l as [|y l]; simpl; [by constructor|].
  destruct (String.leb x.1 y.1); constructor; [done|].
  by inversion Hal.
Qed.

Lemma sort_insert_sorted {V} (x : string * V) l :
  Sorted name_le l → Sorted name_le (sort_insert x l).
Proof.
  induction 1 as [|y l Hl IH Hy]; simpl; [by repeat constructor|].
  destruct (String.leb x.1 y.1) eqn:Hxy.
  - constructor; [by constructor|]. constructor. unfold name_le, String.le. by rewrite Hxy.
  - constructor; [done|]. apply sort_insert_hd; [|done].
    unfold name_le. destruct (total String.le x.1 y.1) as [Hle|Hle]; [|done].
    unfold String.le in Hle. by rewrite Hxy in Hle.
Qed.

Lemma sort_by_name_sorted {V} (l : list (string * V)) :
  Sorted name_le (sort_by_name l).
Proof. induction l; simpl; [constructor|]. by apply sort_insert_sorted. Qed.

Global Instance name_le_trans {V} : Transitive (@name_le V).
Proof. intros a b c. unfold name_le. apply transitivity. Qed.

Lemma name_le_ne_lt (a b : string) : String.le a b → a ≠ b → name_lt a b.
Proof.
  unfold String.le, name_lt, String.leb, String.ltb. intros Hle Hne.
  destruct (String.compare a b) eqn:Hc; [|done..].
  by apply String.compare_eq_iff in Hc.
Qed.

(** Sorted names without repetition increase strictly. *)
Lemma sorted_nodup_strict {V} (l : list (string * V)) :
  Sorted name_le l → NoDup l.*1 → StronglySorted name_lt l.*1.
Proof.
  intros Hs%Sorted_StronglySorted; [|apply _].
  induction Hs as [|x l Hl IH Hx]; simpl; intros Hnd; [constructor|].
  apply NoDup_cons in Hnd as [Hnin Hnd].
  constructor; [by apply IH|].
  apply Forall_fmap, Forall_forall. intros y Hy. simpl.
  apply name_le_ne_lt.
  - rewrite Forall_forall in Hx. by apply Hx.
  - intros Heq. apply Hnin. rewrite Heq. by apply list_elem_of_fmap_2.
Qed.

(** ** The midpoint split *)

Lemma slice_all {A} (l : list A) : slice l 0 (length l) = l.
Proof. unfold slice. by rewrite drop_0, Nat.sub_0_r, firstn_all. Qed.

Lemma slice_empty {A} (l : list A) i : slice l i i = [].
Proof. unfold slice. by rewrite Nat.sub_diag. Qed.

Lemma slice_split {A} (l : list A) (i p j : nat) (x : A) :
  (i ≤ p < j)%nat → l !! p = Some x →
  slice l i j = slice l i p ++ x :: slice l (S p) j.
Proof.
  intros Hp Hx. unfold slice.
  assert (drop i l !! (p - i)%nat = Some x) as Hd.
  { rewrite lookup_drop. by replace (i + (p - i))%nat with p by lia. }
  rewrite <- (take_drop_middle _ _ _ Hd) at 1.
  pose proof (lookup_lt_Some _ _ _ Hd) as Hlen.
  rewrite take_app_ge by (rewrite length_take; lia).
  rewrite length_take, Nat.min_l by lia.
  replace (j - i - (p - i))%nat with (S (j - S p)) by lia.
  simpl. rewrite drop_drop.
  by replace (i + S (p - i))%nat with (S p) by lia.
Qed.

Lemma pivot_nat (s e : nat) :
  (s ≤ e)%nat →
  Z.of_nat s + (Z.of_nat e - Z.of_nat s) / 2 = Z.of_nat (s + (e - s) / 2).
Proof.
  intros Hse. rewrite Nat2Z.inj_add, Nat2Z.inj_div, Nat2Z.inj_sub by done.
  done.
Qed.

Lemma half_bounds (n : nat) : (1 ≤ n)%nat → (n / 2 < n ∧ n - S (n / 2) ≤ n / 2)%nat.
Proof.
  intros Hn. pose proof (Nat.div_mod_eq n 2) as Hdm.
  pose proof (Nat.mod_upper_bound n 2). lia.
Qed.

(** With enough fuel [node_tree] returns, and the in-order traversal of its
    tree is the slice [syms[start:end]]. *)
Lemma node_tree_inorder fuel syms (s e : nat) :
  (s ≤ e ≤ length syms)%nat → (e - s < fuel)%nat →
  ∃ t, node_tree fuel syms (Z.of_nat s) (Z.of_nat e) = Ok t
       ∧ inorder t = slice syms s e.
Proof.
  revert s e. induction fuel as [|fuel IH]; intros s e Hse Hfuel; [lia|].
  simpl. case_bool_decide as Heq.
  { apply Nat2Z.inj in Heq as ->. exists Nil. by rewrite slice_empty. }
  assert (s < e)%nat as Hlt by lia.
  rewrite pivot_nat by lia.
  set (p := (s + (e - s) / 2)%nat).
  destruct (half_bounds (e - s)) as [Hh1 Hh2]; [lia|].
  destruct (lookup_lt_is_Some_2 syms p) as [x Hx]; [subst p; lia|].
  rewrite (py_index_lookup _ _ _ Hx). simpl.
  destruct (IH s p) as (l & -> & Hl); [subst p; lia..|]. simpl.
  replace (Z.of_nat p + 1) with (Z.of_nat (S p)) by lia.
  destruct (IH (S p) e) as (r & -> & Hr); [subst p; lia..|]. simpl.
  exists (Node x l r). split; [done|]. simpl.
  rewrite Hl, Hr. symmetry. apply slice_split; [subst p; lia|done].
Qed.



(** * Loading the man pages *)

Lemma add_man_fact_stored (man_syms : gmap string (gset string)) err fact func stored :
  man_syms !! func = Some stored →
  (add_man_fact (man_syms, err) fact).1 !! func = Some stored.
Proof.
  intros Hf. destruct fact as [g includes]. simpl.
  destruct (man_syms !! g) as [old|] eqn:Hg.
  - by case_bool_decide.
  - simpl. rewrite lookup_insert_ne; [done|]. intros ->. congruence.
Qed.

Lemma add_man_facts_stored facts (st : gmap string (gset string) * list diag) func stored :
  st.1 !! func = Some stored →
  (foldl add_man_fact st facts).1 !! func = Some stored.
Proof.
  revert st. induction facts as [|fact facts IH]; intros [m err] Hf; simpl; [done|].
  apply IH. by apply add_man_fact_stored.
Qed.

Lemma add_man_fact_seen (man_syms : gmap string (gset string)) err func stored includes :
  man_syms !! func = Some stored →
  add_man_fact (man_syms, err) (func, includes)
  = (man_syms, err ++ if decide (includes = stored) then []
                      else [ManConflict func stored includes]).
Proof.
  intros Hf. simpl. rewrite Hf.
  case_bool_decide; case_decide; try done. by rewrite app_nil_r.
Qed.

(** C5: a name first seen with the set [first] keeps it whatever facts
    follow; when the name is seen again with a different set, the table is
    left as it is and the conflict is printed, and later facts do not change
    the stored set either. *)
Theorem man_conflict_first_seen_wins
    (man_syms : gmap string (gset string)) (err : list diag)
    (func : string) (first second : gset string)
    (between after : list (string * gset string)) :
  man_syms !! func = None →
  second ≠ first →
  let st := foldl add_man_fact (man_syms, err) ((func, first) :: between) in
  st.1 !! func = Some first
  ∧ add_man_fact st (func, second)
    = (st.1, st.2 ++ [ManConflict func first second])
  ∧ (foldl add_man_fact st ((func, second) :: after)).1 !! func = Some first.
Proof.
  intros Hnone Hne st.
  assert (st.1 !! func = Some first) as Hst.
  { subst st. simpl. rewrite Hnone. apply add_man_facts_stored. simpl.
    apply lookup_insert_eq. }
  split_and!; [done| |by apply add_man_facts_stored].
  destruct st as [m e]. simpl in Hst.
  rewrite (add_man_fact_seen _ _ _ _ _ Hst). by case_decide.
Qed.

Lemma man_conflict_first_seen_wins_witness :
  let st := foldl add_man_fact (∅, []) [("f", {["a.h"]})] in
  st.1 !! "f" = Some {["a.h"]}
  ∧ add_man_fact st ("f", {["b.h"]})
    = (st.1, st.2 ++ [ManConflict "f" {["a.h"]} {["b.h"]}])
  ∧ (foldl add_man_fact st [("f", {["b.h"]})]).1 !! "f" = Some {["a.h"]}.
Proof.
  apply (man_conflict_first_seen_wins ∅ [] "f" {["a.h"]} {["b.h"]} [] []).
  - reflexivity.
  - apply (bool_decide_unpack _). vm_compute. exact I.
Defined.

(** C10: when the name of a fact is already in the table, the table is left
    unchanged; nothing is printed when the set of the fact is the stored one,
    and the conflict is printed, alone, exactly when the two sets differ. *)
Theorem man_fact_seen_again
    (man_syms : gmap string (gset string)) (err : list diag)
    (func : string) (stored includes : gset string) :
  man_syms !! func = Some stored →
  let st := add_man_fact (man_syms, err) (func, includes) in
  st.1 = man_syms
  ∧ (includes = stored → st.2 = err)
  ∧ (includes ≠ stored → st.2 = err ++ [ManConflict func stored includes])
  ∧ (st.2 ≠ err ↔ includes ≠ stored).
Proof.
  intros Hf st. subst st. rewrite (add_man_fact_seen _ _ _ _ _ Hf). simpl.
  case_decide as Heq.
  - rewrite app_nil_r. split_and!; [done|done|done|]. split; intros ?; done.
  - split_and!; [done|done|done|]. split; [done|]. intros _ Habs.
    apply (f_equal length) in Habs. rewrite length_app in Habs. simpl in Habs. lia.
Qed.

Lemma man_fact_seen_again_witness :
  let st := add_man_fact ({["f" := {["a.h"]}]}, []) ("f", {["a.h"]}) in
  st.1 = {["f" := {["a.h"]}]}
  ∧ (({["a.h"]} : gset string) = {["a.h"]} → st.2 = [])
  ∧ (({["a.h"]} : gset string) ≠ {["a.h"]} →
     st.2 = [] ++ [ManConflict "f" {["a.h"]} {["a.h"]}])
  ∧ (st.2 ≠ [] ↔ ({["a.h"]} : gset string) ≠ {["a.h"]}).
Proof.
  apply (man_fact_seen_again {["f" := {["a.h"]}]} [] "f" {["a.h"]} {["a.h"]}).
  reflexivity.
Defined.

(** * Merging the man symbols *)

Lemma merge_man_keeps (c_syms cpp_syms : gmap string value) fact :
  c_syms ⊆ (merge_man (c_syms, cpp_syms) fact).1
  ∧ cpp_syms ⊆ (merge_man (c_syms, cpp_syms) fact).2.
Proof.
  destruct fact as [name hdrs]. simpl. split.
  - case_bool_decide; [by apply insert_subseteq|done].
  - destruct (bool_decide (cpp_syms !! name = None)) eqn:Hn; simpl; [|done].
    apply bool_decide_eq_true in Hn.
    destruct (bool_decide _); [by apply insert_subseteq|done].
Qed.

Lemma merge_mans_keeps facts (st : gmap string value * gmap string value) :
  st.1 ⊆ (merge_mans facts st).1 ∧ st.2 ⊆ (merge_mans facts st).2.
Proof.
  revert st. induction facts as [|fact facts IH]; intros [c cpp]; simpl; [done|].
  destruct (merge_man_keeps c cpp fact) as [Hc Hcpp].
  destruct (IH (merge_man (c, cpp) fact)) as [Hc' Hcpp'].
  split; etrans; done.
Qed.

(** C6: a man-page fact enters the C index only when its name is absent
    from it, with its headers as they are; it enters the C++ index only when
    neither its name nor its [std::] form is there, with its headers mapped
    through the shadow table; in every other case the index is left as it is,
    and no entry of either index is ever overwritten by the merge. *)
Theorem merge_man_backfill
    (c_syms cpp_syms : gmap string value) (name : string) (hdrs : gset string)
    (facts : list (string * gset string)) :
  let st := merge_man (c_syms, cpp_syms) (name, hdrs) in
  (c_syms !! name = None → st.1 = <[name := Hdrs hdrs]> c_syms)
  ∧ (is_Some (c_syms !! name) → st.1 = c_syms)
  ∧ (cpp_syms !! name = None → cpp_syms !! ("std::" +:+ name) = None →
     st.2 = <[name := Hdrs (shadow_set hdrs)]> cpp_syms)
  ∧ (is_Some (cpp_syms !! name) ∨ is_Some (cpp_syms !! ("std::" +:+ name)) →
     st.2 = cpp_syms)
  ∧ (∀ k v, c_syms !! k = Some v →
       (merge_mans facts (c_syms, cpp_syms)).1 !! k = Some v)
  ∧ (∀ k v, cpp_syms !! k = Some v →
       (merge_mans facts (c_syms, cpp_syms)).2 !! k = Some v).
Proof.
  simpl. split_and!.
  - intros Hn. by rewrite bool_decide_eq_true_2.
  - intros [v Hv]. rewrite bool_decide_eq_false_2; [done|congruence].
  - intros Hn Hs. by rewrite !bool_decide_eq_true_2.
  - intros [[v Hv]|[v Hv]].
    + rewrite (bool_decide_eq_false_2 (cpp_syms !! name = None)); [done|congruence].
    + rewrite (bool_decide_eq_false_2 (cpp_syms !! ("std::" +:+ name) = None));
        [|congruence].
      by rewrite andb_false_r.
  - intros k v Hk.
    destruct (merge_mans_keeps facts (c_syms, cpp_syms)) as [Hc _].
    by apply (lookup_weaken _ _ _ _ Hk).
  - intros k v Hk.
    destruct (merge_mans_keeps facts (c_syms, cpp_syms)) as [_ Hcpp].
    by apply (lookup_weaken _ _ _ _ Hk).
Qed.

(** * Short names *)

Lemma string_drop_empty n : string_drop n EmptyString = EmptyString.
Proof. by destruct n. Qed.

Lemma string_drop_add n m s : string_drop (n + m) s = string_drop m (string_drop n s).
Proof.
  revert s. induction n as [|n IH]; intros s; simpl; [done|].
  destruct s as [|c s]; [by rewrite string_drop_empty|]. apply IH.
Qed.

Lemma string_drop_split n s : ∃ pre, s = pre +:+ string_drop n s.
Proof.
  revert s. induction n as [|n IH]; intros s; simpl.
  - by exists EmptyString.
  - destruct s as [|c s]; [by exists EmptyString|].
    destruct (IH s) as [pre Hpre]. exists (String c pre).
    change (String c s = String c (pre +:+ string_drop n s)). by f_equal.
Qed.

Lemma prefix_drop p s :
  startswith p s = true → s = p +:+ string_drop (String.length p) s.
Proof.
  unfold startswith. revert s. induction p as [|a p IH]; intros s; [reflexivity|].
  destruct s as [|b s]; simpl; [done|].
  destruct (Ascii.ascii_dec a b) as [->|]; [|done].
  intros Hp. change (String b s = String b (p +:+ string_drop (String.length p) s)).
  f_equal. by apply IH.
Qed.

Lemma contains_tail sub c s : contains sub (String c s) = false → contains sub s = false.
Proof. simpl. by intros [_ ?]%orb_false_iff. Qed.

Lemma contains_drop sub n s :
  contains sub s = false → contains sub (string_drop n s) = false.
Proof.
  revert s. induction n as [|n IH]; intros s Hs; simpl; [done|].
  destruct s as [|c s]; [done|]. by eapply IH, contains_tail.
Qed.

Lemma rindex_None sub s : rindex sub s = None → contains sub s = false.
Proof.
  induction s as [|c s IH]; simpl.
  - by destruct (startswith sub EmptyString).
  - destruct (rindex sub s) as [i|]; [done|].
    destruct (startswith sub (String c s)); [done|]. intros _. by apply IH.
Qed.

Lemma rindex_Some sub s i :
  rindex sub s = Some i →
  contains sub s = true ∧ startswith sub (string_drop i s) = true.
Proof.
  revert i. induction s as [|c s IH]; intros i; simpl.
  - destruct (startswith sub EmptyString) eqn:Hp; [|done]. by intros [= <-].
  - destruct (rindex sub s) as [j|].
    + intros [= <-]. destruct (IH j eq_refl) as [Hc Hp]. simpl.
      by rewrite Hc, orb_true_r.
    + destruct (startswith sub (String c s)) eqn:Hp; [|done]. by intros [= <-].
Qed.

(** Nothing occurs after the last occurrence. *)
Lemma rindex_last sub s i :
  sub ≠ EmptyString → rindex sub s = Some i →
  contains sub (string_drop (S i) s) = false.
Proof.
  intros Hsub. revert i. induction s as [|c s IH]; intros i; simpl.
  - by destruct sub.
  - destruct (rindex sub s) as [j|] eqn:Hj.
    + intros [= <-]. by apply IH.
    + destruct (startswith sub (String c s)); [|done]. intros [= <-]. simpl.
      by apply rindex_None.
Qed.

Lemma contains_rindex sub s : contains sub s = true ↔ is_Some (rindex sub s).
Proof.
  split.
  - intros Hc. destruct (rindex sub s) eqn:Hr; [done|].
    apply rindex_None in Hr. congruence.
  - intros [i Hi]. by apply rindex_Some in Hi as [? _].
Qed.

(** The short name of a qualified name is what follows its last [::]. *)
Lemma short_name_spec name short :
  short_name name = Some short →
  (∃ qualifier, name = qualifier +:+ "::" +:+ short)
  ∧ contains "::" short = false.
Proof.
  unfold short_name. destruct (rindex "::" name) as [i|] eqn:Hi; [|done].
  simpl. intros [= <-]. split.
  - destruct (string_drop_split i name) as [pre Hpre]. exists pre.
    apply rindex_Some in Hi as [_ Hp]. apply prefix_drop in Hp.
    rewrite string_drop_add. change (String.length "::") with 2%nat in Hp.
    by rewrite <- Hp.
  - replace (i + 2)%nat with (S i + 1)%nat by lia. rewrite string_drop_add.
    by apply contains_drop, rindex_last.
Qed.

(** * Decanonicalizing *)

Lemma decanonicalize_step_keeps (cpp_syms : gmap string value) err item :
  cpp_syms ⊆ (decanonicalize_step (cpp_syms, err) item).1.
Proof.
  destruct item as [name v]. simpl.
  destruct (short_name name) as [short|]; [|done].
  case_bool_decide as Hs; [done|]. simpl.
  apply insert_subseteq. by apply eq_None_not_Some.
Qed.

Lemma decanonicalize_keeps items (st : gmap string value * list diag) :
  st.1 ⊆ (decanonicalize items st).1.
Proof.
  revert st. induction items as [|item items IH]; intros [cpp err]; simpl; [done|].
  etrans; [apply (decanonicalize_step_keeps cpp err item)|apply IH].
Qed.

Lemma decanonicalize_step_err (cpp_syms : gmap string value) err item :
  ∃ more, (decanonicalize_step (cpp_syms, err) item).2 = err ++ more.
Proof.
  destruct item as [name v]. simpl.
  destruct (short_name name) as [short|]; [|exists []; by rewrite app_nil_r].
  case_bool_decide; simpl; [by eexists|]. exists []. by rewrite app_nil_r.
Qed.

Lemma decanonicalize_err items (st : gmap string value * list diag) :
  ∃ more, (decanonicalize items st).2 = st.2 ++ more.
Proof.
  revert st. induction items as [|item items IH]; intros [cpp err].
  { exists []. simpl. by rewrite app_nil_r. }
  change (decanonicalize (item :: items) (cpp, err))
    with (decanonicalize items (decanonicalize_step (cpp, err) item)).
  destruct (decanonicalize_step_err cpp err item) as [m1 H1].
  destruct (IH (decanonicalize_step (cpp, err) item)) as [m2 H2].
  exists (m1 ++ m2). rewrite H2, H1. cbn [snd]. by rewrite app_assoc.
Qed.

(** Every qualified name that the loop goes through ends with its short
    name registered for it, or reported. *)
Lemma decanonicalize_item items (st : gmap string value * list diag) name v short :
  (name, v) ∈ items →
  short_name name = Some short →
  Conflict name ∈ (decanonicalize items st).2
  ∨ (st.1 !! short = None
     ∧ (decanonicalize items st).1 !! short = Some (Canonical name)).
Proof.
  intros Hin Hshort. revert st.
  induction items as [|item items IH]; intros [cpp err]; [by apply elem_of_nil in Hin|].
  apply elem_of_cons in Hin as [<-|Hin].
  - change (decanonicalize ((name, v) :: items) (cpp, err))
      with (decanonicalize items (decanonicalize_step (cpp, err) (name, v))).
    cbn [decanonicalize_step]. rewrite Hshort.
    case_bool_decide as Hpresent.
    + left. destruct (decanonicalize_err items (cpp, err ++ [Conflict name]))
        as [more ->]. simpl. apply elem_of_app. left. apply elem_of_app. right. by left.
    + right. simpl. split; [by apply eq_None_not_Some|].
      pose proof (decanonicalize_keeps items (<[short := Canonical name]> cpp, err))
        as Hsub. cbn [fst] in Hsub.
      apply (lookup_weaken _ _ _ _ (lookup_insert_eq cpp short (Canonical name)) Hsub).
  - change (decanonicalize (item :: items) (cpp, err))
      with (decanonicalize items (decanonicalize_step (cpp, err) item)).
    destruct (IH Hin (decanonicalize_step (cpp, err) item)) as [?|[Hnone Hfinal]];
      [by left|]. right. split; [|done]. simpl.
    pose proof (decanonicalize_step_keeps cpp err item) as Hsub.
    destruct (cpp !! short) as [old|] eqn:Hold; [|done].
    by rewrite (lookup_weaken _ _ _ _ Hold Hsub) in Hnone.
Qed.

(** C7: a C++ name that contains [::] has a short name, what follows its
    last [::]; the short name becomes a redirect to the name only when it is
    not yet an entry, and when it is one the collision is printed and the
    index is left as it is.  So for the whole loop: no entry of the index is
    changed by the decanonicalizer, whatever names it goes through; a name it
    goes through whose short name is an entry before the loop is reported in
    what the loop prints; and every name it goes through is reported, or its
    short name, absent before the loop, redirects to it after the loop. *)
Theorem decanonicalize_collision
    (cpp_syms : gmap string value) (err : list diag) (name : string) (v : value)
    (items : list (string * value)) :
  contains "::" name = true →
  ∃ short, short_name name = Some short
    ∧ (∃ qualifier, name = qualifier +:+ "::" +:+ short)
    ∧ contains "::" short = false
    ∧ (cpp_syms !! short = None →
       decanonicalize_step (cpp_syms, err) (name, v)
       = (<[short := Canonical name]> cpp_syms, err))
    ∧ (is_Some (cpp_syms !! short) →
       decanonicalize_step (cpp_syms, err) (name, v)
       = (cpp_syms, err ++ [Conflict name]))
    ∧ (∀ k old, cpp_syms !! k = Some old →
       (decanonicalize items (cpp_syms, err)).1 !! k = Some old)
    ∧ ((name, v) ∈ items → is_Some (cpp_syms !! short) →
       Conflict name ∈ (decanonicalize items (cpp_syms, err)).2
       ∧ (decanonicalize items (cpp_syms, err)).1 !! short = cpp_syms !! short)
    ∧ ((name, v) ∈ items →
       Conflict name ∈ (decanonicalize items (cpp_syms, err)).2
       ∨ (cpp_syms !! short = None
          ∧ (decanonicalize items (cpp_syms, err)).1 !! short
            = Some (Canonical name))).
Proof.
  intros Hc. apply contains_rindex in Hc as [i Hi].
  exists (string_drop (i + 2) name).
  assert (short_name name = Some (string_drop (i + 2) name)) as Hs.
  { unfold short_name. by rewrite Hi. }
  destruct (short_name_spec _ _ Hs) as [Hq Hn].
  assert (∀ k old, cpp_syms !! k = Some old →
            (decanonicalize items (cpp_syms, err)).1 !! k = Some old) as Hkeeps.
  { intros k old Hk. apply (lookup_weaken _ _ _ _ Hk).
    apply (decanonicalize_keeps items (cpp_syms, err)). }
  split_and!; [done|done|done|..|done| |].
  - intros Hnone. simpl. rewrite Hs, Hnone.
    rewrite bool_decide_eq_false_2; [done|]. by intros [? ?].
  - intros Hsome. simpl. rewrite Hs. by rewrite bool_decide_eq_true_2.
  - intros Hin [old Hold].
    destruct (decanonicalize_item items (cpp_syms, err) name v _ Hin Hs)
      as [Hreport|[Hnone _]]; [|simpl in Hnone; congruence].
    split; [done|]. by rewrite Hold, (Hkeeps _ _ Hold).
  - intros Hin. apply (decanonicalize_item items (cpp_syms, err) name v _ Hin Hs).
Qed.

Lemma decanonicalize_collision_witness :
  let cpp_syms : gmap string value :=
    {[ "log" := Hdrs {["cmath"]}; "std::log" := Hdrs {["cmath"]} ]} in
  let v := Hdrs {["cmath"]} in
  let items := [("log", v); ("std::log", v)] in
  contains "::" "std::log" = true ∧
  ∃ short, short_name "std::log" = Some short
    ∧ (∃ qualifier, "std::log" = qualifier +:+ "::" +:+ short)
    ∧ contains "::" short = false
    ∧ (cpp_syms !! short = None →
       decanonicalize_step (cpp_syms, []) ("std::log", v)
       = (<[short := Canonical "std::log"]> cpp_syms, []))
    ∧ (is_Some (cpp_syms !! short) →
       decanonicalize_step (cpp_syms, []) ("std::log", v)
       = (cpp_syms, [] ++ [Conflict "std::log"]))
    ∧ (∀ k old, cpp_syms !! k = Some old →
       (decanonicalize items (cpp_syms, [])).1 !! k = Some old)
    ∧ (("std::log", v) ∈ items → is_Some (cpp_syms !! short) →
       Conflict "std::log" ∈ (decanonicalize items (cpp_syms, [])).2
       ∧ (decanonicalize items (cpp_syms, [])).1 !! short = cpp_syms !! short)
    ∧ (("std::log", v) ∈ items →
       Conflict "std::log" ∈ (decanonicalize items (cpp_syms, [])).2
       ∨ (cpp_syms !! short = None
          ∧ (decanonicalize items (cpp_syms, [])).1 !! short
            = Some (Canonical "std::log"))).
Proof.
  intros cpp_syms v items. split; [reflexivity|].
  apply (decanonicalize_collision cpp_syms [] "std::log" v items).
  reflexivity.
Defined.

(** * Typedef aliases *)

Lemma truthy_Some (target : string) :
  target ≠ EmptyString → truthy (Some target) = true.
Proof. by destruct target. Qed.

Lemma resolve_alias_dom cpp_syms key cpp_syms' k :
  resolve_alias cpp_syms key = Ok cpp_syms' →
  cpp_syms' !! k = None ↔ cpp_syms !! k = None.
Proof.
  unfold resolve_alias. destruct (cpp_syms !! key) as [s|] eqn:Hs; [|by intros [= <-]].
  destruct (negb _); [by intros [= <-]|].
  destruct (cpp_syms !! default _ _) as [other|]; [|done].
  intros [= <-]. destruct (decide (key = k)) as [<-|Hne].
  - rewrite lookup_insert_eq, Hs. done.
  - by rewrite lookup_insert_ne.
Qed.

Lemma resolve_alias_alias cpp_syms key cpp_syms' k target :
  resolve_alias cpp_syms key = Ok cpp_syms' →
  alias_of cpp_syms k target → alias_of cpp_syms' k target.
Proof.
  unfold resolve_alias. destruct (cpp_syms !! key) as [s|] eqn:Hs; [|by intros [= <-]].
  destruct (negb _); [by intros [= <-]|].
  destruct (cpp_syms !! default _ _) as [other|]; [|done].
  intros [= <-] (s' & Hk & Ha & Hne). destruct (decide (key = k)) as [<-|Hkey].
  - eexists. rewrite lookup_insert_eq. split; [done|]. simpl.
    rewrite Hs in Hk. by injection Hk as ->.
  - exists s'. by rewrite lookup_insert_ne.
Qed.

(** A record whose alias target is missing stops the pass, wherever its
    reference stands in the list. *)
Lemma resolve_aliases_dangling keys cpp_syms key target :
  key ∈ keys → alias_of cpp_syms key target → cpp_syms !! target = None →
  ∃ missing, resolve_aliases keys cpp_syms = Raise (KeyError missing).
Proof.
  revert cpp_syms. induction keys as [|k keys IH]; intros cpp_syms Hin Ha Hnone.
  { by apply elem_of_nil in Hin. }
  simpl. destruct (resolve_alias cpp_syms k) as [cpp_syms'|e] eqn:Hstep; simpl.
  - apply elem_of_cons in Hin as [->|Hin].
    + destruct Ha as (s & Hs & Hal & Hne). unfold resolve_alias in Hstep.
      rewrite Hs, Hal, (truthy_Some _ Hne) in Hstep. simpl in Hstep.
      by rewrite Hnone in Hstep.
    + apply IH; [done|by eapply resolve_alias_alias|].
      by apply (resolve_alias_dom _ _ _ _ Hstep).
  - unfold resolve_alias in Hstep.
    destruct (cpp_syms !! k) as [s|]; [|done].
    destruct (negb _); [done|].
    destruct (cpp_syms !! default _ _) as [other|]; [done|].
    injection Hstep as <-. by eexists.
Qed.

(** C8: in the alias pass, a record with a non-empty alias whose target is
    not in the C++ table raises the lookup error, and so does the whole pass
    when such a record is among those it goes through; when the target is
    there, the record gets the composite type and the link of the target,
    and keeps its other fields. *)
Theorem resolve_alias_target
    (cpp_syms : gmap string sym) (key target : string) (s : sym)
    (keys : list string) :
  cpp_syms !! key = Some s →
  alias s = Some target →
  target ≠ EmptyString →
  (cpp_syms !! target = None →
     resolve_alias cpp_syms key = Raise (KeyError target)
     ∧ (key ∈ keys →
        ∃ missing, resolve_aliases keys cpp_syms = Raise (KeyError missing)))
  ∧ (∀ other, cpp_syms !! target = Some other →
       resolve_alias cpp_syms key
       = Ok (<[key := Sym (name s) (type s +:+ "(" +:+ type other +:+ ")")
                          (alias s) (link other) (header s)]> cpp_syms)).
Proof.
  intros Hs Ha Hne. split.
  - intros Hnone. split.
    + unfold resolve_alias. rewrite Hs, Ha, (truthy_Some _ Hne). simpl.
      by rewrite Hnone.
    + intros Hin. apply (resolve_aliases_dangling keys cpp_syms key target); [done| |done].
      by exists s.
  - intros other Ho. unfold resolve_alias.
    rewrite Hs, Ha, (truthy_Some _ Hne). simpl. by rewrite Ho.
Qed.

Lemma resolve_alias_target_witness :
  let seconds := Sym "std::chrono::seconds" "typedef"
                     (Some "std::chrono::duration") None None in
  let duration := Sym "std::chrono::duration" "class" None
                      (Some "cpp/chrono/duration") None in
  let cpp_syms : gmap string sym :=
    {[ "std::chrono::seconds" := seconds; "std::chrono::duration" := duration ]} in
  resolve_alias cpp_syms "std::chrono::seconds"
  = Ok (<["std::chrono::seconds" :=
            Sym "std::chrono::seconds" "typedef(class)"
                (Some "std::chrono::duration") (Some "cpp/chrono/duration") None]>
          cpp_syms).
Proof.
  intros seconds duration cpp_syms.
  refine (proj2 (resolve_alias_target cpp_syms "std::chrono::seconds"
                   "std::chrono::duration" seconds [] _ _ _) duration _);
    [reflexivity|reflexivity|discriminate|reflexivity].
Defined.

(** * The shadow table *)

Lemma elem_of_shadow_set (hdrs : gset string) (x : string) :
  x ∈ shadow_set hdrs ↔ ∃ hdr, hdr ∈ hdrs ∧ x = shadows_get hdr.
Proof.
  unfold shadow_set. rewrite elem_of_map. split.
  - intros (hdr & -> & Hin). by exists hdr.
  - intros (hdr & Hin & ->). by exists hdr.
Qed.

Lemma shadow_set_nonempty (hdrs : gset string) : hdrs ≠ ∅ → shadow_set hdrs ≠ ∅.
Proof.
  intros [hdr Hhdr]%set_choose_L Hempty.
  assert (shadows_get hdr ∈ shadow_set hdrs) as Hin.
  { apply elem_of_shadow_set. by exists hdr. }
  rewrite Hempty in Hin. by apply not_elem_of_empty in Hin.
Qed.

Lemma shadows_get_other (hdr : string) : hdr ∉ shadows_keys → shadows_get hdr = hdr.
Proof.
  unfold shadows_keys, shadows_get. intros Hn%not_elem_of_dom. by rewrite Hn.
Qed.

Lemma shadowed_nonempty (hdrs : gset string) : hdrs ∩ shadows_keys ≠ ∅ → hdrs ≠ ∅.
Proof. intros Hk ->. apply Hk. apply (left_absorb_L _ _). Qed.

(** * filter_syms *)

Lemma startswith_app p r : startswith p (p +:+ r) = true.
Proof.
  unfold startswith. induction p as [|a p IH]; [by destruct r|].
  change (String.prefix (String a p) (String a (p +:+ r)) = true). simpl.
  by destruct (Ascii.ascii_dec a a).
Qed.

Lemma string_drop_app p r : string_drop (String.length p) (p +:+ r) = r.
Proof. induction p as [|a p IH]; [done|]. exact IH. Qed.

Lemma c_shadowed_Some c_syms key hdrs :
  c_shadowed c_syms key = Ok (Some hdrs) → hdrs ∩ shadows_keys ≠ ∅.
Proof.
  unfold c_shadowed. destruct c_syms as [syms|syms].
  - by destruct (syms !! key).
  - destruct (syms !! key) as [[h|]|]; [|done..].
    case_bool_decide; [|done]. by intros [= <-].
Qed.

Lemma c_shadowed_filtered (c_index : gmap string value) key :
  (∀ k v, c_index !! k = Some v → ∃ hdrs, v = Hdrs hdrs) →
  c_shadowed (Filtered c_index) key
  = Ok (match c_index !! key with
        | Some (Hdrs hdrs) =>
            if bool_decide (hdrs ∩ shadows_keys ≠ ∅) then Some hdrs else None
        | _ => None
        end).
Proof.
  intros Hall. simpl. destruct (c_index !! key) as [[h|n]|] eqn:Hk; [done| |done].
  by destruct (Hall _ _ Hk).
Qed.

Lemma man_shadowed_Some man_syms key hdrs :
  man_shadowed man_syms key = Some hdrs →
  man_syms !! key = Some hdrs ∧ hdrs ∩ shadows_keys ≠ ∅.
Proof.
  unfold man_shadowed. destruct (man_syms !! key) as [h|]; [|done].
  case_bool_decide; [|done]. by intros [= <-].
Qed.

(** What [filter_sym] yields is an entry for the name of the item, with a
    non-empty set of headers. *)
Lemma filter_sym_yield c_syms man_syms lang (item : string * sym) k v d :
  filter_sym c_syms man_syms lang item = Ok (Some (k, v), d) →
  k = item.1 ∧ ∃ hdrs, v = Hdrs hdrs ∧ hdrs ≠ ∅.
Proof.
  destruct item as [name s]. unfold filter_sym.
  destruct (truthy (header s)).
  { intros ?; simplify_eq. split; [done|]. eexists. split; [done|].
    apply non_empty_singleton_L. }
  destruct (startswith "std::" name); simpl; [|done].
  destruct (c_shadowed _ _) as [[c_hdrs|]|] eqn:Hc; simpl; [| |done].
  - intros ?; simplify_eq. split; [done|]. eexists. split; [done|].
    by apply shadow_set_nonempty, shadowed_nonempty, (c_shadowed_Some _ _ _ Hc).
  - destruct (man_shadowed _ _) as [man_hdrs|] eqn:Hm; [|done].
    intros ?; simplify_eq. split; [done|]. eexists. split; [done|].
    apply man_shadowed_Some in Hm as [_ Hm].
    by apply shadow_set_nonempty, shadowed_nonempty.
Qed.

Lemma filter_syms_hdrs c_syms man_syms lang items acc index err :
  filter_syms c_syms man_syms lang items acc = Ok (index, err) →
  all_hdrs acc.1 → all_hdrs index.
Proof.
  revert acc. induction items as [|item items IH]; intros acc; simpl.
  { by intros [= ->]. }
  destruct (filter_sym c_syms man_syms lang item) as [[y d]|e] eqn:Hstep; [|done].
  simpl. intros Hrest Hacc. apply (IH _ Hrest). simpl.
  destruct y as [[k v]|]; [|done].
  apply filter_sym_yield in Hstep as [_ Hv].
  intros k' v'. destruct (decide (k = k')) as [<-|Hne].
  - rewrite lookup_insert_eq. by intros [= <-].
  - rewrite lookup_insert_ne by done. apply Hacc.
Qed.

(** Items with other names leave the entry of a name as it is. *)
Lemma filter_syms_other c_syms man_syms lang items acc index err name :
  filter_syms c_syms man_syms lang items acc = Ok (index, err) →
  name ∉ items.*1 → index !! name = acc.1 !! name.
Proof.
  revert acc. induction items as [|item items IH]; intros acc; simpl.
  { by intros [= ->]. }
  destruct (filter_sym c_syms man_syms lang item) as [[y d]|e] eqn:Hstep; [|done].
  simpl. intros Hrest Hnin. apply not_elem_of_cons in Hnin as [Hne Hnin].
  rewrite (IH _ Hrest Hnin). simpl.
  destruct y as [[k v]|]; [|done].
  apply filter_sym_yield in Hstep as [-> _]. by rewrite lookup_insert_ne.
Qed.

Lemma filter_syms_printed c_syms man_syms lang items acc index err :
  filter_syms c_syms man_syms lang items acc = Ok (index, err) →
  ∃ printed, err = acc.2 ++ printed.
Proof.
  revert acc. induction items as [|item items IH]; intros acc; simpl.
  { intros [= ->]. exists []. by rewrite app_nil_r. }
  destruct (filter_sym c_syms man_syms lang item) as [[y d]|e] eqn:Hstep; [|done].
  simpl. intros [printed ->]%IH. simpl. exists (d ++ printed). by rewrite app_assoc.
Qed.

(** The entry and the messages of an item of the list, when the names of the
    list are distinct. *)
Lemma filter_syms_item c_syms man_syms lang items acc index err item y d :
  filter_syms c_syms man_syms lang items acc = Ok (index, err) →
  NoDup items.*1 → item ∈ items →
  filter_sym c_syms man_syms lang item = Ok (y, d) →
  index !! item.1 = match y with
                    | Some kv => Some kv.2
                    | None => acc.1 !! item.1
                    end
  ∧ ∃ before after, err = acc.2 ++ before ++ d ++ after.
Proof.
  revert acc. induction items as [|item' items IH]; intros acc Hrun Hnd Hin Hitem.
  { by apply elem_of_nil in Hin. }
  simpl in Hrun, Hnd. apply NoDup_cons in Hnd as [Hnin Hnd].
  destruct (filter_sym c_syms man_syms lang item') as [[y' d']|e] eqn:Hstep; [|done].
  simpl in Hrun. apply elem_of_cons in Hin as [->|Hin].
  - rewrite Hstep in Hitem. injection Hitem as -> ->.
    rewrite (filter_syms_other _ _ _ _ _ _ _ _ Hrun Hnin). simpl. split.
    + destruct y as [[k v]|]; [|done].
      apply filter_sym_yield in Hstep as [-> _]. by rewrite lookup_insert_eq.
    + apply filter_syms_printed in Hrun as [printed ->]. simpl.
      exists [], printed. by rewrite <- app_assoc.
  - destruct (IH _ Hrun Hnd Hin Hitem) as [Hlook (before & after & ->)]. simpl in *.
    split.
    + rewrite Hlook. destruct y as [kv|]; [done|].
      destruct y' as [[k v]|]; [|done].
      apply filter_sym_yield in Hstep as [-> _]. rewrite lookup_insert_ne; [done|].
      intros Heq. apply Hnin. rewrite Heq. by apply list_elem_of_fmap_2.
    + exists (d' ++ before), after. by rewrite <- !app_assoc.
Qed.

(** The C++ pass raises nothing: the C index holds sets only. *)
Lemma filter_syms_cpp_total (c_index : gmap string value) man_syms lang items acc :
  (∀ k v, c_index !! k = Some v → ∃ hdrs, v = Hdrs hdrs) →
  ∃ index err, filter_syms (Filtered c_index) man_syms lang items acc = Ok (index, err).
Proof.
  intros Hall. revert acc. induction items as [|item items IH]; intros acc; simpl.
  { destruct acc. by eexists _, _. }
  assert (∃ r, filter_sym (Filtered c_index) man_syms lang item = Ok r) as [r ->].
  { destruct item as [name s]. unfold filter_sym. destruct (truthy _); [by eexists|].
    destruct (startswith "std::" name).
    - rewrite (c_shadowed_filtered _ _ Hall). simpl.
      destruct (c_index !! _) as [[h|]|]; [case_bool_decide|..]; simpl;
        try (by eexists); destruct (man_shadowed _ _); by eexists.
    - by eexists. }
  simpl. apply IH.
Qed.

(** ** Salvage *)

Lemma salvage_test_spec table name hdrs :
  salvage_test table name = Some hdrs ↔ salvageable table name hdrs.
Proof.
  unfold salvage_test, salvageable. split.
  - destruct (startswith "std::" name) eqn:Hsw; [|done].
    destruct (table _) as [h|] eqn:Ht; [|done].
    case_bool_decide; [|done]. intros [= ->].
    exists (string_drop 5 name). split_and!; [|done..].
    by apply prefix_drop in Hsw.
  - intros (rest & -> & Ht & Hk). rewrite startswith_app.
    change 5%nat with (String.length "std::"). rewrite string_drop_app, Ht.
    by rewrite bool_decide_eq_true_2.
Qed.

Lemma filter_sym_cpp (c_index : gmap string value) man_syms lang name s :
  (∀ k v, c_index !! k = Some v → ∃ hdrs, v = Hdrs hdrs) →
  truthy (header s) = false →
  filter_sym (Filtered c_index) man_syms lang (name, s)
  = Ok (match salvage_test (hdrs_of c_index) name with
        | Some hdrs =>
            (Some (name, Hdrs (shadow_set hdrs)),
             [SalvageFromC name (shadow_set hdrs)])
        | None =>
            match salvage_test (man_syms !!.) name with
            | Some hdrs =>
                (Some (name, Hdrs (shadow_set hdrs)),
                 [SalvageFromMan name (shadow_set hdrs)])
            | None => (None, [Discard lang name])
            end
        end).
Proof.
  intros Hall Hh. unfold filter_sym, salvage_test, man_shadowed, hdrs_of.
  rewrite Hh. destruct (startswith "std::" name); [|done].
  rewrite (c_shadowed_filtered _ _ Hall). simpl.
  destruct (c_index !! _) as [[h|]|]; [case_bool_decide|..]; simpl; try done;
    destruct (man_syms !! _) as [h'|]; try done; by case_bool_decide.
Qed.

(** C4: in the C++ pass, a symbol without a resolved header whose name is
    [std::] followed by a name of the filtered C index, with headers that
    meet the legacy headers of the shadow table, is kept with these headers
    mapped through the shadow table ([math.h] becomes [cmath], a header
    outside the table is kept as it is) and the salvage is printed; failing
    that, the man symbols are tried the same way; a symbol that neither
    salvages is left out of the index and the discard is printed. *)
Theorem filter_syms_salvage
    (c_index : gmap string value) (man_syms : gmap string (gset string))
    (items : list (string * sym)) (err : list diag) (name : string) (s : sym) :
  (∀ k v, c_index !! k = Some v → ∃ hdrs, v = Hdrs hdrs) →
  NoDup items.*1 →
  (name, s) ∈ items →
  truthy (header s) = false →
  ∃ cpp_index printed,
    filter_syms (Filtered c_index) man_syms "C++" items (∅, err)
    = Ok (cpp_index, err ++ printed)
    ∧ (∀ hdrs, salvageable (hdrs_of c_index) name hdrs →
         cpp_index !! name = Some (Hdrs (shadow_set hdrs))
         ∧ SalvageFromC name (shadow_set hdrs) ∈ printed)
    ∧ (∀ hdrs, (∀ h, ¬ salvageable (hdrs_of c_index) name h) →
         salvageable (man_syms !!.) name hdrs →
         cpp_index !! name = Some (Hdrs (shadow_set hdrs))
         ∧ SalvageFromMan name (shadow_set hdrs) ∈ printed)
    ∧ ((∀ h, ¬ salvageable (hdrs_of c_index) name h) →
       (∀ h, ¬ salvageable (man_syms !!.) name h) →
         cpp_index !! name = None ∧ Discard "C++" name ∈ printed)
    ∧ (∀ hdrs x, x ∈ shadow_set hdrs ↔ ∃ hdr, hdr ∈ hdrs ∧ x = shadows_get hdr)
    ∧ shadows_get "math.h" = "cmath"
    ∧ (∀ hdr, hdr ∉ shadows_keys → shadows_get hdr = hdr).
Proof.
  intros Hall Hnd Hin Hh.
  destruct (filter_syms_cpp_total c_index man_syms "C++" items (∅, err) Hall)
    as (cpp_index & err' & Hrun).
  destruct (filter_syms_printed _ _ _ _ _ _ _ Hrun) as [printed ->]. simpl in Hrun.
  exists cpp_index, printed. split; [done|].
  pose proof (filter_sym_cpp c_index man_syms "C++" name s Hall Hh) as Hitem.
  destruct (salvage_test (hdrs_of c_index) name) as [hc|] eqn:Hc;
    [|destruct (salvage_test (man_syms !!.) name) as [hm|] eqn:Hm];
    destruct (filter_syms_item _ _ _ _ _ _ _ _ _ _ Hrun Hnd Hin Hitem)
      as [Hlook (before & after & Hprinted)];
    simpl in Hlook, Hprinted; apply app_inv_head in Hprinted; subst printed;
    (split_and!;
      [ intros hdrs Hs%salvage_test_spec
      | intros hdrs Hnc Hs%salvage_test_spec
      | intros Hnc Hnm
      | apply elem_of_shadow_set
      | reflexivity
      | apply shadows_get_other ]).
  - rewrite Hc in Hs. injection Hs as <-. split; [done|]. set_solver.
  - apply salvage_test_spec in Hc. by apply Hnc in Hc.
  - apply salvage_test_spec in Hc. by apply Hnc in Hc.
  - congruence.
  - rewrite Hm in Hs. injection Hs as <-. split; [done|]. set_solver.
  - apply salvage_test_spec in Hm. by apply Hnm in Hm.
  - congruence.
  - congruence.
  - split; [done|]. set_solver.
Qed.

Lemma filter_syms_salvage_witness :
  let c_index : gmap string value := {[ "log10" := Hdrs {["math.h"]} ]} in
  let s := Sym "std::log10" "function" None (Some "cpp/numeric/math/log10") None in
  ∃ cpp_index printed,
    filter_syms (Filtered c_index) ∅ "C++" [("std::log10", s)] (∅, [])
    = Ok (cpp_index, [] ++ printed)
    ∧ cpp_index !! "std::log10" = Some (Hdrs (shadow_set {["math.h"]}))
    ∧ SalvageFromC "std::log10" (shadow_set {["math.h"]}) ∈ printed
    ∧ shadow_set {["math.h"]} = {["cmath"]}.
Proof.
  intros c_index s.
  destruct (filter_syms_salvage c_index ∅ [("std::log10", s)] [] "std::log10" s)
    as (cpp_index & printed & Hrun & Hc & _).
  - intros k v [_ <-]%lookup_singleton_Some. by eexists.
  - apply (bool_decide_unpack _). vm_compute. exact I.
  - apply list_elem_of_here.
  - reflexivity.
  - exists cpp_index, printed. split; [exact Hrun|].
    destruct (Hc {["math.h"]}) as [Hlook Hprinted].
    + exists "log10". split_and!; [reflexivity|reflexivity|].
      apply (bool_decide_unpack _). vm_compute. exact I.
    + split_and!; [exact Hlook|exact Hprinted|].
      apply (bool_decide_unpack _). vm_compute. exact I.
Defined.

(** * The final indexes *)

(** [parse_man] never yields an empty set of headers. *)
Lemma parse_man_loop_nonempty re_include re_func path text includes :
  Forall yields_nonempty (parse_man_loop re_include re_func path text includes).
Proof.
  revert includes. induction text as [|line text IH]; intros includes; simpl; [done|].
  set (inc1 := if startswith ".B " line || startswith br_inc line
               then add_include re_include line includes else includes).
  set (inc2 := if startswith br_inc line
               then add_include re_include line inc1 else inc1).
  assert (Forall yields_nonempty
            (if contains "DESCRIPTION" line then []
             else parse_man_loop re_include re_func path text inc2)) as Hrest.
  { destruct (contains _ _); [done|apply IH]. }
  destruct (if startswith ".B" line then re_func line else None) as [func|]; [|done].
  case_bool_decide as Hempty.
  - constructor; [done|apply IH].
  - by constructor.
Qed.

Lemma man_step_nonempty st ev :
  yields_nonempty ev → man_nonempty st.1 → man_nonempty (man_step st ev).1.
Proof.
  destruct st as [m err], ev as [func includes|d]; simpl; [|done].
  intros Hinc Hm. destruct (m !! func) as [stored|] eqn:Hf.
  - by case_bool_decide.
  - simpl. intros k h. destruct (decide (func = k)) as [<-|Hne].
    + rewrite lookup_insert_eq. by intros [= <-].
    + rewrite lookup_insert_ne by done. apply Hm.
Qed.

Lemma man_steps_nonempty evs st :
  Forall yields_nonempty evs → man_nonempty st.1 →
  man_nonempty (foldl man_step st evs).1.
Proof.
  revert st. induction evs as [|ev evs IH]; intros st Hevs Hst; simpl; [done|].
  apply Forall_cons in Hevs as [Hev Hevs].
  apply IH; [done|]. by apply man_step_nonempty.
Qed.

Lemma load_mans_nonempty re_include re_func mans st :
  man_nonempty st.1 → man_nonempty (load_mans re_include re_func mans st).1.
Proof.
  unfold load_mans. revert st.
  induction mans as [|page mans IH]; intros st Hst; simpl; [done|].
  apply IH, man_steps_nonempty; [apply parse_man_loop_nonempty|done].
Qed.

Lemma all_hdrs_insert index name hdrs :
  hdrs ≠ ∅ → all_hdrs index → all_hdrs (<[name := Hdrs hdrs]> index).
Proof.
  intros Hne Hall k v. destruct (decide (name = k)) as [<-|Hk].
  - rewrite lookup_insert_eq. intros [= <-]. by eexists.
  - rewrite lookup_insert_ne by done. apply Hall.
Qed.

Lemma merge_man_hdrs st fact :
  fact.2 ≠ ∅ → all_hdrs st.1 → all_hdrs st.2 →
  all_hdrs (merge_man st fact).1 ∧ all_hdrs (merge_man st fact).2.
Proof.
  destruct st as [c cpp], fact as [name hdrs]. simpl. intros Hne Hc Hcpp. split.
  - case_bool_decide; [by apply all_hdrs_insert|done].
  - destruct (_ && _); [|done].
    apply all_hdrs_insert; [by apply shadow_set_nonempty|done].
Qed.

Lemma merge_mans_hdrs facts st :
  Forall (λ fact, fact.2 ≠ ∅) facts → all_hdrs st.1 → all_hdrs st.2 →
  all_hdrs (merge_mans facts st).1 ∧ all_hdrs (merge_mans facts st).2.
Proof.
  unfold merge_mans. revert st.
  induction facts as [|fact facts IH]; intros st Hfacts Hc Hcpp; simpl; [done|].
  apply Forall_cons in Hfacts as [Hfact Hfacts].
  destruct (merge_man_hdrs st fact) as [Hc' Hcpp']; [done..|]. by apply IH.
Qed.

Lemma decanonicalize_step_inv cpp_syms index err item :
  cpp_syms !! item.1 = Some item.2 →
  decanonicalized cpp_syms index →
  decanonicalized cpp_syms (decanonicalize_step (index, err) item).1.
Proof.
  destruct item as [name v]. simpl. intros Hitem [Hsub Hinv].
  destruct (short_name name) as [short|]; [|done].
  case_bool_decide as Hs; [done|]. simpl.
  apply eq_None_not_Some in Hs. split.
  - etrans; [done|]. by apply insert_subseteq.
  - intros k w. destruct (decide (short = k)) as [<-|Hk].
    + rewrite lookup_insert_eq. intros [= <-]. right. by exists name.
    + rewrite lookup_insert_ne by done. apply Hinv.
Qed.

Lemma decanonicalize_inv cpp_syms items st :
  Forall (λ item, cpp_syms !! item.1 = Some item.2) items →
  decanonicalized cpp_syms st.1 →
  decanonicalized cpp_syms (decanonicalize items st).1.
Proof.
  unfold decanonicalize. revert st.
  induction items as [|item items IH]; intros [index err] Hitems Hinv; simpl; [done|].
  apply Forall_cons in Hitems as [Hitem Hitems].
  apply IH; [done|]. by apply decanonicalize_step_inv.
Qed.

Lemma decanonicalized_resolves cpp_syms index :
  all_hdrs cpp_syms → decanonicalized cpp_syms index → resolves index.
Proof.
  intros Hall [Hsub Hinv] name v Hv.
  destruct (Hinv _ _ Hv) as [Hold|(target & -> & [w Hw])].
  - by destruct (Hall _ _ Hold) as (hdrs & -> & Hne).
  - destruct (Hall _ _ Hw) as (hdrs & -> & Hne). exists hdrs. split; [|done].
    by apply (lookup_weaken _ _ _ _ Hw).
Qed.

Lemma all_hdrs_resolves index : all_hdrs index → resolves index.
Proof. intros Hall name v Hv. by destruct (Hall _ _ Hv) as (hdrs & -> & Hne). Qed.

Lemma enumerates_lookup items V (m : gmap string V) :
  enumerates items → Forall (λ item, m !! item.1 = Some item.2) (items V m).
Proof.
  intros Hitems. apply Forall_forall. intros [k v] Hin.
  rewrite (Hitems V m) in Hin. by apply elem_of_map_to_list in Hin.
Qed.

(** C1: in each of the two indexes that [main] hands to the serializer,
    every name has a non-empty set of headers or redirects to a name of the
    same index that has a non-empty set of headers; so the target of a
    redirect is never a redirect. *)
Theorem final_indexes_resolve
    (re_include re_func : string → option string)
    (items : ∀ V, gmap string V → list (string * V))
    (mans : list (string * list string)) (c_syms cpp_syms : gmap string sym)
    (c_index cpp_index : gmap string value) (err : list diag) :
  enumerates items →
  build_indexes re_include re_func items mans c_syms cpp_syms
  = Ok (c_index, cpp_index, err) →
  resolves c_index
  ∧ resolves cpp_index
  ∧ (∀ name target, c_index !! name = Some (Canonical target) →
       ∃ hdrs, c_index !! target = Some (Hdrs hdrs))
  ∧ (∀ name target, cpp_index !! name = Some (Canonical target) →
       ∃ hdrs, cpp_index !! target = Some (Hdrs hdrs)).
Proof.
  intros Hitems. unfold build_indexes.
  pose proof (load_mans_nonempty re_include re_func mans (∅, [])) as Hman.
  destruct (load_mans re_include re_func mans (∅, [])) as [man_syms err0].
  simpl in Hman. specialize (Hman ltac:(by intros ? ? ?)).
  destruct (filter_syms (Catalog c_syms) _ _ _ _) as [[c1 err1]|] eqn:Hc; [|done].
  simpl.
  destruct (filter_syms (Filtered c1) _ _ _ _) as [[cpp1 err2]|] eqn:Hcpp; [|done].
  simpl.
  apply filter_syms_hdrs in Hc; [|by intros ? ? ?].
  apply filter_syms_hdrs in Hcpp; [|by intros ? ? ?].
  destruct (merge_mans_hdrs (items _ man_syms) (c1, cpp1)) as [Hc2 Hcpp2];
    [|exact Hc|exact Hcpp|].
  { eapply Forall_impl; [by apply enumerates_lookup|]. intros [k h]. apply Hman. }
  destruct (merge_mans _ _) as [c2 cpp2]. simpl in Hc2, Hcpp2.
  pose proof (decanonicalize_inv cpp2 (items _ cpp2) (cpp2, err2)
                (enumerates_lookup _ _ _ Hitems)) as Hdec.
  destruct (decanonicalize _ _) as [cpp3 err3]. simpl in Hdec.
  intros [= <- <- <-].
  assert (resolves cpp3) as Hres.
  { apply (decanonicalized_resolves cpp2); [done|]. apply Hdec.
    split; [done|]. intros name v Hv. by left. }
  assert (resolves c2) as Hres_c by by apply all_hdrs_resolves.
  split_and!; [done|done|..].
  - intros name target Hn. destruct (Hres_c _ _ Hn) as (hdrs & ? & _). by exists hdrs.
  - intros name target Hn. destruct (Hres _ _ Hn) as (hdrs & ? & _). by exists hdrs.
Qed.

Lemma example_run :
  build_indexes Example.re_include Example.re_func Example.items
    Example.mans Example.c_syms Example.cpp_syms
  = Ok (Example.c_index, Example.cpp_index, Example.err).
Proof. vm_compute. reflexivity. Qed.

Lemma final_indexes_resolve_witness :
  resolves Example.c_index
  ∧ resolves Example.cpp_index
  ∧ (∀ name target, Example.c_index !! name = Some (Canonical target) →
       ∃ hdrs, Example.c_index !! target = Some (Hdrs hdrs))
  ∧ (∀ name target, Example.cpp_index !! name = Some (Canonical target) →
       ∃ hdrs, Example.cpp_index !! target = Some (Hdrs hdrs)).
Proof.
  apply (final_indexes_resolve Example.re_include Example.re_func Example.items
           Example.mans Example.c_syms Example.cpp_syms
           Example.c_index Example.cpp_index Example.err).
  - intros V m. reflexivity.
  - exact example_run.
Defined.

(** The index depends on the order in which the decanonicalizer is given the
    names: of two names with the same short name, the first one gets the
    redirect. *)
Lemma decanonicalize_order_matters :
  let cpp_syms : gmap string value :=
    {[ "a::x" := Hdrs {["a"]}; "b::x" := Hdrs {["b"]} ]} in
  (decanonicalize [("a::x", Hdrs {["a"]}); ("b::x", Hdrs {["b"]})] (cpp_syms, [])).1
    !! "x" = Some (Canonical "a::x")
  ∧ (decanonicalize [("b::x", Hdrs {["b"]}); ("a::x", Hdrs {["a"]})] (cpp_syms, [])).1
    !! "x" = Some (Canonical "b::x").
Proof. split; vm_compute; reflexivity. Qed.

(** * Further properties of the serializer *)

Lemma node_tree_size fuel syms (s e : nat) t :
  (s ≤ e)%nat →
  node_tree fuel syms (Z.of_nat s) (Z.of_nat e) = Ok t →
  nodes t = (e - s)%nat ∧ balanced t.
Proof.
  revert s e t. induction fuel as [|fuel IH]; intros s e t Hse; simpl; [done|].
  case_bool_decide as Heq.
  { apply Nat2Z.inj in Heq as ->. intros [= <-]. by rewrite Nat.sub_diag. }
  assert (s < e)%nat as Hlt by lia.
  rewrite pivot_nat by lia.
  set (p := (s + (e - s) / 2)%nat).
  destruct (half_bounds (e - s)) as [Hh1 Hh2]; [lia|].
  destruct (py_index syms _) as [x|]; simpl; [|done].
  destruct (node_tree fuel syms _ (Z.of_nat p)) as [l|] eqn:Hl; simpl; [|done].
  replace (Z.of_nat p + 1) with (Z.of_nat (S p)) by lia.
  destruct (node_tree fuel syms (Z.of_nat (S p)) _) as [r|] eqn:Hr; simpl; [|done].
  intros [= <-]. simpl.
  apply IH in Hl as [Hsl Hbl]; [|subst p; lia].
  apply IH in Hr as [Hsr Hbr]; [|subst p; lia].
  rewrite Hsl, Hsr. subst p. split_and!; [lia|lia| |done..].
  pose proof (Nat.div_mod_eq (e - s) 2) as Hdm.
  pose proof (Nat.mod_upper_bound (e - s) 2). lia.
Qed.

Lemma name_lt_asym (a b : string) : name_lt a b → name_lt b a → False.
Proof.
  unfold name_lt, String.ltb. rewrite (String.compare_antisym b a).
  by destruct (String.compare a b).
Qed.

Lemma name_lt_irrefl (a : string) : ¬ name_lt a a.
Proof. intros H. exact (name_lt_asym a a H H). Qed.

(** A list of entries is fixed by its entries, once its names increase. *)
Lemma strict_sorted_perm_eq {V} (l1 l2 : list (string * V)) :
  StronglySorted name_lt l1.*1 → StronglySorted name_lt l2.*1 →
  l1 ≡ₚ l2 → l1 = l2.
Proof.
  revert l2. induction l1 as [|x l1 IH]; intros l2 Hs1 Hs2 Hp.
  { by apply Permutation_nil_l in Hp. }
  destruct l2 as [|y l2]; [by apply Permutation_nil_r in Hp|].
  simpl in Hs1, Hs2.
  apply StronglySorted_cons in Hs1 as [Hx1 Hs1].
  apply StronglySorted_cons in Hs2 as [Hy2 Hs2].
  assert (x = y) as <-.
  { assert (x ∈ y :: l2) as Hx by (rewrite <- Hp; left).
    assert (y ∈ x :: l1) as Hy by (rewrite Hp; left).
    apply elem_of_cons in Hx as [?|Hx]; [done|].
    apply elem_of_cons in Hy as [?|Hy]; [done|].
    rewrite Forall_forall in Hx1, Hy2.
    destruct (name_lt_asym x.1 y.1).
    - apply Hx1. by apply list_elem_of_fmap_2.
    - apply Hy2. by apply list_elem_of_fmap_2. }
  f_equal. apply IH; [done..|]. by apply Permutation_cons_inv in Hp.
Qed.

Lemma sort_by_name_perm_eq {V} (l1 l2 : list (string * V)) :
  NoDup l1.*1 → l1 ≡ₚ l2 → sort_by_name l1 = sort_by_name l2.
Proof.
  intros Hnd Hp. apply strict_sorted_perm_eq.
  - apply sorted_nodup_strict; [apply sort_by_name_sorted|].
    by rewrite sort_by_name_perm.
  - apply sorted_nodup_strict; [apply sort_by_name_sorted|].
    by rewrite sort_by_name_perm, <- Hp.
  - by rewrite !sort_by_name_perm.
Qed.

(** X2: when the names are distinct, what [make_happy_tree] writes does not
    depend on the order in which it is given the entries. *)
Theorem make_happy_tree_order_independent
    (set_iter : gset string → list string) (out : string)
    (syms syms' : list (string * value)) :
  NoDup syms.*1 →
  syms ≡ₚ syms' →
  make_happy_tree set_iter out syms = make_happy_tree set_iter out syms'.
Proof.
  intros Hnd Hp. unfold make_happy_tree.
  by rewrite (sort_by_name_perm_eq syms syms' Hnd Hp).
Qed.

Lemma make_happy_tree_order_independent_witness :
  make_happy_tree elements ""
    [("log", Canonical "std::log"); ("abs", Hdrs {["stdlib.h"]})]
  = make_happy_tree elements ""
      [("abs", Hdrs {["stdlib.h"]}); ("log", Canonical "std::log")].
Proof.
  apply (make_happy_tree_order_independent elements ""
           [("log", Canonical "std::log"); ("abs", Hdrs {["stdlib.h"]})]
           [("abs", Hdrs {["stdlib.h"]}); ("log", Canonical "std::log")]).
  - apply (bool_decide_unpack _). vm_compute. exact I.
  - apply Permutation_swap.
Defined.

(** * Further properties of the man pages *)

Lemma parse_man_loop_stop re_include re_func path pre line post includes :
  contains "DESCRIPTION" line = true →
  (if startswith ".B" line then re_func line else None) = None →
  parse_man_loop re_include re_func path (pre ++ line :: post) includes
  = parse_man_loop re_include re_func path (pre ++ [line]) includes.
Proof.
  intros Hd Hf. revert includes.
  induction pre as [|l pre IH]; intros includes; simpl.
  - by rewrite Hd, Hf.
  - by rewrite !IH.
Qed.

(** X3: [parse_man] reads nothing after a line that contains [DESCRIPTION],
    when that line declares no function; but a [DESCRIPTION] line that
    declares a function before any header was seen is passed over with the
    message, and the scan goes on after it. *)
Theorem parse_man_description
    (re_include re_func : string → option string)
    (path line : string) (pre post : list string) :
  contains "DESCRIPTION" line = true →
  ((if startswith ".B" line then re_func line else None) = None →
   parse_man re_include re_func path (pre ++ line :: post)
   = parse_man re_include re_func path (pre ++ [line]))
  ∧ (∀ func, startswith ".B" line = true → re_func line = Some func →
       re_include line = None →
       parse_man re_include re_func path (line :: post)
       = Print (NoIncludes func path) :: parse_man re_include re_func path post).
Proof.
  intros Hd. split.
  - intros Hf. by apply parse_man_loop_stop.
  - intros func Hb Hf Hi. unfold parse_man. simpl.
    unfold add_include. rewrite Hb, Hf, Hi.
    by destruct (_ || _), (startswith br_inc line).
Qed.

Lemma parse_man_description_witness :
  parse_man Example.re_include Example.re_func "p"
    ([".B #include <math.h>"] ++ ".SH DESCRIPTION" :: [".BI double log10(double x);"])
  = parse_man Example.re_include Example.re_func "p"
      ([".B #include <math.h>"] ++ [".SH DESCRIPTION"]).
Proof.
  refine (proj1 (parse_man_description Example.re_include Example.re_func "p"
                   ".SH DESCRIPTION" [".B #include <math.h>"]
                   [".BI double log10(double x);"] _) _); reflexivity.
Defined.

Lemma parse_man_loop_grows re_include re_func path text includes :
  Forall (includes ⊆.) (yield_sets (parse_man_loop re_include re_func path text includes))
  ∧ StronglySorted (⊆) (yield_sets (parse_man_loop re_include re_func path text includes)).
Proof.
  revert includes. induction text as [|line text IH]; intros includes; simpl.
  { split; constructor. }
  set (inc1 := if startswith ".B " line || startswith br_inc line
               then add_include re_include line includes else includes).
  set (inc2 := if startswith br_inc line
               then add_include re_include line inc1 else inc1).
  assert (includes ⊆ inc2) as Hsub.
  { subst inc1 inc2. unfold add_include.
    repeat (destruct (startswith _ _); simpl); destruct (re_include line); set_solver. }
  destruct (IH inc2) as [Hall Hsorted].
  assert (Forall (includes ⊆.) (yield_sets (parse_man_loop re_include re_func path text inc2)))
    as Hall'.
  { eapply Forall_impl; [exact Hall|]. intros inc Hinc. by etrans. }
  assert (∀ rest, rest = [] ∨ rest = parse_man_loop re_include re_func path text inc2 →
            Forall (inc2 ⊆.) (yield_sets rest) ∧ Forall (includes ⊆.) (yield_sets rest)
            ∧ StronglySorted (⊆) (yield_sets rest)) as Hrest.
  { intros rest [->| ->]; [by repeat constructor|done]. }
  destruct (Hrest (if contains "DESCRIPTION" line then []
                   else parse_man_loop re_include re_func path text inc2))
    as (Hr2 & Hr & Hrs); [by destruct (contains _ _); auto|].
  destruct (if startswith ".B" line then re_func line else None) as [func|]; [|done].
  case_bool_decide; simpl; [done|].
  split; constructor; done.
Qed.

(** X4: along a page the sets of headers that [parse_man] yields only grow:
    each one is included in those yielded after it. *)
Theorem parse_man_yields_grow
    (re_include re_func : string → option string)
    (path : string) (text : list string) :
  StronglySorted (⊆) (yield_sets (parse_man re_include re_func path text)).
Proof. apply parse_man_loop_grows. Qed.

Lemma parse_man_loop_from_lines re_include re_func path text includes :
  Forall (λ inc : gset string, ∀ hdr, hdr ∈ inc →
            hdr ∈ includes
            ∨ ∃ line, line ∈ text ∧ include_line line = true
                      ∧ re_include line = Some hdr)
    (yield_sets (parse_man_loop re_include re_func path text includes)).
Proof.
  revert includes. induction text as [|line text IH]; intros includes; simpl; [done|].
  set (inc1 := if startswith ".B " line || startswith br_inc line
               then add_include re_include line includes else includes).
  set (inc2 := if startswith br_inc line
               then add_include re_include line inc1 else inc1).
  assert (∀ hdr, hdr ∈ inc2 →
            hdr ∈ includes
            ∨ ∃ l, l ∈ line :: text ∧ include_line l = true ∧ re_include l = Some hdr)
    as Hinc2.
  { intros hdr Hin. destruct (include_line line) eqn:Hil.
    - destruct (re_include line) as [h|] eqn:Hre.
      + assert (hdr = h ∨ hdr ∈ includes) as [->|?]; [|right|by left].
        { subst inc1 inc2. unfold add_include in Hin. rewrite Hre in Hin.
          destruct (startswith ".B " line), (startswith br_inc line);
            simpl in Hin; rewrite ?elem_of_union, ?elem_of_singleton in Hin;
            tauto. }
        exists line. split_and!; [by left|done..].
      + left. subst inc1 inc2. unfold add_include in Hin. rewrite Hre in Hin.
        by destruct (startswith ".B " line), (startswith br_inc line).
    - left. unfold include_line in Hil. apply orb_false_iff in Hil as [H1 H2].
      subst inc1 inc2. by rewrite H1, H2 in Hin. }
  assert (Forall (λ inc : gset string, ∀ hdr, hdr ∈ inc →
            hdr ∈ includes
            ∨ ∃ l, l ∈ line :: text ∧ include_line l = true ∧ re_include l = Some hdr)
            (yield_sets (parse_man_loop re_include re_func path text inc2))) as Hrec.
  { eapply Forall_impl; [apply IH|]. intros inc Hinc hdr Hhdr.
    destruct (Hinc hdr Hhdr) as [Hin|(l & Hl & ?)].
    - by apply Hinc2.
    - right. exists l. split; [by right|done]. }
  assert (Forall (λ inc : gset string, ∀ hdr, hdr ∈ inc →
            hdr ∈ includes
            ∨ ∃ l, l ∈ line :: text ∧ include_line l = true ∧ re_include l = Some hdr)
            (yield_sets (if contains "DESCRIPTION" line then []
                         else parse_man_loop re_include re_func path text inc2))) as Hrest.
  { by destruct (contains _ _). }
  destruct (if startswith ".B" line then re_func line else None) as [func|]; [|done].
  case_bool_decide; simpl; [done|]. by constructor.
Qed.

(** X5: every header of a set that [parse_man] yields was found by the
    include pattern on a line of the page that starts with [.B ] or with
    the [.BR] prefix [br_inc]; a page without such a match yields nothing. *)
Theorem parse_man_headers_from_lines
    (re_include re_func : string → option string)
    (path : string) (text : list string) :
  Forall (λ inc : gset string, ∀ hdr, hdr ∈ inc →
            ∃ line, line ∈ text ∧ include_line line = true
                    ∧ re_include line = Some hdr)
    (yield_sets (parse_man re_include re_func path text))
  ∧ ((∀ line, line ∈ text → include_line line = true → re_include line = None) →
     yield_sets (parse_man re_include re_func path text) = []).
Proof.
  assert (Forall (λ inc : gset string, ∀ hdr, hdr ∈ inc →
            ∃ line, line ∈ text ∧ include_line line = true
                    ∧ re_include line = Some hdr)
            (yield_sets (parse_man re_include re_func path text))) as Hfrom.
  { eapply Forall_impl; [apply parse_man_loop_from_lines|].
    intros inc Hinc hdr Hhdr. destruct (Hinc hdr Hhdr) as [Hin|?]; [|done].
    by apply not_elem_of_empty in Hin. }
  split; [done|]. intros Hnone.
  pose proof (parse_man_loop_nonempty re_include re_func path text ∅) as Hne.
  fold (parse_man re_include re_func path text) in Hne.
  destruct (parse_man re_include re_func path text) as [|ev evs] eqn:Hevs; [done|].
  clear Hevs. induction (ev :: evs) as [|[func inc|d] l IH]; [done| |].
  - exfalso. simpl in Hfrom. apply Forall_cons in Hfrom as [Hinc _].
    apply Forall_cons in Hne as [Hne _]. simpl in Hne.
    apply set_choose_L in Hne as [hdr Hhdr].
    destruct (Hinc hdr Hhdr) as (line & Hl & Hil & Hre).
    by rewrite (Hnone line Hl Hil) in Hre.
  - simpl in *. apply Forall_cons in Hne as [_ Hne]. by apply IH.
Qed.

Lemma load_mans_events re_include re_func mans st :
  load_mans re_include re_func mans st
  = foldl man_step st (page_events re_include re_func mans).
Proof.
  unfold load_mans, page_events. revert st.
  induction mans as [|page mans IH]; intros st; simpl; [done|].
  by rewrite foldl_app, IH.
Qed.

Lemma man_steps_first_yield evs (st : gmap string (gset string) * list diag) func :
  (foldl man_step st evs).1 !! func
  = match st.1 !! func with
    | Some stored => Some stored
    | None => first_yield func evs
    end.
Proof.
  revert st. induction evs as [|ev evs IH]; intros [m err]; simpl.
  { by destruct (m !! func). }
  rewrite IH. destruct ev as [g inc|d]; simpl; [|done].
  destruct (m !! g) as [stored|] eqn:Hg.
  - assert ((if bool_decide (inc ≠ stored)
             then (m, err ++ [ManConflict g stored inc]) else (m, err)).1 = m) as ->
      by by case_bool_decide.
    destruct (m !! func) eqn:Hf; [done|].
    case_decide as Heq; [|done]. subst g. congruence.
  - simpl. case_decide as Heq.
    + subst g. by rewrite lookup_insert_eq, Hg.
    + by rewrite lookup_insert_ne.
Qed.

(** X6: the table of man symbols that the loading loop builds maps each
    function to the set of headers of its first yield, over all the pages in
    the order they are read, and holds nothing else. *)
Theorem load_mans_first_yield
    (re_include re_func : string → option string)
    (mans : list (string * list string)) (func : string) :
  (load_mans re_include re_func mans (∅, [])).1 !! func
  = first_yield func (page_events re_include re_func mans).
Proof. rewrite load_mans_events, man_steps_first_yield. simpl. by rewrite lookup_empty. Qed.

(** * Further properties of the alias pass *)

Lemma resolve_alias_cases cpp_syms key :
  (resolve_alias cpp_syms key = Ok cpp_syms
   ∧ ∀ target, ¬ alias_of cpp_syms key target)
  ∨ (∃ s target other,
       cpp_syms !! key = Some s ∧ alias s = Some target ∧ target ≠ EmptyString
       ∧ cpp_syms !! target = Some other
       ∧ resolve_alias cpp_syms key
         = Ok (<[key := Sym (name s) (type s +:+ "(" +:+ type other +:+ ")")
                            (alias s) (link other) (header s)]> cpp_syms))
  ∨ (∃ target, alias_of cpp_syms key target ∧ cpp_syms !! target = None
               ∧ resolve_alias cpp_syms key = Raise (KeyError target)).
Proof.
  unfold resolve_alias, alias_of.
  destruct (cpp_syms !! key) as [s|] eqn:Hs.
  2:{ left. split; [done|]. by intros target (s & ? & _). }
  destruct (alias s) as [[|c target]|] eqn:Ha; simpl.
  - left. split; [done|]. intros target (s' & [= <-] & Ha' & Hne). congruence.
  - destruct (cpp_syms !! String c target) as [other|] eqn:Ht.
    + right; left. exists s, (String c target), other. by rewrite Ha.
    + right; right. exists (String c target). split_and!; [|done..].
      exists s. by rewrite Ha.
  - left. split; [done|]. intros target (s' & [= <-] & Ha' & Hne). congruence.
Qed.

Lemma resolve_alias_alias_inv cpp_syms key cpp_syms' k target :
  resolve_alias cpp_syms key = Ok cpp_syms' →
  alias_of cpp_syms' k target → alias_of cpp_syms k target.
Proof.
  destruct (resolve_alias_cases cpp_syms key)
    as [[-> _]|[(s & t & other & Hs & Ha & Hne & Ht & ->)|(t & _ & _ & ->)]];
    [by intros [= <-]| |done].
  intros [= <-] (s' & Hk & Ha' & Hne'). destruct (decide (key = k)) as [<-|Hkey].
  - rewrite lookup_insert_eq in Hk. injection Hk as <-. simpl in Ha'. by exists s.
  - rewrite lookup_insert_ne in Hk by done. by exists s'.
Qed.

(** X7: the alias pass returns exactly when every record it goes through
    that has a non-empty alias has its target in the table; the only error it
    raises is the lookup error, for a name that is not in the table and is
    the alias of one of these records. *)
Theorem resolve_aliases_ok_iff (keys : list string) (cpp_syms : gmap string sym) :
  ((∃ cpp_syms', resolve_aliases keys cpp_syms = Ok cpp_syms')
   ↔ ∀ key target, key ∈ keys → alias_of cpp_syms key target →
       is_Some (cpp_syms !! target))
  ∧ (∀ e, resolve_aliases keys cpp_syms = Raise e →
       ∃ key target, e = KeyError target ∧ key ∈ keys
                     ∧ alias_of cpp_syms key target ∧ cpp_syms !! target = None).
Proof.
  split; [split|].
  - intros [cpp_syms' Hok] key target Hin Ha.
    destruct (cpp_syms !! target) eqn:Ht; [done|].
    destruct (resolve_aliases_dangling keys cpp_syms key target Hin Ha Ht) as [m Hm].
    congruence.
  - revert cpp_syms. induction keys as [|k keys IH]; intros cpp_syms Hall; simpl.
    { by eexists. }
    destruct (resolve_alias_cases cpp_syms k)
      as [[Hstep _]|[(s & t & other & Hs & Ha & Hne & Ht & Hstep)|(t & Ha & Ht & _)]].
    + rewrite Hstep. simpl. apply IH. intros key target Hin. apply Hall. by right.
    + rewrite Hstep. simpl. apply IH. intros key target Hin Hal.
      apply (resolve_alias_alias_inv _ _ _ _ _ Hstep), Hall in Hal as [v Hv]; [|by right].
      apply not_eq_None_Some. rewrite (resolve_alias_dom _ _ _ _ Hstep).
      by rewrite Hv.
    + destruct (Hall k t) as [v Hv]; [by left|done|congruence].
  - revert cpp_syms. induction keys as [|k keys IH]; intros cpp_syms e; simpl; [done|].
    destruct (resolve_alias_cases cpp_syms k)
      as [[Hstep _]|[(s & t & other & Hs & Ha & Hne & Ht & Hstep)|(t & Ha & Ht & Hstep)]];
      rewrite Hstep; simpl.
    + intros (key & target & -> & Hin & Hal & Hnone)%IH.
      exists key, target. split_and!; [done|by right|done..].
    + intros (key & target & -> & Hin & Hal & Hnone)%IH.
      exists key, target. split_and!; [done|by right| |].
      * by apply (resolve_alias_alias_inv _ _ _ _ _ Hstep).
      * by apply (resolve_alias_dom _ _ _ _ Hstep).
    + intros [= <-]. exists k, t. split_and!; [done|by left|done..].
Qed.

Lemma resolve_alias_other cpp_syms key cpp_syms' k :
  resolve_alias cpp_syms key = Ok cpp_syms' → k ≠ key →
  cpp_syms' !! k = cpp_syms !! k.
Proof.
  destruct (resolve_alias_cases cpp_syms key)
    as [[-> _]|[(s & t & other & Hs & Ha & Hne & Ht & ->)|(t & _ & _ & ->)]];
    [by intros [= <-]| |done].
  intros [= <-] Hk. by rewrite lookup_insert_ne.
Qed.

Lemma resolve_alias_plain cpp_syms key cpp_syms' k s :
  resolve_alias cpp_syms key = Ok cpp_syms' →
  cpp_syms !! k = Some s → truthy (alias s) = false →
  cpp_syms' !! k = Some s.
Proof.
  intros Hstep Hs Hfalse. destruct (decide (k = key)) as [->|Hne].
  - unfold resolve_alias in Hstep. rewrite Hs, Hfalse in Hstep. simpl in Hstep.
    by injection Hstep as <-.
  - by rewrite (resolve_alias_other _ _ _ _ Hstep Hne).
Qed.

Lemma resolve_aliases_notin keys cpp_syms cpp_syms' k :
  resolve_aliases keys cpp_syms = Ok cpp_syms' → k ∉ keys →
  cpp_syms' !! k = cpp_syms !! k.
Proof.
  revert cpp_syms. induction keys as [|key keys IH]; intros cpp_syms; simpl.
  { by intros [= <-]. }
  destruct (resolve_alias cpp_syms key) as [m|] eqn:Hstep; [|done]. simpl.
  intros Hrest [Hne Hnin]%not_elem_of_cons.
  by rewrite (IH _ Hrest Hnin), (resolve_alias_other _ _ _ _ Hstep Hne).
Qed.

Lemma resolve_aliases_plain keys cpp_syms cpp_syms' k s :
  resolve_aliases keys cpp_syms = Ok cpp_syms' →
  cpp_syms !! k = Some s → truthy (alias s) = false →
  cpp_syms' !! k = Some s.
Proof.
  revert cpp_syms. induction keys as [|key keys IH]; intros cpp_syms; simpl.
  { by intros [= <-]. }
  destruct (resolve_alias cpp_syms key) as [m|] eqn:Hstep; [|done]. simpl.
  intros Hrest Hs Hfalse. apply (IH _ Hrest); [|done].
  by apply (resolve_alias_plain _ _ _ _ _ Hstep).
Qed.

Lemma resolve_aliases_hop
    (keys : list string) (cpp_syms cpp_syms' : gmap string sym)
    (key target : string) (s other : sym) :
  resolve_aliases keys cpp_syms = Ok cpp_syms' →
  NoDup keys →
  key ∈ keys →
  cpp_syms !! key = Some s →
  alias s = Some target →
  target ≠ EmptyString →
  cpp_syms !! target = Some other →
  truthy (alias other) = false →
  cpp_syms' !! key
  = Some (Sym (name s) (type s +:+ "(" +:+ type other +:+ ")")
              (alias s) (link other) (header s)).
Proof.
  intros Hrun Hnd Hin Hs Ha Hne Ht Hplain.
  revert cpp_syms Hrun Hs Ht.
  induction keys as [|k keys IH]; intros cpp_syms Hrun Hs Ht.
  { by apply elem_of_nil in Hin. }
  simpl in Hrun. apply NoDup_cons in Hnd as [Hnin Hnd].
  destruct (resolve_alias cpp_syms k) as [m|] eqn:Hstep; [|done]. simpl in Hrun.
  destruct (decide (k = key)) as [->|Hk].
  - rewrite (resolve_aliases_notin _ _ _ _ Hrun Hnin).
    unfold resolve_alias in Hstep.
    rewrite Hs, Ha, (truthy_Some _ Hne) in Hstep. simpl in Hstep.
    rewrite Ht in Hstep. injection Hstep as <-. by rewrite lookup_insert_eq, Ha.
  - apply elem_of_cons in Hin as [?|Hin]; [done|].
    apply (IH Hnd Hin m Hrun).
    + rewrite (resolve_alias_other _ _ _ _ Hstep); [done|]. by intros ->.
    + by apply (resolve_alias_plain _ _ _ _ _ Hstep).
Qed.

(** X8: when the references are distinct, a record whose alias names a
    record that has no alias itself comes out of the pass with the composite
    type and the link of that record, whatever the order of the references;
    the record it names and every record without an alias are left as they
    were. *)
Theorem resolve_aliases_single_hop
    (keys : list string) (cpp_syms cpp_syms' : gmap string sym)
    (key target : string) (s other : sym) :
  resolve_aliases keys cpp_syms = Ok cpp_syms' →
  NoDup keys →
  key ∈ keys →
  cpp_syms !! key = Some s →
  alias s = Some target →
  target ≠ EmptyString →
  cpp_syms !! target = Some other →
  truthy (alias other) = false →
  cpp_syms' !! key
  = Some (Sym (name s) (type s +:+ "(" +:+ type other +:+ ")")
              (alias s) (link other) (header s))
  ∧ cpp_syms' !! target = Some other
  ∧ (∀ k r, cpp_syms !! k = Some r → truthy (alias r) = false →
       cpp_syms' !! k = Some r).
Proof.
  intros Hrun Hnd Hin Hs Ha Hne Ht Hplain. split_and!.
  - by eapply resolve_aliases_hop.
  - by eapply resolve_aliases_plain.
  - intros. by eapply resolve_aliases_plain.
Qed.

Lemma resolve_aliases_single_hop_witness :
  let seconds := Sym "std::chrono::seconds" "typedef"
                     (Some "std::chrono::duration") None None in
  let duration := Sym "std::chrono::duration" "class" None
                      (Some "cpp/chrono/duration") None in
  let cpp_syms : gmap string sym :=
    {[ "std::chrono::seconds" := seconds; "std::chrono::duration" := duration ]} in
  let cpp_syms' : gmap string sym :=
    {[ "std::chrono::seconds" :=
         Sym "std::chrono::seconds" "typedef(class)"
             (Some "std::chrono::duration") (Some "cpp/chrono/duration") None;
       "std::chrono::duration" := duration ]} in
  cpp_syms' !! "std::chrono::seconds"
  = Some (Sym "std::chrono::seconds" "typedef(class)"
              (Some "std::chrono::duration") (Some "cpp/chrono/duration") None)
  ∧ cpp_syms' !! "std::chrono::duration" = Some duration.
Proof.
  intros seconds duration cpp_syms cpp_syms'.
  destruct (resolve_aliases_single_hop
              ["std::chrono::duration"; "std::chrono::seconds"]
              cpp_syms cpp_syms' "std::chrono::seconds" "std::chrono::duration"
              seconds duration) as (H1 & H2 & _).
  - vm_compute. reflexivity.
  - apply (bool_decide_unpack _). vm_compute. exact I.
  - apply (bool_decide_unpack _). vm_compute. exact I.
  - reflexivity.
  - reflexivity.
  - discriminate.
  - reflexivity.
  - reflexivity.
  - split; [exact H1|exact H2].
Defined.

(** * Further properties of filter_syms *)

Lemma filter_sym_catalog c_syms man_syms lang item :
  (c_crash c_syms item
   ∧ filter_sym (Catalog c_syms) man_syms lang item = Raise TypeError)
  ∨ (¬ c_crash c_syms item
     ∧ ∃ r, filter_sym (Catalog c_syms) man_syms lang item = Ok r).
Proof.
  destruct item as [name s]. unfold c_crash, filter_sym, c_shadowed. cbn [fst snd].
  generalize (string_drop 5 name). intros rest.
  destruct (truthy (header s)).
  { right. split; [by intros [? _]|by eexists]. }
  destruct (startswith "std::" name).
  - destruct (c_syms !! rest) as [r|]; simpl.
    + by left.
    + right. split; [by intros (_ & _ & [? ?])|].
      destruct (man_shadowed _ _); by eexists.
  - right. split; [by intros (_ & ? & _)|]. by eexists.
Qed.

(** X9: while the C symbols are filtered the table read by the salvage test
    still holds the records of the catalog, and the pass raises the type
    error exactly when one of its items has no header and is named [std::]
    followed by a name of the catalog; it raises nothing else. *)
Theorem filter_syms_catalog_error
    (c_syms : gmap string sym) (man_syms : gmap string (gset string))
    (lang : string) (items : list (string * sym))
    (acc : gmap string value * list diag) :
  (filter_syms (Catalog c_syms) man_syms lang items acc = Raise TypeError
   ↔ ∃ item, item ∈ items ∧ c_crash c_syms item)
  ∧ (∀ e, filter_syms (Catalog c_syms) man_syms lang items acc = Raise e →
       e = TypeError).
Proof.
  revert acc. induction items as [|item items IH]; intros acc; simpl.
  { split; [|done]. split; [done|]. intros (item & Hin & _). by apply elem_of_nil in Hin. }
  destruct (filter_sym_catalog c_syms man_syms lang item)
    as [[Hcrash ->]|[Hok [r ->]]]; simpl.
  - split; [|by intros e [= <-]]. split; [|done]. intros _. exists item. split; [by left|done].
  - destruct (IH (match r.1 with
                  | Some (name, v) => <[name:=v]> acc.1
                  | None => acc.1
                  end, acc.2 ++ r.2)) as [Hiff Honly].
    split; [|done]. rewrite Hiff. split.
    + intros (it & Hin & Hc). exists it. split; [by right|done].
    + intros (it & [->|Hin]%elem_of_cons & Hc); [done|]. by exists it.
Qed.

Lemma nodup_fst_functional {A B} (l : list (A * B)) x y1 y2 :
  NoDup l.*1 → (x, y1) ∈ l → (x, y2) ∈ l → y1 = y2.
Proof.
  induction l as [|[a b] l IH]; simpl; [by intros _ ?%elem_of_nil|].
  intros [Hnin Hnd]%NoDup_cons [H1|H1]%elem_of_cons [H2|H2]%elem_of_cons.
  - congruence.
  - simplify_eq. destruct Hnin. apply (list_elem_of_fmap_2 fst _ _ H2).
  - simplify_eq. destruct Hnin. apply (list_elem_of_fmap_2 fst _ _ H1).
  - by apply IH.
Qed.

Lemma filter_sym_printed c_syms man_syms lang (item : string * sym) y ds d :
  filter_sym c_syms man_syms lang item = Ok (y, ds) → d ∈ ds →
  (d = Discard lang item.1 ∧ y = None)
  ∨ (∃ hdrs, y = Some (item.1, Hdrs hdrs)
             ∧ (d = SalvageFromC item.1 hdrs ∨ d = SalvageFromMan item.1 hdrs)).
Proof.
  destruct item as [name s]. unfold filter_sym.
  destruct (truthy (header s)).
  { intros ?; simplify_eq. by intros ?%elem_of_nil. }
  destruct (if startswith "std::" name then c_shadowed _ _ else _)
    as [[c_hdrs|]|]; simpl; [| |done].
  - intros ?; simplify_eq. intros ->%list_elem_of_singleton. right. eauto.
  - destruct (if startswith "std::" name then man_shadowed _ _ else _) as [man_hdrs|].
    + intros ?; simplify_eq. intros ->%list_elem_of_singleton. right. eauto.
    + intros ?; simplify_eq. intros ->%list_elem_of_singleton. by left.
Qed.

Lemma filter_syms_printed_from c_syms man_syms lang items acc index err :
  filter_syms c_syms man_syms lang items acc = Ok (index, err) →
  ∃ printed, err = acc.2 ++ printed
    ∧ ∀ d, d ∈ printed →
        ∃ item y ds, item ∈ items
                     ∧ filter_sym c_syms man_syms lang item = Ok (y, ds) ∧ d ∈ ds.
Proof.
  revert acc. induction items as [|item items IH]; intros acc; simpl.
  { intros [= ->]. exists []. split; [by rewrite app_nil_r|]. by intros d ?%elem_of_nil. }
  destruct (filter_sym c_syms man_syms lang item) as [[y ds]|e] eqn:Hstep; [|done].
  simpl. intros (printed & -> & Hfrom)%IH. simpl.
  exists (ds ++ printed). split; [by rewrite app_assoc|].
  intros d [Hd|Hd]%elem_of_app.
  - exists item, y, ds. split_and!; [by left|done..].
  - destruct (Hfrom d Hd) as (it & y' & ds' & Hin & Hit & Hd').
    exists it, y', ds'. split_and!; [by right|done..].
Qed.

Lemma filter_syms_dom c_syms man_syms lang items acc index err name :
  filter_syms c_syms man_syms lang items acc = Ok (index, err) →
  is_Some (index !! name) → is_Some (acc.1 !! name) ∨ name ∈ items.*1.
Proof.
  intros Hrun Hsome. destruct (decide (name ∈ items.*1)) as [?|Hnin]; [by right|].
  left. by rewrite <- (filter_syms_other _ _ _ _ _ _ _ _ Hrun Hnin).
Qed.

(** X10: when the names of the items are distinct, [filter_syms] accounts
    for every symbol: a symbol with a header is kept with that header alone;
    any symbol is either in the index or reported discarded, never both; and
    the index holds no other name. *)
Theorem filter_syms_accounts
    (c_syms : c_table) (man_syms : gmap string (gset string)) (lang : string)
    (items : list (string * sym)) (err : list diag)
    (index : gmap string value) (err' : list diag) :
  filter_syms c_syms man_syms lang items (∅, err) = Ok (index, err') →
  NoDup items.*1 →
  ∃ printed, err' = err ++ printed
    ∧ (∀ name s hdr, (name, s) ∈ items → header s = Some hdr →
         hdr ≠ EmptyString → index !! name = Some (Hdrs {[hdr]}))
    ∧ (∀ name s, (name, s) ∈ items →
         (index !! name = None ↔ Discard lang name ∈ printed))
    ∧ (∀ name, is_Some (index !! name) → name ∈ items.*1).
Proof.
  intros Hrun Hnd.
  destruct (filter_syms_printed_from _ _ _ _ _ _ _ Hrun) as (printed & -> & Hfrom).
  simpl in Hrun. exists printed. split; [done|]. split_and!.
  - intros name s hdr Hin Hh Hne.
    assert (filter_sym c_syms man_syms lang (name, s)
            = Ok (Some (name, Hdrs {[hdr]}), [])) as Hitem.
    { unfold filter_sym. rewrite Hh. by destruct hdr. }
    destruct (filter_syms_item _ _ _ _ _ _ _ _ _ _ Hrun Hnd Hin Hitem) as [Hlook _].
    exact Hlook.
  - intros name s Hin.
    assert (∃ y ds, filter_sym c_syms man_syms lang (name, s) = Ok (y, ds))
      as (y & ds & Hitem).
    { clear Hnd Hfrom. revert Hrun. generalize (∅ : gmap string value, err).
      induction items as [|item items IH]; intros acc Hrun; [by apply elem_of_nil in Hin|].
      simpl in Hrun.
      destruct (filter_sym c_syms man_syms lang item) as [[y ds]|e] eqn:Hstep; [|done].
      apply elem_of_cons in Hin as [<-|Hin]; [by eexists _, _|].
      by apply (IH Hin _ Hrun). }
    destruct (filter_syms_item _ _ _ _ _ _ _ _ _ _ Hrun Hnd Hin Hitem)
      as [Hlook (before & after & Hprinted)].
    simpl in Hlook, Hprinted. apply app_inv_head in Hprinted. split.
    + intros Hnone. rewrite Hnone in Hlook. destruct y as [kv|]; [done|].
      assert (ds = [Discard lang name]) as ->.
      { unfold filter_sym in Hitem. destruct (truthy (header s)); [done|].
        destruct (if startswith "std::" name then c_shadowed _ _ else _)
          as [[?|]|]; simpl in Hitem; [done| |done].
        destruct (if startswith "std::" name then man_shadowed _ _ else _);
          by simplify_eq. }
      rewrite Hprinted. set_solver.
    + intros Hd. destruct (Hfrom _ Hd) as (it & y' & ds' & Hit & Hfs & Hd').
      destruct (filter_sym_printed _ _ _ _ _ _ _ Hfs Hd') as [[Heq ->]|(h & _ & [?|?])];
        [|done..].
      injection Heq as Hname.
      assert (it = (name, s)) as ->.
      { destruct it as [n' s']. simpl in Hname. subst n'.
        f_equal. by eapply (nodup_fst_functional items). }
      rewrite Hfs in Hitem. injection Hitem as <- <-. by rewrite Hlook.
  - intros name Hsome.
    destruct (filter_syms_dom _ _ _ _ _ _ _ _ Hrun Hsome) as [[? Hempty]|?]; [|done].
    simpl in Hempty. by rewrite lookup_empty in Hempty.
Qed.

Lemma filter_syms_accounts_witness :
  let s := Sym "printf" "function" None (Some "c/io/fprintf") (Some "stdio.h") in
  let index : gmap string value := {[ "printf" := Hdrs {["stdio.h"]} ]} in
  index !! "printf" = Some (Hdrs {["stdio.h"]})
  ∧ (index !! "printf" = None ↔ Discard "C" "printf" ∈ ([] : list diag)).
Proof.
  intros s index.
  destruct (filter_syms_accounts (Catalog {[ "printf" := s ]}) ∅ "C"
              [("printf", s)] [] index [])
    as (printed & Hprinted & Hkept & Hlost & _).
  - vm_compute. reflexivity.
  - apply (bool_decide_unpack _). vm_compute. exact I.
  - symmetry in Hprinted. apply app_nil in Hprinted as [_ ->]. split.
    + apply (Hkept "printf" s "stdio.h"); [apply list_elem_of_here|reflexivity|discriminate].
    + apply (Hlost "printf" s). apply list_elem_of_here.
Defined.

(** * Further properties of the merge of the man symbols *)

Lemma enumerates_to_map items V (m : gmap string V) :
  enumerates items → list_to_map (items V m) = m.
Proof.
  intros Hitems. rewrite <- (list_to_map_to_list m) at 2.
  apply list_to_map_proper; [|apply Hitems].
  rewrite (Hitems V m). apply NoDup_fst_map_to_list.
Qed.

Lemma merge_mans_c facts (c_syms cpp_syms : gmap string value) :
  (merge_mans facts (c_syms, cpp_syms)).1
  = c_syms ∪ (Hdrs <$> (list_to_map facts : gmap string (gset string))).
Proof.
  unfold merge_mans. revert c_syms cpp_syms.
  induction facts as [|[name hdrs] facts IH]; intros c_syms cpp_syms.
  { simpl. by rewrite fmap_empty, (right_id_L ∅ (∪)). }
  change (foldl merge_man (c_syms, cpp_syms) ((name, hdrs) :: facts))
    with (foldl merge_man (merge_man (c_syms, cpp_syms) (name, hdrs)) facts).
  destruct (merge_man (c_syms, cpp_syms) (name, hdrs)) as [c1 cpp1] eqn:Hstep.
  rewrite IH. simpl in Hstep. injection Hstep as <- _.
  simpl. rewrite fmap_insert. apply map_eq. intros k.
  rewrite !lookup_union. destruct (decide (name = k)) as [<-|Hne].
  - rewrite lookup_insert_eq. case_bool_decide as Hn.
    + rewrite lookup_insert_eq, Hn. simpl.
      by destruct ((Hdrs <$> (list_to_map facts : gmap string (gset string))) !! name).
    + destruct (c_syms !! name) as [v|]; [|done]. simpl.
      by destruct ((Hdrs <$> (list_to_map facts : gmap string (gset string))) !! name).
  - rewrite (lookup_insert_ne _ name k) by done.
    case_bool_decide; [|done]. by rewrite lookup_insert_ne.
Qed.

(** X11: after the merge the C index is its former self completed with the
    man symbols: a name it held keeps its value, and every other name of the
    man table is there with the headers of the man table. *)
Theorem merge_mans_c_union
    (items : ∀ V, gmap string V → list (string * V))
    (man_syms : gmap string (gset string)) (c_syms cpp_syms : gmap string value) :
  enumerates items →
  (merge_mans (items _ man_syms) (c_syms, cpp_syms)).1
  = c_syms ∪ (Hdrs <$> man_syms).
Proof. intros Hitems. by rewrite merge_mans_c, (enumerates_to_map _ _ _ Hitems). Qed.

Lemma merge_mans_c_union_witness :
  (merge_mans (Example.items _ {[ "fstat" := {["sys/stat.h"]} ]})
     ({[ "printf" := Hdrs {["stdio.h"]} ]}, ∅)).1
  = {[ "printf" := Hdrs {["stdio.h"]} ]}
    ∪ (Hdrs <$> ({[ "fstat" := {["sys/stat.h"]} ]} : gmap string (gset string))).
Proof.
  apply (merge_mans_c_union Example.items {[ "fstat" := {["sys/stat.h"]} ]}
           {[ "printf" := Hdrs {["stdio.h"]} ]} ∅).
  intros V m. reflexivity.
Defined.

Lemma merge_mans_cpp facts (c_syms cpp_syms : gmap string value) k :
  NoDup facts.*1 →
  Forall (λ fact, startswith "std::" fact.1 = false) facts →
  (merge_mans facts (c_syms, cpp_syms)).2 !! k
  = match cpp_syms !! k with
    | Some v => Some v
    | None =>
        match (list_to_map facts : gmap string (gset string)) !! k with
        | Some hdrs =>
            if bool_decide (cpp_syms !! ("std::" +:+ k) = None)
            then Some (Hdrs (shadow_set hdrs)) else None
        | None => None
        end
    end.
Proof.
  unfold merge_mans. revert c_syms cpp_syms.
  induction facts as [|[name hdrs] facts IH]; intros c_syms cpp_syms Hnd Hstd.
  { simpl. rewrite lookup_empty. by destruct (cpp_syms !! k). }
  apply NoDup_cons in Hnd as [Hnin Hnd]. apply Forall_cons in Hstd as [Hname Hstd].
  simpl in Hname.
  change (foldl merge_man (c_syms, cpp_syms) ((name, hdrs) :: facts))
    with (foldl merge_man (merge_man (c_syms, cpp_syms) (name, hdrs)) facts).
  destruct (merge_man (c_syms, cpp_syms) (name, hdrs)) as [c1 cpp1] eqn:Hstep.
  rewrite (IH c1 cpp1 Hnd Hstd). simpl in Hstep. injection Hstep as _ <-.
  assert ((list_to_map facts : gmap string (gset string)) !! name = None) as Hfresh.
  { by apply not_elem_of_list_to_map_1. }
  simpl. destruct (decide (name = k)) as [<-|Hne].
  - rewrite lookup_insert_eq, Hfresh.
    destruct (cpp_syms !! name) as [v|] eqn:Hn; simpl.
    + by rewrite Hn.
    + case_bool_decide; [by rewrite lookup_insert_eq|by rewrite Hn].
  - rewrite (lookup_insert_ne _ name k) by done.
    destruct (bool_decide (cpp_syms !! name = None)
              && bool_decide (cpp_syms !! ("std::" +:+ name) = None)); [|done].
    rewrite lookup_insert_ne by done.
    destruct (cpp_syms !! k) as [v|]; [done|].
    destruct ((list_to_map facts : gmap string (gset string)) !! k) as [h|]; [|done].
    rewrite lookup_insert_ne; [done|]. intros ->.
    by rewrite startswith_app in Hname.
Qed.

(** X12: when no man symbol is named with the [std::] prefix, the merge
    leaves every entry of the C++ index as it is and adds each man symbol
    that the index holds neither under its name nor under its [std::] form,
    with its headers mapped through the shadow table; no other name is
    added. *)
Theorem merge_mans_cpp_lookup
    (items : ∀ V, gmap string V → list (string * V))
    (man_syms : gmap string (gset string)) (c_syms cpp_syms : gmap string value)
    (k : string) :
  enumerates items →
  (∀ name, is_Some (man_syms !! name) → startswith "std::" name = false) →
  (merge_mans (items _ man_syms) (c_syms, cpp_syms)).2 !! k
  = match cpp_syms !! k with
    | Some v => Some v
    | None =>
        match man_syms !! k with
        | Some hdrs =>
            if bool_decide (cpp_syms !! ("std::" +:+ k) = None)
            then Some (Hdrs (shadow_set hdrs)) else None
        | None => None
        end
    end.
Proof.
  intros Hitems Hstd. rewrite merge_mans_cpp.
  - by rewrite (enumerates_to_map _ _ _ Hitems).
  - rewrite (Hitems _ man_syms). apply NoDup_fst_map_to_list.
  - apply Forall_forall. intros [name hdrs] Hin. simpl. apply Hstd.
    rewrite (Hitems _ man_syms) in Hin. apply elem_of_map_to_list in Hin.
    by rewrite Hin.
Qed.

Lemma merge_mans_cpp_lookup_witness :
  (merge_mans (Example.items _ {[ "log10" := {["math.h"]} ]})
     (∅, {[ "std::log10" := Hdrs {["cmath"]} ]})).2 !! "log10"
  = None.
Proof.
  refine (eq_trans
            (merge_mans_cpp_lookup Example.items {[ "log10" := {["math.h"]} ]}
               ∅ {[ "std::log10" := Hdrs {["cmath"]} ]} "log10" _ _) _).
  - intros V m. reflexivity.
  - intros name [h [<- _]%lookup_singleton_Some]. reflexivity.
  - vm_compute. reflexivity.
Defined.

(** * Further properties of the decanonicalizer *)

Lemma decanonicalize_step_short (cpp_syms : gmap string value) err name v short :
  short_name name = Some short →
  is_Some ((decanonicalize_step (cpp_syms, err) (name, v)).1 !! short).
Proof.
  intros Hs. simpl. rewrite Hs. case_bool_decide as Hin; [done|].
  simpl. rewrite lookup_insert_eq. by eexists.
Qed.

(** X13: after the decanonicalizer, the short name of every qualified name
    it went through is an entry of the index. *)
Theorem decanonicalize_short_names_present
    (items : list (string * value)) (st : gmap string value * list diag)
    (name short : string) (v : value) :
  (name, v) ∈ items →
  short_name name = Some short →
  is_Some ((decanonicalize items st).1 !! short).
Proof.
  unfold decanonicalize. revert st.
  induction items as [|item items IH]; intros [cpp err] Hin Hs.
  { by apply elem_of_nil in Hin. }
  cbn [foldl]. apply elem_of_cons in Hin as [<-|Hin].
  - destruct (decanonicalize_step_short cpp err name v short Hs) as [w Hw].
    pose proof (decanonicalize_keeps items (decanonicalize_step (cpp, err) (name, v)))
      as Hsub.
    exists w. exact (lookup_weaken _ _ _ _ Hw Hsub).
  - by apply IH.
Qed.

Lemma decanonicalize_short_names_present_witness :
  is_Some ((decanonicalize [("std::log", Hdrs {["cmath"]})]
              ({[ "std::log" := Hdrs {["cmath"]} ]}, [])).1 !! "log").
Proof.
  apply (decanonicalize_short_names_present [("std::log", Hdrs {["cmath"]})]
           ({[ "std::log" := Hdrs {["cmath"]} ]}, []) "std::log" "log"
           (Hdrs {["cmath"]})).
  - apply list_elem_of_here.
  - reflexivity.
Defined.

(** X14: an entry of the index after the decanonicalizer was there before
    with the same value, or is the redirect of a name that was absent before
    to one of the names gone through, of which it is the short name: the
    target is that name preceded by a qualifier and [::]. *)
Theorem decanonicalize_redirects
    (items : list (string * value)) (st : gmap string value * list diag)
    (k : string) (v : value) :
  (decanonicalize items st).1 !! k = Some v →
  st.1 !! k = Some v
  ∨ (st.1 !! k = None
     ∧ ∃ target, v = Canonical target
                 ∧ target ∈ items.*1
                 ∧ short_name target = Some k
                 ∧ ∃ qualifier, target = qualifier +:+ "::" +:+ k).
Proof.
  unfold decanonicalize. revert st.
  induction items as [|[name w] items IH]; intros [cpp err]; cbn [foldl]; [by left|].
  intros Hk.
  apply (IH (decanonicalize_step (cpp, err) (name, w))) in Hk
    as [Hk|(Hnone & target & -> & Hin & Hs & Hq)].
  - simpl in Hk. destruct (short_name name) as [short|] eqn:Hs; [|by left].
    case_bool_decide as Hpresent; [by left|]. simpl in Hk.
    destruct (decide (short = k)) as [->|Hne].
    + rewrite lookup_insert_eq in Hk. injection Hk as <-. right.
      split; [by apply eq_None_not_Some|].
      exists name. split_and!; [done|by left|done|].
      by destruct (short_name_spec _ _ Hs) as [Hq _].
    + left. by rewrite lookup_insert_ne in Hk.
  - right. split.
    + destruct (cpp !! k) as [u|] eqn:Hu; [|done].
      pose proof (decanonicalize_step_keeps cpp err (name, w)) as Hsub.
      by rewrite (lookup_weaken _ _ _ _ Hu Hsub) in Hnone.
    + exists target. split_and!; [done|by right|done..].
Qed.

Lemma decanonicalize_redirects_witness :
  let st : gmap string value * list diag :=
    ({[ "std::log" := Hdrs {["cmath"]} ]}, []) in
  st.1 !! "log" = Some (Canonical "std::log")
  ∨ (st.1 !! "log" = None
     ∧ ∃ target, Canonical "std::log" = Canonical target
                 ∧ target ∈ [("std::log", Hdrs {["cmath"]})].*1
                 ∧ short_name target = Some "log"
                 ∧ ∃ qualifier, target = qualifier +:+ "::" +:+ "log").
Proof.
  intros st.
  apply (decanonicalize_redirects [("std::log", Hdrs {["cmath"]})] st "log"
           (Canonical "std::log")).
  vm_compute. reflexivity.
Defined.

(** * Qualifying and shortening a name *)

Lemma startswith_cons c p s :
  startswith (String c p) (String c s) = startswith p s.
Proof. unfold startswith. simpl. by destruct (Ascii.ascii_dec c c). Qed.

Lemma rindex_qualified (q s : string) :
  contains "::" s = false → startswith ":" s = false →
  rindex "::" (q +:+ "::" +:+ s) = Some (String.length q).
Proof.
  intros Hc Hs. induction q as [|c q IH].
  - assert (rindex "::" s = None) as Hr.
    { destruct (rindex "::" s) eqn:Hr; [|done].
      assert (is_Some (rindex "::" s)) as Hsome by by rewrite Hr.
      apply contains_rindex in Hsome. congruence. }
    set (colon := Ascii.ascii_of_nat 58).
    change (EmptyString +:+ "::" +:+ s) with (String colon (String colon s)).
    change "::" with (String colon (String colon EmptyString)) in *.
    change ":" with (String colon EmptyString) in Hs.
    cbn [rindex]. rewrite Hr, !startswith_cons, Hs.
    by destruct s.
  - change (String c q +:+ "::" +:+ s) with (String c (q +:+ "::" +:+ s)).
    cbn [rindex]. by rewrite IH.
Qed.

(** X15: shortening undoes qualifying: the short name of [q::s] is [s],
    when [s] holds no [::] and does not begin with a colon. *)
Theorem short_name_qualified (q s : string) :
  contains "::" s = false →
  startswith ":" s = false →
  short_name (q +:+ "::" +:+ s) = Some s.
Proof.
  intros Hc Hs. unfold short_name. rewrite (rindex_qualified q s Hc Hs). simpl.
  f_equal. rewrite string_drop_add, string_drop_app.
  exact (string_drop_app "::" s).
Qed.

Lemma short_name_qualified_witness : short_name ("std" +:+ "::" +:+ "log") = Some "log".
Proof. apply (short_name_qualified "std" "log"); reflexivity. Defined.

(** * Further properties of the shadow table *)

Lemma shadows_values_modern :
  map_Forall (λ _ modern, shadows !! modern = None) shadows.
Proof. apply (bool_decide_unpack _). vm_compute. exact I. Qed.

Lemma shadows_get_idemp (hdr : string) :
  shadows_get (shadows_get hdr) = shadows_get hdr.
Proof.
  unfold shadows_get at 2 3. destruct (shadows !! hdr) as [modern|] eqn:Hh; simpl.
  - unfold shadows_get. by rewrite (shadows_values_modern _ _ Hh).
  - unfold shadows_get. by rewrite Hh.
Qed.

(** X16: no modern header of the shadow table is a legacy header of it, so
    mapping a set of headers through the table a second time changes
    nothing. *)
Theorem shadow_set_idemp (hdrs : gset string) :
  shadow_set (shadow_set hdrs) = shadow_set hdrs.
Proof.
  apply set_eq. intros x. rewrite !elem_of_shadow_set. split.
  - intros (y & (z & Hz & ->)%elem_of_shadow_set & ->).
    exists z. by rewrite shadows_get_idemp.
  - intros (z & Hz & ->). exists (shadows_get z). split.
    + apply elem_of_shadow_set. by exists z.
    + by rewrite shadows_get_idemp.
Qed.

(** * The catalog passes *)

Lemma load_c_child_cases (st : Full.c_state) (child : Full.element) :
  match c_link child with
  | None => Full.load_c_child st child = Ok st
  | Some link =>
      match Full.attrib child !! "name" with
      | None => Full.load_c_child st child = Raise (KeyError "name")
      | Some name =>
          if contains "(" name then Full.load_c_child st child = Ok st
          else
            Full.load_c_child st child
            = Ok (Full.CState
                    (Full.c_objs st
                     ++ [Sym name (Full.tag child) None (Some link) None])
                    (<[name := length (Full.c_objs st)]> (Full.c_refs st))
                    (Full.setdefault_append (Some link)
                       (Full.CRef (length (Full.c_objs st))) (Full.links st)))
      end
  end.
Proof.
  unfold c_link, Full.load_c_child, Full.getitem.
  destruct (Full.attrib child !! "link") as [link|]; [|done].
  destruct (contains "/" link); simpl; [|done].
  destruct (startswith "cpp/" link); simpl; [done|].
  destruct (Full.attrib child !! "name") as [name|]; simpl; [|done].
  by destruct (contains "(" name).
Qed.

(** X17: the pass over the C catalog raises exactly when a node whose link
    passes the tests (a link with a slash, outside [cpp/]) has no name, and
    what it raises is the lookup error for [name]. *)
Theorem load_c_error (children : list Full.element) (st : Full.c_state) :
  (Full.load_c children st = Raise (KeyError "name")
   ↔ ∃ child, child ∈ children ∧ is_Some (c_link child)
              ∧ Full.attrib child !! "name" = None)
  ∧ (∀ e, Full.load_c children st = Raise e → e = KeyError "name").
Proof.
  revert st. induction children as [|child children IH]; intros st; simpl.
  { split; [|done]. split; [done|]. intros (c & Hin & _). by apply elem_of_nil in Hin. }
  pose proof (load_c_child_cases st child) as Hchild.
  assert (∀ st', Full.load_c_child st child = Ok st' →
            (¬ (is_Some (c_link child) ∧ Full.attrib child !! "name" = None))) as Hok.
  { intros st' Hst' [[l Hl] Hn]. rewrite Hl, Hn in Hchild. congruence. }
  destruct (Full.load_c_child st child) as [st'|e] eqn:Hstep; simpl.
  - destruct (IH st') as [Hiff Honly]. split; [|done]. rewrite Hiff. split.
    + intros (c & Hin & Hc). exists c. split; [by right|done].
    + intros (c & [->|Hin]%elem_of_cons & Hc); [by destruct (Hok st')|].
      by exists c.
  - destruct (c_link child) as [l|] eqn:Hl; [|done].
    destruct (Full.attrib child !! "name") as [n|] eqn:Hn.
    { by destruct (contains "(" n). }
    injection Hchild as <-. split; [|by intros ? [= <-]].
    split; [|done]. intros _. exists child. split_and!; [by left|by rewrite Hl|done].
Qed.

Lemma c_table_of_insert (st : Full.c_state) name s links' :
  (∀ k addr, Full.c_refs st !! k = Some addr → (addr < length (Full.c_objs st))%nat) →
  c_table_of (Full.CState (Full.c_objs st ++ [s])
                (<[name := length (Full.c_objs st)]> (Full.c_refs st)) links')
  = <[name := s]> (c_table_of st).
Proof.
  intros Hvalid. unfold c_table_of. simpl. apply map_eq. intros k.
  rewrite lookup_omap. destruct (decide (name = k)) as [<-|Hne].
  - rewrite !lookup_insert_eq. simpl.
    by rewrite lookup_app_r, Nat.sub_diag.
  - rewrite !lookup_insert_ne by done. rewrite lookup_omap.
    destruct (Full.c_refs st !! k) as [addr|] eqn:Hk; [|done]. simpl.
    by rewrite lookup_app_l by by eapply Hvalid.
Qed.

Lemma load_c_table (children : list Full.element) (st st' : Full.c_state) :
  (∀ k addr, Full.c_refs st !! k = Some addr → (addr < length (Full.c_objs st))%nat) →
  Full.load_c children st = Ok st' →
  c_table_of st' = list_to_map (reverse (omap c_record children)) ∪ c_table_of st.
Proof.
  revert st. induction children as [|child children IH]; intros st Hvalid; simpl.
  { intros [= <-]. by rewrite (left_id_L ∅ (∪)). }
  pose proof (load_c_child_cases st child) as Hchild.
  destruct (Full.load_c_child st child) as [st1|] eqn:Hstep; [|done]. simpl.
  unfold c_record. destruct (c_link child) as [l|]; simpl.
  2:{ injection Hchild as <-. by apply IH. }
  destruct (Full.attrib child !! "name") as [n|]; simpl; [|done].
  destruct (contains "(" n).
  { injection Hchild as <-. by apply IH. }
  injection Hchild as ->. intros Hrun.
  apply IH in Hrun.
  - rewrite Hrun, c_table_of_insert by done.
    rewrite reverse_cons, list_to_map_app. simpl.
    rewrite <- (assoc_L (∪)). f_equal.
    by rewrite insert_empty, <- insert_union_singleton_l.
  - simpl. intros k addr. rewrite length_app. simpl.
    destruct (decide (n = k)) as [<-|Hne].
    + rewrite lookup_insert_eq. intros [= <-]. lia.
    + rewrite lookup_insert_ne by done. intros Hk%Hvalid. lia.
Qed.

(** X18: the table of C records that the pass over the catalog builds maps
    each name to the record of the last kept node with that name: a node is
    kept when its link passes the tests and its name has no parenthesis. *)
Theorem load_c_last_wins (children : list Full.element) (st : Full.c_state) :
  Full.load_c children (Full.CState [] ∅ ∅) = Ok st →
  c_table_of st = list_to_map (reverse (omap c_record children)).
Proof.
  intros Hrun. rewrite (load_c_table children (Full.CState [] ∅ ∅) st); [|done..].
  replace (c_table_of (Full.CState [] ∅ ∅)) with (∅ : gmap string sym)
    by (unfold c_table_of; simpl; by rewrite omap_empty).
  by rewrite (right_id_L ∅ (∪)).
Qed.

Lemma load_cpp_table (children : list Full.element) (cpp_syms : gmap string sym) :
  match Full.load_cpp children cpp_syms with
  | Ok cpp_syms' =>
      Forall (λ child, is_Some (Full.attrib child !! "name")) children
      ∧ cpp_syms' = list_to_map (reverse (omap cpp_record children)) ∪ cpp_syms
  | Raise e =>
      e = KeyError "name"
      ∧ Exists (λ child, Full.attrib child !! "name" = None) children
  end.
Proof.
  revert cpp_syms. induction children as [|child children IH]; intros cpp_syms; simpl.
  { split; [done|]. by rewrite (left_id_L ∅ (∪)). }
  unfold Full.load_cpp_child, Full.getitem, cpp_record.
  destruct (Full.attrib child !! "name") as [n|] eqn:Hn; simpl.
  2:{ split; [done|]. by left. }
  destruct (contains "(" n); simpl.
  - specialize (IH cpp_syms). destruct (Full.load_cpp children cpp_syms).
    + destruct IH as [Hall ->]. split; [|done]. constructor; [by rewrite Hn|done].
    + destruct IH as [-> Hex]. split; [done|]. by right.
  - specialize (IH (<[n := Sym n (Full.tag child) (Full.attrib child !! "alias")
                            (Full.attrib child !! "link") None]> cpp_syms)).
    destruct (Full.load_cpp children _).
    + destruct IH as [Hall ->]. split; [constructor; [by rewrite Hn|done]|].
      rewrite reverse_cons, list_to_map_app. simpl.
      rewrite <- (assoc_L (∪)). f_equal.
      by rewrite insert_empty, <- insert_union_singleton_l.
    + destruct IH as [-> Hex]. split; [done|]. by right.
Qed.

(** X19: the pass over the C++ catalog raises the lookup error for [name]
    exactly when a node has no name; otherwise its table maps each name to
    the record of the last node with that name, among the nodes whose name
    has no parenthesis. *)
Theorem load_cpp_last_wins (children : list Full.element) :
  (Full.load_cpp children ∅ = Raise (KeyError "name")
   ↔ ∃ child, child ∈ children ∧ Full.attrib child !! "name" = None)
  ∧ (∀ e, Full.load_cpp children ∅ = Raise e → e = KeyError "name")
  ∧ (∀ cpp_syms, Full.load_cpp children ∅ = Ok cpp_syms →
       cpp_syms = list_to_map (reverse (omap cpp_record children))).
Proof.
  pose proof (load_cpp_table children ∅) as Hload.
  destruct (Full.load_cpp children ∅) as [m|e].
  - destruct Hload as [Hall ->]. split_and!; [|done|].
    + split; [done|]. intros (child & Hin & Hnone).
      rewrite Forall_forall in Hall. apply Hall in Hin as [n Hn]. congruence.
    + intros ? [= <-]. by rewrite (right_id_L ∅ (∪)).
  - destruct Hload as [-> Hex]. split_and!; [|by intros ? [= <-]|done].
    split; [|done]. intros _. by apply Exists_exists in Hex.
Qed.

(** * The header pass *)

Lemma set_header_deref hdr store r0 r :
  deref (Full.set_header hdr store r0) r
  = if decide (r0 = r) then Full.with_header hdr <$> deref store r
    else deref store r.
Proof.
  destruct store as [objs cpp]. destruct (decide (r0 = r)) as [<-|Hne].
  - destruct r0 as [a0|k0]; simpl.
    + apply list_lookup_alter_eq.
    + apply lookup_alter_eq.
  - destruct r0 as [a0|k0], r as [a|k]; simpl; [|done|done|].
    + apply list_lookup_alter_ne. congruence.
    + apply lookup_alter_ne. congruence.
Qed.

Lemma set_headers_deref hdr refs store r :
  deref (foldl (Full.set_header hdr) store refs) r
  = if decide (r ∈ refs) then Full.with_header hdr <$> deref store r
    else deref store r.
Proof.
  revert store. induction refs as [|r0 refs IH]; intros store; cbn [foldl].
  { rewrite decide_False; [done|]. by intros ?%elem_of_nil. }
  rewrite IH, set_header_deref.
  destruct (decide (r0 = r)) as [->|Hne].
  - rewrite (decide_True (P := r ∈ r :: refs)) by by left.
    case_decide; [|done]. by destruct (deref store r).
  - destruct (decide (r ∈ refs)) as [Hin|Hnin].
    + by rewrite (decide_True (P := r ∈ r0 :: refs)) by by right.
    + rewrite decide_False; [done|]. by intros [?|?]%elem_of_cons.
Qed.

Section header_pass.

Variable exists_ : string → bool.
Variable read : string → result string.
Variable re_header : string → option string.
Variable htmldir : string.

Let page := Full.page_header exists_ read re_header htmldir.
Let step := header_step exists_ read re_header htmldir.

Lemma resolve_link_store st entry :
  (step st entry).1
  = match page entry.1 with
    | Some hdr => foldl (Full.set_header hdr) st.1 entry.2
    | None => st.1
    end.
Proof.
  subst page step. unfold header_step, Full.resolve_link, Full.page_header.
  destruct (exists_ _); simpl; [|done].
  destruct (read _) as [html|]; simpl; [|done].
  by destruct (re_header _).
Qed.

Lemma resolve_link_deref links st entry r s :
  links_wf links st.1 →
  links !! entry.1 = Some entry.2 →
  deref st.1 r = Some s →
  deref (step st entry).1 r
  = Some (if decide (link s = entry.1) then set_page_header page s else s).
Proof.
  intros [Hlisted Hall] Hentry Hr. rewrite resolve_link_store.
  unfold set_page_header.
  assert (r ∈ entry.2 ↔ link s = entry.1) as Hiff.
  { split.
    - intros Hin. destruct (Hlisted _ _ _ Hentry Hin) as (s' & Hs' & <-). congruence.
    - intros Hl. destruct (Hall _ _ Hr) as (refs & Hrefs & Hin). congruence. }
  case_decide as Hl.
  - rewrite Hl. destruct (page entry.1) as [hdr|]; [|done].
    rewrite set_headers_deref, decide_True by by apply Hiff. by rewrite Hr.
  - destruct (page entry.1) as [hdr|]; [|done].
    rewrite set_headers_deref, decide_False; [done|]. by rewrite Hiff.
Qed.

Lemma set_page_header_link s : link (set_page_header page s) = link s.
Proof. unfold set_page_header. by destruct (page (link s)). Qed.

Lemma links_wf_step links st entry :
  links_wf links st.1 →
  links !! entry.1 = Some entry.2 →
  links_wf links (step st entry).1.
Proof.
  intros Hwf Hentry. pose proof Hwf as [Hlisted Hall]. split.
  - intros l refs r Hl Hin. destruct (Hlisted _ _ _ Hl Hin) as (s & Hs & <-).
    rewrite (resolve_link_deref links st entry r s Hwf Hentry Hs).
    eexists. split; [done|]. case_decide; [apply set_page_header_link|done].
  - intros r s' Hs'.
    destruct (deref st.1 r) as [s|] eqn:Hs.
    + rewrite (resolve_link_deref links st entry r s Hwf Hentry Hs) in Hs'.
      injection Hs' as <-.
      destruct (Hall _ _ Hs) as (refs & Hrefs & Hin). exists refs.
      split; [|done]. by case_decide; rewrite ?set_page_header_link.
    + exfalso. rewrite resolve_link_store in Hs'.
      destruct (page entry.1) as [hdr|]; [|congruence].
      rewrite set_headers_deref, Hs in Hs'. by case_decide.
Qed.

(** After the entries [entries] of [links], a record whose link is among
    their keys has the header of its page. *)
Lemma resolve_links_deref links entries st r s :
  links_wf links st.1 →
  NoDup entries.*1 →
  Forall (λ entry, links !! entry.1 = Some entry.2) entries →
  deref st.1 r = Some s →
  deref (foldl step st entries).1 r
  = Some (if decide (link s ∈ entries.*1) then set_page_header page s else s).
Proof.
  revert st s. induction entries as [|entry entries IH]; intros st s Hwf Hnd Hentries Hr.
  { cbn [foldl]. rewrite Hr. by f_equal. }
  cbn [foldl]. rewrite fmap_cons in Hnd.
  apply NoDup_cons in Hnd as [Hnin Hnd]. apply Forall_cons in Hentries as [Hentry Hentries].
  rewrite (IH (step st entry) _ (links_wf_step _ _ _ Hwf Hentry) Hnd Hentries
             (resolve_link_deref links st entry r s Hwf Hentry Hr)).
  f_equal. destruct (decide (link s = entry.1)) as [Heq|Hne].
  - rewrite set_page_header_link.
    destruct (decide (link s ∈ entries.*1)) as [Hin|_].
    { rewrite Heq in Hin. by destruct Hnin. }
    destruct (decide (link s ∈ (entry :: entries).*1)) as [_|Hn]; [done|].
    destruct Hn. rewrite fmap_cons, Heq. by left.
  - destruct (decide (link s ∈ entries.*1)) as [Hin|Hnin'],
      (decide (link s ∈ (entry :: entries).*1)) as [Hin2|Hnin2]; try done.
    + destruct Hnin2. rewrite fmap_cons. by right.
    + rewrite fmap_cons in Hin2. by apply elem_of_cons in Hin2 as [?|?].
Qed.

Lemma resolve_links_none entries st r :
  deref st.1 r = None → deref (foldl step st entries).1 r = None.
Proof.
  revert st. induction entries as [|entry entries IH]; intros st Hr; [done|].
  cbn [foldl]. apply IH. rewrite resolve_link_store.
  destruct (page entry.1) as [hdr|]; [|done].
  rewrite set_headers_deref, Hr. by case_decide.
Qed.

(** The header pass gives every record the header of its page. *)
Lemma header_pass_deref links link_entries st r s :
  links_wf links st.1 →
  no_header st.1 →
  link_entries ≡ₚ map_to_list links →
  deref (foldl step st link_entries).1 r = Some s →
  ∃ s0, deref st.1 r = Some s0
        ∧ s = Sym (name s0) (type s0) (alias s0) (link s0) (page (link s0)).
Proof.
  intros Hwf Hno Hperm Hs.
  destruct (deref st.1 r) as [s0|] eqn:Hs0.
  2:{ by rewrite (resolve_links_none _ _ _ Hs0) in Hs. }
  exists s0. split; [done|].
  rewrite (resolve_links_deref links link_entries st r s0 Hwf) in Hs; [| | |done].
  - injection Hs as <-. destruct Hwf as [_ Hall].
    destruct (Hall _ _ Hs0) as (refs & Hrefs & _).
    rewrite decide_True.
    + unfold set_page_header. specialize (Hno _ _ Hs0).
      destruct (page (link s0)) as [hdr|]; [done|].
      destruct s0. simpl in *. by subst.
    + apply list_elem_of_fmap. exists (link s0, refs). split; [done|].
      rewrite Hperm. by apply elem_of_map_to_list.
  - rewrite Hperm. apply NoDup_fst_map_to_list.
  - apply Forall_forall. intros [l refs] Hin. simpl.
    rewrite Hperm in Hin. by apply elem_of_map_to_list in Hin.
Qed.

End header_pass.

(** ** The links of the records *)

Lemma links_wf_append links store store' l r s :
  links_wf links store →
  deref store' r = Some s → link s = l →
  (∀ r' s', deref store r' = Some s' → deref store' r' = Some s') →
  (∀ r' s', deref store' r' = Some s' → r' = r ∨ deref store r' = Some s') →
  links_wf (Full.setdefault_append l r links) store'.
Proof.
  intros [Hlisted Hall] Hr Hl Hext Hinv. unfold Full.setdefault_append. split.
  - intros l' refs r' Hl' Hin. destruct (decide (l = l')) as [<-|Hne].
    + rewrite lookup_insert_eq in Hl'. injection Hl' as <-.
      apply elem_of_app in Hin as [Hin|Hin].
      * destruct (links !! l) as [old|] eqn:Hold; simpl in Hin;
          [|by apply elem_of_nil in Hin].
        destruct (Hlisted _ _ _ Hold Hin) as (s' & Hs' & Hls').
        exists s'. split; [by apply Hext|done].
      * apply list_elem_of_singleton in Hin as ->. by exists s.
    + rewrite lookup_insert_ne in Hl' by done.
      destruct (Hlisted _ _ _ Hl' Hin) as (s' & Hs' & Hls').
      exists s'. split; [by apply Hext|done].
  - intros r' s' Hs'. destruct (Hinv _ _ Hs') as [->|Hold].
    + rewrite Hr in Hs'. injection Hs' as <-. rewrite Hl. eexists.
      rewrite lookup_insert_eq. split; [done|]. apply elem_of_app. right. by left.
    + destruct (Hall _ _ Hold) as (refs & Hrefs & Hin).
      destruct (decide (l = link s')) as [Heq|Hne].
      * rewrite <- Heq. eexists. rewrite lookup_insert_eq. split; [done|].
        rewrite Heq, Hrefs. simpl. apply elem_of_app. by left.
      * exists refs. by rewrite lookup_insert_ne.
Qed.

Lemma load_c_inv (children : list Full.element) (st st' : Full.c_state) :
  c_inv st → Full.load_c children st = Ok st' → c_inv st'.
Proof.
  revert st. induction children as [|child children IH]; intros st Hinv; simpl.
  { by intros [= <-]. }
  pose proof (load_c_child_cases st child) as Hchild.
  destruct (Full.load_c_child st child) as [st1|] eqn:Hstep; [|done]. simpl.
  apply IH. clear IH.
  destruct (c_link child) as [l|]; [|by injection Hchild as <-].
  destruct (Full.attrib child !! "name") as [n|]; [|done].
  destruct (contains "(" n); [by injection Hchild as <-|].
  injection Hchild as ->. destruct Hinv as (Hwf & Hno & Hvalid).
  set (s := Sym n (Full.tag child) None (Some l) None).
  assert (∀ r' s', deref (Full.c_objs st, ∅) r' = Some s' →
            deref (Full.c_objs st ++ [s], ∅) r' = Some s') as Hext.
  { intros [a|k] s'; simpl; [|done]. apply lookup_app_l_Some. }
  assert (∀ r' s', deref (Full.c_objs st ++ [s], ∅) r' = Some s' →
            r' = Full.CRef (length (Full.c_objs st))
            ∨ deref (Full.c_objs st, ∅) r' = Some s') as Hnew.
  { intros [a|k] s'; simpl; [|by right].
    intros [?|[Hlen Hs]]%lookup_app_Some; [by right|]. left. f_equal.
    apply lookup_lt_Some in Hs. simpl in Hs. lia. }
  split_and!; simpl.
  - apply (links_wf_append _ (Full.c_objs st, ∅) _ _ _ s); [done| |done..].
    simpl. by rewrite lookup_app_r, Nat.sub_diag.
  - intros r' s' Hs'. destruct (Hnew _ _ Hs') as [->|Hold]; [|by eapply Hno].
    simpl in Hs'. rewrite lookup_app_r, Nat.sub_diag in Hs' by done.
    by injection Hs' as <-.
  - intros k addr. rewrite length_app. simpl.
    destruct (decide (n = k)) as [<-|Hne].
    + rewrite lookup_insert_eq. intros [= <-]. lia.
    + rewrite lookup_insert_ne by done. intros Hk%Hvalid. lia.
Qed.

Lemma c_inv_empty : c_inv (Full.CState [] ∅ ∅).
Proof.
  split_and!; simpl.
  - split.
    + intros l refs r Hl. by rewrite lookup_empty in Hl.
    + by intros [a|k] s.
  - by intros [a|k] s.
  - intros k addr Hk. by rewrite lookup_empty in Hk.
Qed.

Lemma backlinks_wf items links objs (mp : gmap string sym) :
  links_wf links (objs, mp) →
  NoDup items.*1 →
  (∀ k, k ∈ items.*1 → mp !! k = None) →
  links_wf (foldl Full.backlink links items)
    (objs, foldl (λ m (kv : string * sym), <[kv.1 := kv.2]> m) mp items).
Proof.
  revert links mp. induction items as [|[k s] items IH]; intros links mp Hwf Hnd Hfresh;
    [done|].
  cbn [foldl]. rewrite fmap_cons in Hnd. apply NoDup_cons in Hnd as [Hnin Hnd].
  assert (mp !! k = None) as Hk by (apply Hfresh; rewrite fmap_cons; by left).
  apply IH; [|done|].
  - unfold Full.backlink. simpl.
    apply (links_wf_append _ (objs, mp) _ _ _ s); [done|..|done| |].
    + simpl. apply lookup_insert_eq.
    + intros [a|k'] s'; simpl; [done|]. intros Hk'.
      rewrite lookup_insert_ne; [done|]. congruence.
    + intros [a|k'] s'; simpl; [by right|].
      destruct (decide (k = k')) as [<-|Hne]; [by left|].
      rewrite lookup_insert_ne by done. by right.
  - intros k' Hin. simpl. rewrite lookup_insert_ne.
    + apply Hfresh. rewrite fmap_cons. by right.
    + simpl in Hnin. by intros <-.
Qed.

Lemma foldl_insert_lookup {V} (items : list (string * V)) (mp : gmap string V) k :
  NoDup items.*1 →
  foldl (λ m (kv : string * V), <[kv.1 := kv.2]> m) mp items !! k
  = match (list_to_map items : gmap string V) !! k with
    | Some v => Some v
    | None => mp !! k
    end.
Proof.
  revert mp. induction items as [|[k0 v0] items IH]; intros mp Hnd; [done|].
  cbn [foldl]. rewrite fmap_cons in Hnd. apply NoDup_cons in Hnd as [Hnin Hnd].
  rewrite IH by done. simpl. destruct (decide (k0 = k)) as [<-|Hne].
  - rewrite !lookup_insert_eq.
    by rewrite (not_elem_of_list_to_map_1 _ _ Hnin).
  - by rewrite !lookup_insert_ne.
Qed.

Lemma foldl_insert_items items V (m : gmap string V) :
  enumerates items →
  foldl (λ m (kv : string * V), <[kv.1 := kv.2]> m) ∅ (items V m) = m.
Proof.
  intros Hitems. apply map_eq. intros k. rewrite foldl_insert_lookup.
  - rewrite (enumerates_to_map _ _ _ Hitems), lookup_empty. by destruct (m !! k).
  - rewrite (Hitems V m). apply NoDup_fst_map_to_list.
Qed.

Lemma resolve_alias_frame cpp_syms key cpp_syms' k :
  resolve_alias cpp_syms key = Ok cpp_syms' →
  match cpp_syms !! k with
  | Some s => ∃ s', cpp_syms' !! k = Some s' ∧ retyped s s'
  | None => cpp_syms' !! k = None
  end.
Proof.
  destruct (resolve_alias_cases cpp_syms key)
    as [[-> _]|[(s & t & other & Hs & Ha & Hne & Ht & ->)|(t & _ & _ & ->)]];
    [| |done].
  - intros [= <-]. destruct (cpp_syms !! k) as [s|]; [|done]. by exists s.
  - intros [= <-]. destruct (decide (key = k)) as [<-|Hk].
    + rewrite Hs, lookup_insert_eq. by eexists.
    + rewrite lookup_insert_ne by done.
      destruct (cpp_syms !! k) as [s'|]; [|done]. by exists s'.
Qed.

Lemma resolve_aliases_frame keys cpp_syms cpp_syms' k :
  resolve_aliases keys cpp_syms = Ok cpp_syms' →
  match cpp_syms !! k with
  | Some s => ∃ s', cpp_syms' !! k = Some s' ∧ retyped s s'
  | None => cpp_syms' !! k = None
  end.
Proof.
  revert cpp_syms. induction keys as [|key keys IH]; intros cpp_syms; simpl.
  { intros [= <-]. destruct (cpp_syms !! k) as [s|]; [|done]. by exists s. }
  destruct (resolve_alias cpp_syms key) as [m|] eqn:Hstep; [|done]. simpl.
  intros Hrun. pose proof (resolve_alias_frame _ _ _ k Hstep) as H1.
  pose proof (IH _ Hrun) as H2.
  destruct (cpp_syms !! k) as [s|].
  - destruct H1 as (s1 & Hs1 & R1). rewrite Hs1 in H2.
    destruct H2 as (s2 & Hs2 & R2). exists s2. split; [done|].
    destruct R1 as (? & ? & ?), R2 as (? & ? & ?). split_and!; congruence.
  - by rewrite H1 in H2.
Qed.

Lemma resolve_links_steps exists_ read re_header htmldir entries st st' :
  Full.resolve_links exists_ read re_header htmldir st entries = Ok st' →
  st' = foldl (header_step exists_ read re_header htmldir) st entries.
Proof.
  revert st. induction entries as [|entry entries IH]; intros st; simpl.
  { by intros [= <-]. }
  unfold header_step at 2.
  destruct (Full.resolve_link _ _ _ _ st entry) as [st1|]; [|done]. simpl. apply IH.
Qed.

Lemma header_pass_eq exists_ read re_header htmldir links link_entries st r :
  links_wf links st.1 →
  no_header st.1 →
  link_entries ≡ₚ map_to_list links →
  deref (foldl (header_step exists_ read re_header htmldir) st link_entries).1 r
  = paged (Full.page_header exists_ read re_header htmldir) <$> deref st.1 r.
Proof.
  intros Hwf Hno Hperm.
  destruct (deref (foldl _ st link_entries).1 r) as [s|] eqn:Hs.
  - destruct (header_pass_deref _ _ _ _ _ _ _ _ _ Hwf Hno Hperm Hs) as (s0 & -> & ->).
    done.
  - destruct (deref st.1 r) as [s0|] eqn:Hs0; [|done].
    exfalso. revert Hs.
    rewrite (resolve_links_deref _ _ _ _ links link_entries st r s0); [done|done|..|done].
    + rewrite Hperm. apply NoDup_fst_map_to_list.
    + apply Forall_forall. intros [l refs] Hin. simpl.
      rewrite Hperm in Hin. by apply elem_of_map_to_list in Hin.
Qed.

Lemma resolve_links_messages exists_ read re_header htmldir entries st :
  (foldl (header_step exists_ read re_header htmldir) st entries).2
  = st.2 ++ omap (page_message exists_ read re_header htmldir) entries.*1.
Proof.
  revert st. induction entries as [|entry entries IH]; intros st.
  { cbn [foldl]. simpl. by rewrite (right_id_L [] (++)). }
  cbn [foldl]. rewrite IH, fmap_cons. cbn [omap list_omap].
  unfold header_step, Full.resolve_link, page_message. cbn zeta.
  destruct (negb (exists_ _)); simpl.
  { by rewrite <- (assoc_L (++)). }
  destruct (read _) as [html|]; simpl; [|done].
  destruct (re_header _); simpl; [done|]. by rewrite <- (assoc_L (++)).
Qed.

Lemma setdefault_append_nonempty l r links :
  links_nonempty links → links_nonempty (Full.setdefault_append l r links).
Proof.
  intros Hne l' refs. unfold Full.setdefault_append.
  destruct (decide (l = l')) as [<-|Hl].
  - rewrite lookup_insert_eq. intros [= <-]. by destruct (default [] (links !! l)).
  - rewrite lookup_insert_ne by done. apply Hne.
Qed.

Lemma load_c_objs (children : list Full.element) (st st' : Full.c_state) :
  Full.load_c children st = Ok st' →
  Full.c_objs st' = Full.c_objs st ++ (omap c_record children).*2
  ∧ (links_nonempty (Full.links st) → links_nonempty (Full.links st')).
Proof.
  revert st. induction children as [|child children IH]; intros st; simpl.
  { intros [= <-]. by rewrite (right_id_L [] (++)). }
  pose proof (load_c_child_cases st child) as Hchild.
  destruct (Full.load_c_child st child) as [st1|] eqn:Hstep; [|done]. simpl.
  intros [Hobjs Hne]%IH. revert Hchild. unfold c_record.
  destruct (c_link child) as [l|]; simpl; [|by intros [= <-]].
  destruct (Full.attrib child !! "name") as [n|]; simpl; [|done].
  destruct (contains "(" n); [by intros [= <-]|].
  intros [= ->]. simpl in *. rewrite Hobjs, <- (assoc_L (++)). split; [done|].
  intros H. by apply Hne, setdefault_append_nonempty.
Qed.

Lemma backlinks_nonempty items links :
  links_nonempty links → links_nonempty (foldl Full.backlink links items).
Proof.
  revert links. induction items as [|item items IH]; intros links Hne; [done|].
  cbn [foldl]. by apply IH, setdefault_append_nonempty.
Qed.

Lemma links_wf_dom links store l :
  links_wf links store → links_nonempty links →
  is_Some (links !! l) ↔ ∃ r s, deref store r = Some s ∧ link s = l.
Proof.
  intros [Hlisted Hall] Hne. split.
  - intros [refs Hrefs]. destruct refs as [|r refs]; [by destruct (Hne _ _ Hrefs)|].
    destruct (Hlisted _ _ r Hrefs) as (s & Hs & Hl); [by left|]. by exists r, s.
  - intros (r & s & Hs & <-). destruct (Hall _ _ Hs) as (refs & -> & _). by eexists.
Qed.

Lemma tables_links xml_c items (st : Full.c_state) (resolved : gmap string sym) :
  enumerates items →
  Full.load_c xml_c (Full.CState [] ∅ ∅) = Ok st →
  links_wf (foldl Full.backlink (Full.links st) (items _ resolved))
    (Full.c_objs st, resolved)
  ∧ links_nonempty (foldl Full.backlink (Full.links st) (items _ resolved)).
Proof.
  intros Hitems Hc.
  destruct (load_c_inv _ _ _ c_inv_empty Hc) as (Hwf & Hno & Hvalid). split.
  - rewrite <- (foldl_insert_items items sym resolved Hitems) at 2.
    apply backlinks_wf.
    + destruct Hwf as [Hlisted Hall]. split; [done|].
      intros [a|k] s Hs; [by apply (Hall (Full.CRef a))|].
      simpl in Hs. by rewrite lookup_empty in Hs.
    + rewrite (Hitems _ resolved). apply NoDup_fst_map_to_list.
    + intros k _. apply lookup_empty.
  - apply backlinks_nonempty. apply (load_c_objs _ _ _ Hc).
    intros l refs Hl. simpl in Hl. done.
Qed.

(** * The whole of main *)

Section full_main.

Variable listdir : string → result (list string).
Variables open_ gzip_open : string → result (list string).
Variable xml_root : string → result (list Full.element).
Variable exists_ : string → bool.
Variable read : string → result string.
Variable create : string → result unit.
Variable write : string → string → result unit.
Variables re_include re_func re_header : string → option string.
Variable set_iter : gset string → list string.
Variable items : ∀ V, gmap string V → list (string * V).
Variable link_items :
  gmap (option string) (list Full.ref) → list (option string * list Full.ref).
Variable cppdir : string.

Local Abbreviation get_mans := (Full.get_mans listdir open_ gzip_open).
Local Abbreviation tables :=
  (Full.tables listdir open_ gzip_open xml_root exists_ read re_include re_func
     re_header items link_items cppdir).
Local Abbreviation indexes :=
  (Full.indexes listdir open_ gzip_open xml_root exists_ read re_include re_func
     re_header items link_items cppdir).
Local Abbreviation main :=
  (Full.main listdir open_ gzip_open xml_root exists_ read create write re_include
     re_func re_header set_iter items link_items cppdir).
Local Abbreviation htmldir := (cppdir +:+ "/reference/en.cppreference.com/w").
Local Abbreviation page := (Full.page_header exists_ read re_header htmldir).

(** The passes of [tables], one after the other. *)
Lemma tables_unfold man_syms c_syms cpp_syms err :
  tables = Ok (man_syms, c_syms, cpp_syms, err) →
  ∃ mans3 mans2 c_nodes cpp_nodes st loaded resolved objs,
    get_mans 3 "/usr/share/man" = Ok mans3
    ∧ get_mans 2 "/usr/share/man" = Ok mans2
    ∧ xml_root (cppdir +:+ "/index-functions-c.xml") = Ok c_nodes
    ∧ Full.load_c c_nodes (Full.CState [] ∅ ∅) = Ok st
    ∧ xml_root (cppdir +:+ "/index-functions-cpp.xml") = Ok cpp_nodes
    ∧ Full.load_cpp cpp_nodes ∅ = Ok loaded
    ∧ resolve_aliases (items _ loaded).*1 loaded = Ok resolved
    ∧ man_syms = (load_mans re_include re_func (mans3 ++ mans2) (∅, [])).1
    ∧ foldl (header_step exists_ read re_header htmldir)
        (Full.c_objs st, resolved,
         Full.Diag <$> (load_mans re_include re_func (mans3 ++ mans2) (∅, [])).2)
        (link_items (foldl Full.backlink (Full.links st) (items _ resolved)))
      = (objs, cpp_syms, err)
    ∧ c_syms = omap (λ addr, objs !! addr) (Full.c_refs st).
Proof.
  unfold Full.tables.
  destruct (Full.get_mans _ _ _ 3 _) as [mans3|] eqn:H3; [|done]. simpl.
  destruct (Full.get_mans _ _ _ 2 _) as [mans2|] eqn:H2; [|done]. simpl.
  destruct (load_mans _ _ _ _) as [man e] eqn:Hman.
  destruct (xml_root (cppdir +:+ "/index-functions-c.xml")) as [c_nodes|] eqn:Hxc;
    [|done].
  simpl. destruct (Full.load_c _ _) as [st|] eqn:Hc; [|done]. simpl.
  destruct (xml_root (cppdir +:+ "/index-functions-cpp.xml")) as [cpp_nodes|] eqn:Hxcpp;
    [|done].
  simpl. destruct (Full.load_cpp _ _) as [loaded|] eqn:Hcpp; [|done]. simpl.
  destruct (resolve_aliases _ _) as [resolved|] eqn:Hres; [|done]. simpl.
  destruct (Full.resolve_links _ _ _ _ _ _) as [[[objs cpp'] err']|] eqn:Hfold; [|done].
  simpl. intros [= <- <- <- <-].
  exists mans3, mans2, c_nodes, cpp_nodes, st, loaded, resolved, objs.
  rewrite Hman. simpl. split_and!; try done.
  symmetry. by apply resolve_links_steps.
Qed.

(** What [tables] comes to, from what the passes leave. *)
Lemma tables_spec man_syms c_syms cpp_syms err :
  enumerates items →
  (∀ links, link_items links ≡ₚ map_to_list links) →
  tables = Ok (man_syms, c_syms, cpp_syms, err) →
  ∃ c_nodes cpp_nodes loaded resolved,
    xml_root (cppdir +:+ "/index-functions-c.xml") = Ok c_nodes
    ∧ xml_root (cppdir +:+ "/index-functions-cpp.xml") = Ok cpp_nodes
    ∧ loaded = list_to_map (reverse (omap cpp_record cpp_nodes))
    ∧ resolve_aliases (items _ loaded).*1 loaded = Ok resolved
    ∧ c_syms = paged page <$> list_to_map (reverse (omap c_record c_nodes))
    ∧ cpp_syms = paged page <$> resolved.
Proof.
  intros Hitems Hlinks Hrun.
  destruct (tables_unfold _ _ _ _ Hrun)
    as (mans3 & mans2 & c_nodes & cpp_nodes & st & loaded & resolved & objs
        & _ & _ & Hxc & Hc & Hxcpp & Hcpp & Hres & _ & Hfold & ->).
  exists c_nodes, cpp_nodes, loaded, resolved.
  pose proof (load_cpp_table cpp_nodes ∅) as Htable.
  rewrite Hcpp in Htable. destruct Htable as [_ Hloaded].
  rewrite (right_id_L ∅ (∪)) in Hloaded.
  do 4 (split; [done|]).
  destruct (load_c_inv _ _ _ c_inv_empty Hc) as (Hwf & Hno & Hvalid).
  destruct (tables_links _ items st resolved Hitems Hc) as [Hwf2 _].
  assert (no_header (Full.c_objs st, resolved)) as Hno2.
  { intros [a|k] s Hs; [by apply (Hno (Full.CRef a))|]. simpl in Hs.
    pose proof (resolve_aliases_frame _ _ _ k Hres) as Hframe.
    destruct (loaded !! k) as [s1|] eqn:Hs1; [|congruence].
    destruct Hframe as (s' & Hs' & _ & _ & Hhdr). rewrite Hs in Hs'.
    injection Hs' as <-. rewrite Hhdr. subst loaded.
    apply elem_of_list_to_map_2, elem_of_reverse, list_elem_of_omap in Hs1
      as (child & _ & Hrec).
    unfold cpp_record in Hrec.
    destruct (Full.attrib child !! "name") as [n|]; [|done]. simpl in Hrec.
    destruct (contains "(" n); [done|]. by injection Hrec as _ <-. }
  pose proof (λ r, header_pass_eq exists_ read re_header htmldir _ _
    (Full.c_objs st, resolved,
     Full.Diag <$> (load_mans re_include re_func (mans3 ++ mans2) (∅, [])).2)
    r Hwf2 Hno2 (Hlinks _)) as Hpass.
  rewrite Hfold in Hpass. simpl in Hpass. split.
  - assert (c_table_of st
            = list_to_map (reverse (omap c_record c_nodes))
              ∪ c_table_of (Full.CState [] ∅ ∅)) as Hct.
    { apply load_c_table; [|done]. intros k addr Hk. simpl in Hk. done. }
    unfold c_table_of in Hct. simpl in Hct.
    rewrite omap_empty, (right_id_L ∅ (∪)) in Hct. rewrite <- Hct.
    apply map_eq. intros k. rewrite lookup_fmap, !lookup_omap.
    destruct (Full.c_refs st !! k) as [addr|]; [|done]. simpl.
    apply (Hpass (Full.CRef addr)).
  - apply map_eq. intros k. rewrite lookup_fmap. apply (Hpass (Full.CppRef k)).
Qed.

(** X20: when [main] gets past the header pass, its C table is the catalog's
    records, the last node of a name winning, each with the header that the
    page of its link gives: the records that were overwritten, though still
    listed under their links, take nothing away from it. *)
Theorem tables_c_records man_syms c_syms cpp_syms err :
  enumerates items →
  (∀ links, link_items links ≡ₚ map_to_list links) →
  tables = Ok (man_syms, c_syms, cpp_syms, err) →
  ∃ c_nodes,
    xml_root (cppdir +:+ "/index-functions-c.xml") = Ok c_nodes
    ∧ c_syms = paged page <$> list_to_map (reverse (omap c_record c_nodes)).
Proof.
  intros Hitems Hlinks Hrun.
  destruct (tables_spec _ _ _ _ Hitems Hlinks Hrun)
    as (c_nodes & cpp_nodes & loaded & resolved & Hxc & _ & _ & _ & -> & _).
  by exists c_nodes.
Qed.

(** X21: every record of the C++ table that the header pass leaves is stored
    under its own name, comes from a node of the catalog that has this name
    and its alias, and has the header that the page of its final link gives:
    no header at all when the page is missing or declares none. *)
Theorem tables_cpp_records man_syms c_syms cpp_syms err k s :
  enumerates items →
  (∀ links, link_items links ≡ₚ map_to_list links) →
  tables = Ok (man_syms, c_syms, cpp_syms, err) →
  cpp_syms !! k = Some s →
  name s = k
  ∧ header s = page (link s)
  ∧ ∃ cpp_nodes child,
      xml_root (cppdir +:+ "/index-functions-cpp.xml") = Ok cpp_nodes
      ∧ child ∈ cpp_nodes
      ∧ Full.attrib child !! "name" = Some k
      ∧ contains "(" k = false
      ∧ alias s = Full.attrib child !! "alias".
Proof.
  intros Hitems Hlinks Hrun.
  destruct (tables_spec _ _ _ _ Hitems Hlinks Hrun)
    as (c_nodes & cpp_nodes & loaded & resolved & _ & Hxcpp & Hloaded & Hres & _ & ->).
  rewrite lookup_fmap. destruct (resolved !! k) as [s2|] eqn:Hs2; [|done].
  intros [= <-]. simpl.
  pose proof (resolve_aliases_frame _ _ _ k Hres) as Hframe.
  destruct (loaded !! k) as [s1|] eqn:Hs1; [|congruence].
  destruct Hframe as (s' & Hs' & Hname & Halias & _). rewrite Hs2 in Hs'.
  injection Hs' as <-. rewrite Hname, Halias. subst loaded.
  apply elem_of_list_to_map_2, elem_of_reverse, list_elem_of_omap in Hs1
    as (child & Hin & Hrec).
  unfold cpp_record in Hrec.
  destruct (Full.attrib child !! "name") as [n|] eqn:Hn; [|done]. simpl in Hrec.
  destruct (contains "(" n) eqn:Hparen; [done|]. injection Hrec as -> <-. simpl.
  split_and!; [done..|]. by exists cpp_nodes, child.
Qed.

(** X22: a record of the C++ catalog whose alias names a record that has no
    alias itself ends, after the header pass, with the composite type, the
    link of the record it names and the header of that record's page; the
    record it names keeps its type and link. *)
Theorem tables_alias_header man_syms c_syms cpp_syms err cpp_nodes
    key target s other :
  enumerates items →
  (∀ links, link_items links ≡ₚ map_to_list links) →
  tables = Ok (man_syms, c_syms, cpp_syms, err) →
  xml_root (cppdir +:+ "/index-functions-cpp.xml") = Ok cpp_nodes →
  (list_to_map (reverse (omap cpp_record cpp_nodes)) : gmap string sym) !! key
  = Some s →
  alias s = Some target →
  target ≠ EmptyString →
  (list_to_map (reverse (omap cpp_record cpp_nodes)) : gmap string sym) !! target
  = Some other →
  truthy (alias other) = false →
  cpp_syms !! key
  = Some (Sym (name s) (type s +:+ "(" +:+ type other +:+ ")") (alias s) (link other)
              (page (link other)))
  ∧ cpp_syms !! target
    = Some (Sym (name other) (type other) (alias other) (link other)
                (page (link other))).
Proof.
  intros Hitems Hlinks Hrun Hxml Hs Halias Hne Hother Hplain.
  destruct (tables_spec _ _ _ _ Hitems Hlinks Hrun)
    as (c_nodes & cpp_nodes' & loaded & resolved & _ & Hxcpp & Hloaded & Hres & _ & ->).
  rewrite Hxml in Hxcpp. injection Hxcpp as <-.
  rewrite <- Hloaded in Hs, Hother. rewrite !lookup_fmap.
  rewrite (resolve_aliases_hop _ _ _ key target s other Hres); try done.
  - by rewrite (resolve_aliases_plain _ _ _ target other Hres).
  - rewrite (Hitems _ loaded). apply NoDup_fst_map_to_list.
  - apply list_elem_of_fmap. exists (key, s). split; [done|].
    rewrite (Hitems _ loaded). by apply elem_of_map_to_list.
Qed.

(** X23: in the indexes that [main] computes from the directory of the
    catalogs, every name of the C index has a non-empty set of headers, and
    every name of the C++ index has one or redirects to a name of the index
    that has one. *)
Theorem indexes_resolve c_index cpp_index out err :
  enumerates items →
  indexes = Ok (c_index, cpp_index, out, err) →
  all_hdrs c_index ∧ resolves cpp_index.
Proof.
  intros Hitems. unfold Full.indexes.
  destruct tables as [[[[man c] cpp] err0]|] eqn:Htab; [|done]. simpl.
  destruct (tables_unfold _ _ _ _ Htab)
    as (mans3 & mans2 & ? & ? & ? & ? & ? & ? & _ & _ & _ & _ & _ & _ & _ & Hman & _ & _).
  pose proof (load_mans_nonempty re_include re_func (mans3 ++ mans2) (∅, [])) as Hne.
  rewrite <- Hman in Hne. specialize (Hne ltac:(by intros ? ? ?)).
  destruct (filter_syms (Catalog c) _ _ _ _) as [[c1 err1]|] eqn:Hc; [|done].
  simpl.
  destruct (filter_syms (Filtered c1) _ _ _ _) as [[cpp1 err2]|] eqn:Hcpp; [|done].
  simpl.
  apply filter_syms_hdrs in Hc; [|by intros ? ? ?].
  apply filter_syms_hdrs in Hcpp; [|by intros ? ? ?].
  destruct (merge_mans_hdrs (items _ man) (c1, cpp1)) as [Hc2 Hcpp2];
    [|exact Hc|exact Hcpp|].
  { eapply Forall_impl; [by apply enumerates_lookup|]. intros [k h]. apply Hne. }
  destruct (merge_mans _ _) as [c2 cpp2]. simpl in Hc2, Hcpp2.
  pose proof (decanonicalize_inv cpp2 (items _ cpp2) (cpp2, err2)
                (enumerates_lookup _ _ _ Hitems)) as Hdec.
  destruct (decanonicalize _ _) as [cpp3 err3]. simpl in Hdec.
  intros [= <- <- <- <-]. split; [done|].
  apply (decanonicalized_resolves cpp2); [done|]. apply Hdec.
  split; [done|]. intros name v Hv. by left.
Qed.

End full_main.

Lemma load_c_raises (children : list Full.element) (st : Full.c_state) e :
  Full.load_c children st = Raise e → e = KeyError "name".
Proof.
  revert st. induction children as [|child children IH]; intros st; simpl; [done|].
  pose proof (load_c_child_cases st child) as Hchild.
  destruct (Full.load_c_child st child) as [st'|e'] eqn:Hstep; simpl; [by apply IH|].
  destruct (c_link child) as [l|]; [|done].
  destruct (Full.attrib child !! "name") as [n|]; [by destruct (contains "(" n)|].
  injection Hchild as ->. by intros [= <-].
Qed.

Lemma resolve_aliases_raises keys cpp_syms e :
  resolve_aliases keys cpp_syms = Raise e → ∃ target, e = KeyError target.
Proof.
  revert cpp_syms. induction keys as [|k keys IH]; intros cpp_syms; simpl; [done|].
  destruct (resolve_alias_cases cpp_syms k)
    as [[Hstep _]|[(s & t & other & _ & _ & _ & _ & Hstep)|(t & _ & _ & Hstep)]];
    rewrite Hstep; simpl; [by apply IH..|].
  intros [= <-]. by exists t.
Qed.

Lemma filter_syms_catalog_cases c_syms man_syms lang items acc :
  (filter_syms (Catalog c_syms) man_syms lang items acc = Raise TypeError
   ∧ ∃ item, item ∈ items ∧ c_crash c_syms item)
  ∨ ((∃ r, filter_syms (Catalog c_syms) man_syms lang items acc = Ok r)
     ∧ ∀ item, item ∈ items → ¬ c_crash c_syms item).
Proof.
  revert acc. induction items as [|item items IH]; intros acc; simpl.
  { right. split; [by eexists|]. by intros item ?%elem_of_nil. }
  destruct (filter_sym_catalog c_syms man_syms lang item)
    as [[Hcrash ->]|[Hok [r ->]]]; simpl.
  - left. split; [done|]. exists item. split; [by left|done].
  - destruct (IH (match r.1 with
                  | Some (name, v) => <[name:=v]> acc.1
                  | None => acc.1
                  end, acc.2 ++ r.2)) as [[-> (it & Hin & Hc)]|[Hr Hnone]].
    + left. split; [done|]. exists it. split; [by right|done].
    + right. split; [done|]. by intros it [->|Hin]%elem_of_cons; [|apply Hnone].
Qed.

Lemma write_index_total set_iter items name syms :
  ∃ out, write_index set_iter items name syms = Ok out.
Proof.
  unfold write_index, make_happy_tree. rewrite do_node_render.
  destruct (node_tree_inorder (S (length (sort_by_name (items value syms))))
              (sort_by_name (items value syms)) 0
              (length (sort_by_name (items value syms))))
    as (t & Ht & _); [lia..|].
  change (Z.of_nat 0) with 0 in Ht. rewrite Ht. simpl. by eexists.
Qed.

Section full_main_errors.

Variable listdir : string → result (list string).
Variables open_ gzip_open : string → result (list string).
Variable xml_root : string → result (list Full.element).
Variable exists_ : string → bool.
Variable read : string → result string.
Variable create : string → result unit.
Variable write : string → string → result unit.
Variables re_include re_func re_header : string → option string.
Variable set_iter : gset string → list string.
Variable items : ∀ V, gmap string V → list (string * V).
Variable link_items :
  gmap (option string) (list Full.ref) → list (option string * list Full.ref).
Variable cppdir : string.

Local Abbreviation get_mans := (Full.get_mans listdir open_ gzip_open).
Local Abbreviation tables :=
  (Full.tables listdir open_ gzip_open xml_root exists_ read re_include re_func
     re_header items link_items cppdir).
Local Abbreviation indexes :=
  (Full.indexes listdir open_ gzip_open xml_root exists_ read re_include re_func
     re_header items link_items cppdir).
Local Abbreviation main :=
  (Full.main listdir open_ gzip_open xml_root exists_ read create write re_include
     re_func re_header set_iter items link_items cppdir).
Local Abbreviation htmldir := (cppdir +:+ "/reference/en.cppreference.com/w").
Local Abbreviation env_raises :=
  (environment_raises listdir open_ gzip_open xml_root read create write).

Lemma open_mans_raises level root names e :
  Full.open_mans open_ gzip_open level root names = Raise e →
  (∃ path, open_ path = Raise e) ∨ (∃ path, gzip_open path = Raise e).
Proof.
  induction names as [|name names IH]; simpl; [done|].
  destruct (Full.endswith _ _).
  { destruct (gzip_open _) as [text|e'] eqn:Hopen; simpl.
    - destruct (Full.open_mans _ _ _ _ _) as [mans|]; simpl; [done|]. apply IH.
    - intros [= <-]. right. by eexists. }
  destruct (Full.endswith _ _); [|apply IH].
  destruct (open_ _) as [text|e'] eqn:Hopen; simpl.
  - destruct (Full.open_mans _ _ _ _ _) as [mans|]; simpl; [done|]. apply IH.
  - intros [= <-]. left. by eexists.
Qed.

Lemma get_mans_raises level root e :
  get_mans level root = Raise e → env_raises e.
Proof.
  unfold Full.get_mans, environment_raises.
  destruct (listdir _) as [names|e'] eqn:Hlist; simpl.
  - intros [?|?]%open_mans_raises; auto.
  - intros [= <-]. left. by eexists.
Qed.

Lemma resolve_links_raises dir entries st e :
  Full.resolve_links exists_ read re_header dir st entries = Raise e →
  ∃ path, read path = Raise e.
Proof.
  revert st. induction entries as [|entry entries IH]; intros st; simpl; [done|].
  destruct (Full.resolve_link _ _ _ _ st entry) as [st1|e'] eqn:Hstep; simpl.
  { apply IH. }
  intros [= <-]. revert Hstep. unfold Full.resolve_link. cbn zeta.
  destruct (negb (exists_ _)); [done|].
  destruct (read _) as [html|e2] eqn:Hread; simpl.
  - by destruct (re_header html).
  - intros [= <-]. by eexists.
Qed.

(** What the passes before the filtering raise. *)
Lemma tables_raises e :
  tables = Raise e → (∃ key, e = KeyError key) ∨ env_raises e.
Proof.
  unfold Full.tables.
  destruct (Full.get_mans _ _ _ 3 _) as [mans3|e'] eqn:H3; simpl.
  2:{ intros [= <-]. right. by eapply get_mans_raises. }
  destruct (Full.get_mans _ _ _ 2 _) as [mans2|e'] eqn:H2; simpl.
  2:{ intros [= <-]. right. by eapply get_mans_raises. }
  destruct (load_mans _ _ _ _) as [man e0].
  destruct (xml_root (cppdir +:+ "/index-functions-c.xml")) as [c_nodes|e'] eqn:Hxc;
    simpl.
  2:{ intros [= <-]. right. unfold environment_raises. do 3 right. left. by eexists. }
  destruct (Full.load_c _ _) as [st|e1] eqn:Hc; simpl.
  2:{ intros [= <-]. apply load_c_raises in Hc as ->. left. by eexists. }
  destruct (xml_root (cppdir +:+ "/index-functions-cpp.xml")) as [cpp_nodes|e'] eqn:Hxcpp;
    simpl.
  2:{ intros [= <-]. right. unfold environment_raises. do 3 right. left. by eexists. }
  pose proof (load_cpp_table cpp_nodes ∅) as Hcpp.
  destruct (Full.load_cpp _ _) as [loaded|e2]; simpl.
  2:{ intros [= <-]. destruct Hcpp as [-> _]. left. by eexists. }
  destruct (resolve_aliases _ _) as [resolved|e3] eqn:Hres; simpl.
  2:{ intros [= <-]. left. by apply resolve_aliases_raises in Hres. }
  destruct (Full.resolve_links _ _ _ _ _ _) as [[[objs cpp'] err']|e4] eqn:Hfold;
    simpl; [done|].
  intros [= <-]. right. apply resolve_links_raises in Hfold.
  unfold environment_raises. do 4 right. by left.
Qed.

Lemma write_file_cases name syms :
  ∃ text, write_index set_iter items name syms = Ok text
    ∧ Full.write_file create write set_iter items name syms
      = (_ ← create (name +:+ ".el"); _ ← write (name +:+ ".el") text; Ok text).
Proof.
  destruct (write_index_total set_iter items name syms) as [text Htext].
  exists text. split; [done|]. unfold Full.write_file. by rewrite Htext.
Qed.

(** What [main] does once the header pass is over: it raises the type error
    when the first filtering meets an item that makes the salvage test fail;
    otherwise it computes the two texts, and the rest is with the
    environment. *)
Lemma main_after_tables man_syms c_syms cpp_syms err :
  tables = Ok (man_syms, c_syms, cpp_syms, err) →
  ((∃ item, item ∈ items _ c_syms ∧ c_crash c_syms item)
   ∧ main = Raise TypeError)
  ∨ ((∀ item, item ∈ items _ c_syms → ¬ c_crash c_syms item)
     ∧ ∃ c_index cpp_index out err_all c_el cpp_el,
         indexes = Ok (c_index, cpp_index, out, err_all)
         ∧ write_index set_iter items "includeme-index-c" c_index = Ok c_el
         ∧ write_index set_iter items "includeme-index-cpp" cpp_index = Ok cpp_el
         ∧ main
           = (_ ← create "includeme-index-c.el";
              _ ← write "includeme-index-c.el" c_el;
              _ ← create "includeme-index-cpp.el";
              _ ← write "includeme-index-cpp.el" cpp_el;
              Ok (c_el, cpp_el, out, err_all))).
Proof.
  intros Htab. unfold Full.main, Full.indexes. rewrite Htab. simpl.
  destruct (filter_syms_catalog_cases c_syms man_syms "C" (items _ c_syms) (∅, []))
    as [[Hc Hcrash]|[[[c1 err1] Hc] Hnone]]; rewrite Hc; simpl; [by left|].
  right. split; [done|].
  apply filter_syms_hdrs in Hc; [|by intros ? ? ?].
  destruct (filter_syms_cpp_total c1 man_syms "C++" (items _ cpp_syms) (∅, err1))
    as (cpp1 & err2 & ->).
  { intros k v Hv. destruct (Hc _ _ Hv) as (hdrs & -> & _). by exists hdrs. }
  simpl. destruct (merge_mans _ _) as [c2 cpp2].
  destruct (decanonicalize _ _) as [cpp3 err3]. simpl.
  destruct (write_file_cases "includeme-index-c" c2) as (c_el & Hc_el & ->).
  destruct (write_file_cases "includeme-index-cpp" cpp3) as (cpp_el & Hcpp_el & ->).
  eexists _, _, _, _, c_el, cpp_el. split_and!; [done..|].
  change ("includeme-index-c" +:+ ".el") with "includeme-index-c.el".
  change ("includeme-index-cpp" +:+ ".el") with "includeme-index-cpp.el".
  destruct (create "includeme-index-c.el") as [[]|]; simpl; [|done].
  destruct (write "includeme-index-c.el" c_el) as [[]|]; simpl; [|done].
  destruct (create "includeme-index-cpp.el") as [[]|]; simpl; [|done].
  by destruct (write "includeme-index-cpp.el" cpp_el) as [[]|].
Qed.

(** X24: when the standard output and error take what is printed, [main]
    raises nothing but the type error of the salvage test, the lookup errors
    of the catalogs and what the environment raised in one of its calls: the
    serializer never indexes out of its list and never runs out of
    depth. *)
Theorem main_raises e :
  main = Raise e →
  e = TypeError ∨ (∃ key, e = KeyError key) ∨ env_raises e.
Proof.
  destruct tables as [[[[man c] cpp] err]|e'] eqn:Htab.
  - destruct (main_after_tables _ _ _ _ Htab)
      as [[_ ->]|[_ (c_index & cpp_index & out & err_all & c_el & cpp_el
                     & _ & _ & _ & ->)]].
    { intros [= <-]. by left. }
    intros Hraise. right. right. unfold environment_raises. revert Hraise.
    destruct (create "includeme-index-c.el") as [[]|e1] eqn:H1; simpl.
    2:{ intros [= <-]. do 5 right. left. by eexists. }
    destruct (write "includeme-index-c.el" c_el) as [[]|e2] eqn:H2; simpl.
    2:{ intros [= <-]. do 6 right. by eexists _, _. }
    destruct (create "includeme-index-cpp.el") as [[]|e3] eqn:H3; simpl.
    2:{ intros [= <-]. do 5 right. left. by eexists. }
    destruct (write "includeme-index-cpp.el" cpp_el) as [[]|e4] eqn:H4; simpl; [done|].
    intros [= <-]. do 6 right. by eexists _, _.
  - unfold Full.main, Full.indexes. rewrite Htab. simpl. intros [= <-].
    right. by apply tables_raises.
Qed.

(** X25: once the header pass is over, [main] raises the type error when an
    item of the C table has no header and is named [std::] followed by a
    name of that table, and no file is opened then; otherwise the two
    indexes and their texts are computed without an error, and [main]
    returns exactly when the environment lets it open and write the first
    file, then the second: it raises what the first of these calls to fail
    raises. *)
Theorem main_outcome man_syms c_syms cpp_syms err :
  tables = Ok (man_syms, c_syms, cpp_syms, err) →
  ((∃ item, item ∈ items _ c_syms ∧ c_crash c_syms item) →
   main = Raise TypeError)
  ∧ ((∀ item, item ∈ items _ c_syms → ¬ c_crash c_syms item) →
     ∃ c_index cpp_index out err_all c_el cpp_el,
       indexes = Ok (c_index, cpp_index, out, err_all)
       ∧ write_index set_iter items "includeme-index-c" c_index = Ok c_el
       ∧ write_index set_iter items "includeme-index-cpp" cpp_index = Ok cpp_el
       ∧ main
         = (_ ← create "includeme-index-c.el";
            _ ← write "includeme-index-c.el" c_el;
            _ ← create "includeme-index-cpp.el";
            _ ← write "includeme-index-cpp.el" cpp_el;
            Ok (c_el, cpp_el, out, err_all))).
Proof.
  intros Htab.
  destruct (main_after_tables _ _ _ _ Htab) as [[Hcrash Hraise]|[Hnone Hrun]].
  - split; [done|]. intros Hnone. destruct Hcrash as (item & Hin & Hcrash).
    by destruct (Hnone item Hin).
  - split; [|done]. intros (item & Hin & Hcrash). by destruct (Hnone item Hin).
Qed.

(** X26: what the passes before the filtering print is the messages of the
    man pages, in their order, and after them the lines of the header pass:
    the links are taken each once, in one order, and a link whose page is
    missing or declares no header gives one line; the links are those of
    the records of the C++ table and of the nodes kept from the C catalog,
    also of a node whose record a later node of the same name has
    replaced. *)
Theorem tables_messages man_syms c_syms cpp_syms err :
  enumerates items →
  (∀ links, link_items links ≡ₚ map_to_list links) →
  tables = Ok (man_syms, c_syms, cpp_syms, err) →
  ∃ mans3 mans2 c_nodes ls,
    get_mans 3 "/usr/share/man" = Ok mans3
    ∧ get_mans 2 "/usr/share/man" = Ok mans2
    ∧ xml_root (cppdir +:+ "/index-functions-c.xml") = Ok c_nodes
    ∧ err
      = (Full.Diag <$> (load_mans re_include re_func (mans3 ++ mans2) (∅, [])).2)
        ++ omap (page_message exists_ read re_header htmldir) ls
    ∧ NoDup ls
    ∧ ∀ l, l ∈ ls
        ↔ (∃ child k s, child ∈ c_nodes ∧ c_record child = Some (k, s) ∧ link s = l)
          ∨ (∃ k s, cpp_syms !! k = Some s ∧ link s = l).
Proof.
  intros Hitems Hlinks Hrun.
  destruct (tables_spec listdir open_ gzip_open xml_root exists_ read re_include
              re_func re_header items link_items cppdir _ _ _ _ Hitems Hlinks Hrun)
    as (c_nodes' & cpp_nodes' & loaded' & resolved' & Hxc' & _ & _ & Hres' & _ & Hfinal).
  destruct (tables_unfold listdir open_ gzip_open xml_root exists_ read re_include
              re_func re_header items link_items cppdir _ _ _ _ Hrun)
    as (mans3 & mans2 & c_nodes & cpp_nodes & st & loaded & resolved & objs
        & H3 & H2 & Hxc & Hc & Hxcpp & Hcpp & Hres & _ & Hfold & _).
  exists mans3, mans2, c_nodes,
    (link_items (foldl Full.backlink (Full.links st) (items _ resolved))).*1.
  pose proof (resolve_links_messages exists_ read re_header htmldir
    (link_items (foldl Full.backlink (Full.links st) (items _ resolved)))
    (Full.c_objs st, resolved,
     Full.Diag <$> (load_mans re_include re_func (mans3 ++ mans2) (∅, [])).2)) as Hmsg.
  rewrite Hfold in Hmsg. simpl in Hmsg.
  split_and!; [done..| |].
  { rewrite (Hlinks _). apply NoDup_fst_map_to_list. }
  assert (cpp_syms
          = paged (Full.page_header exists_ read re_header htmldir) <$> resolved)
    as Hcpp_syms.
  { pose proof (load_cpp_table cpp_nodes ∅) as Htable.
    rewrite Hcpp in Htable. destruct Htable as [_ Hloaded].
    rewrite (right_id_L ∅ (∪)) in Hloaded.
    destruct (tables_spec listdir open_ gzip_open xml_root exists_ read re_include
                re_func re_header items link_items cppdir _ _ _ _ Hitems Hlinks Hrun)
      as (? & cpp_nodes2 & loaded2 & resolved2 & _ & Hx2 & -> & Hres2 & _ & ->).
    rewrite Hxcpp in Hx2. injection Hx2 as <-. rewrite <- Hloaded, Hres in Hres2.
    by injection Hres2 as <-. }
  destruct (tables_links _ items st resolved Hitems Hc) as [Hwf Hne].
  pose proof (load_c_objs _ _ _ Hc) as [Hobjs _]. simpl in Hobjs.
  intros l. split.
  - intros Hin. apply list_elem_of_fmap in Hin as ([l' refs] & -> & Hin). simpl.
    rewrite (Hlinks _) in Hin. apply elem_of_map_to_list in Hin.
    destruct (proj1 (links_wf_dom _ _ l' Hwf Hne)) as (r & s & Hs & Hl); [by eexists|].
    destruct r as [a|k]; simpl in Hs.
    + left. rewrite Hobjs in Hs. apply list_elem_of_lookup_2 in Hs.
      apply list_elem_of_fmap in Hs as ([k s'] & -> & Hrec).
      apply list_elem_of_omap in Hrec as (child & Hchild & Hrec). by exists child, k, s'.
    + right. exists k, (paged (Full.page_header exists_ read re_header htmldir) s).
      split; [|done]. by rewrite Hcpp_syms, lookup_fmap, Hs.
  - intros Hl.
    assert (is_Some (foldl Full.backlink (Full.links st) (items _ resolved) !! l))
      as [refs Hrefs].
    { apply (links_wf_dom _ _ l Hwf Hne).
      destruct Hl as [(child & k & s & Hchild & Hrec & Hl)|(k & s & Hs & Hl)].
      - assert (s ∈ Full.c_objs st) as [a Ha]%list_elem_of_lookup_1.
        { rewrite Hobjs. apply list_elem_of_fmap. exists (k, s). split; [done|].
          apply list_elem_of_omap. by exists child. }
        by exists (Full.CRef a), s.
      - rewrite Hcpp_syms, lookup_fmap in Hs.
        destruct (resolved !! k) as [s0|] eqn:Hs0; [|done]. injection Hs as <-.
        by exists (Full.CppRef k), s0. }
    apply list_elem_of_fmap. exists (l, refs). split; [done|].
    rewrite (Hlinks _). by apply elem_of_map_to_list.
Qed.

End full_main_errors.

(** ** The header of a page *)

Lemma remove_sub_skip (old p s : string) :
  Full.remove_sub old (String.length p) (p +:+ s) = Full.remove_sub old 0 s.
Proof.
  induction p as [|a p IH]; [done|].
  change (String a p +:+ s) with (String a (p +:+ s)). simpl. exact IH.
Qed.

(** X28: the removal that the header pass applies to the header of a page
    leaves a text without the entity as it is, and drops an occurrence that
    the text starts with, going on after it. *)
Theorem remove_sub_spec (old s : string) :
  (contains old s = false → Full.remove_sub old 0 s = s)
  ∧ (old ≠ EmptyString →
     Full.remove_sub old 0 (old +:+ s) = Full.remove_sub old 0 s).
Proof.
  split.
  - induction s as [|c s IH]; [done|]. cbn [contains Full.remove_sub].
    intros [Hhead Htail]%orb_false_elim. rewrite Hhead. f_equal. by apply IH.
  - destruct old as [|c old]; [done|]. intros _.
    change (String c old +:+ s) with (String c (old +:+ s)).
    cbn [Full.remove_sub].
    change (String c (old +:+ s)) with (String c old +:+ s).
    rewrite startswith_app. cbn [String.length]. rewrite Nat.sub_1_r. simpl Nat.pred.
    apply remove_sub_skip.
Qed.


(** * The small site *)

Lemma site_load_c :
  Full.load_c Site.c_nodes (Full.CState [] ∅ ∅) = Ok Site.c_state.
Proof. vm_compute. reflexivity. Qed.

Lemma site_tables :
  Full.tables Site.listdir Site.open_ Site.gzip_open Site.xml_root Site.exists_
    Site.read Example.re_include Example.re_func Site.re_header Example.items
    Site.link_items "/doc"
  = Ok (Site.man_syms, Site.c_syms, Site.cpp_syms, Site.err).
Proof. vm_compute. reflexivity. Qed.

Lemma site_indexes :
  Full.indexes Site.listdir Site.open_ Site.gzip_open Site.xml_root Site.exists_
    Site.read Example.re_include Example.re_func Site.re_header Example.items
    Site.link_items "/doc"
  = Ok (Site.c_index, Site.cpp_index, Site.out, Site.err_all).
Proof. vm_compute. reflexivity. Qed.

(** A dangling alias in the C++ catalog. *)
Lemma site_dangling :
  Full.main Site.listdir Site.open_ Site.gzip_open Site.xml_dangling Site.exists_
    Site.read Site.create Site.write Example.re_include Example.re_func
    Site.re_header elements Example.items Site.link_items "/doc"
  = Raise (KeyError "std::basic_string").
Proof. vm_compute. reflexivity. Qed.

(** No directory of man pages. *)
Lemma site_no_man :
  Full.main Site.listdir_none Site.open_ Site.gzip_open Site.xml_root Site.exists_
    Site.read Site.create Site.write Example.re_include Example.re_func
    Site.re_header elements Example.items Site.link_items "/doc"
  = Raise OSError.
Proof. vm_compute. reflexivity. Qed.

(** The second file cannot be opened. *)
Lemma site_no_second_file :
  Full.main Site.listdir Site.open_ Site.gzip_open Site.xml_root Site.exists_
    Site.read Site.create_one Site.write Example.re_include Example.re_func
    Site.re_header elements Example.items Site.link_items "/doc"
  = Raise IOError.
Proof. vm_compute. reflexivity. Qed.

Lemma site_items : enumerates Example.items.
Proof. intros V m. reflexivity. Qed.

Lemma site_link_items links : Site.link_items links ≡ₚ map_to_list links.
Proof. reflexivity. Qed.

Lemma site_cpp_loaded :
  (list_to_map (reverse (omap cpp_record Site.cpp_nodes)) : gmap string sym)
    !! "std::string"
  = Some (Sym "std::string" "typedef" (Some "std::basic_string") None None)
  ∧ (list_to_map (reverse (omap cpp_record Site.cpp_nodes)) : gmap string sym)
      !! "std::basic_string"
    = Some (Sym "std::basic_string" "class" None (Some "cpp/string/basic_string") None).
Proof. split; vm_compute; reflexivity. Qed.

Lemma site_cpp_string :
  Site.cpp_syms !! "std::string"
  = Some (Sym "std::string" "typedef(class)" (Some "std::basic_string")
            (Some "cpp/string/basic_string") (Some "string")).
Proof. vm_compute. reflexivity. Qed.

Lemma site_xml_cpp :
  Site.xml_root ("/doc" +:+ "/index-functions-cpp.xml") = Ok Site.cpp_nodes.
Proof. vm_compute. reflexivity. Qed.

Lemma load_c_last_wins_witness :
  Full.load_c Site.c_nodes (Full.CState [] ∅ ∅) = Ok Site.c_state
  ∧ c_table_of Site.c_state = list_to_map (reverse (omap c_record Site.c_nodes)).
Proof.
  split; [exact site_load_c|].
  exact (load_c_last_wins Site.c_nodes Site.c_state site_load_c).
Defined.

Lemma tables_c_records_witness :
  ∃ c_nodes,
    Site.xml_root ("/doc" +:+ "/index-functions-c.xml") = Ok c_nodes
    ∧ Site.c_syms
      = paged (Full.page_header Site.exists_ Site.read Site.re_header
                 ("/doc" +:+ "/reference/en.cppreference.com/w"))
        <$> list_to_map (reverse (omap c_record c_nodes)).
Proof.
  exact (tables_c_records Site.listdir Site.open_ Site.gzip_open Site.xml_root
           Site.exists_ Site.read Example.re_include Example.re_func Site.re_header
           Example.items Site.link_items "/doc" Site.man_syms Site.c_syms Site.cpp_syms
           Site.err site_items site_link_items site_tables).
Defined.

Lemma tables_cpp_records_witness :
  let s := Sym "std::string" "typedef(class)" (Some "std::basic_string")
             (Some "cpp/string/basic_string") (Some "string") in
  name s = "std::string"
  ∧ header s
    = Full.page_header Site.exists_ Site.read Site.re_header
        ("/doc" +:+ "/reference/en.cppreference.com/w") (link s)
  ∧ ∃ cpp_nodes child,
      Site.xml_root ("/doc" +:+ "/index-functions-cpp.xml") = Ok cpp_nodes
      ∧ child ∈ cpp_nodes
      ∧ Full.attrib child !! "name" = Some "std::string"
      ∧ contains "(" "std::string" = false
      ∧ alias s = Full.attrib child !! "alias".
Proof.
  exact (tables_cpp_records Site.listdir Site.open_ Site.gzip_open Site.xml_root
           Site.exists_ Site.read Example.re_include Example.re_func Site.re_header
           Example.items Site.link_items "/doc" Site.man_syms Site.c_syms Site.cpp_syms
           Site.err "std::string" _ site_items site_link_items site_tables
           site_cpp_string).
Defined.

Lemma tables_alias_header_witness :
  let s := Sym "std::string" "typedef" (Some "std::basic_string") None None in
  let other :=
    Sym "std::basic_string" "class" None (Some "cpp/string/basic_string") None in
  Site.cpp_syms !! "std::string"
  = Some (Sym (name s) (type s +:+ "(" +:+ type other +:+ ")") (alias s) (link other)
              (Full.page_header Site.exists_ Site.read Site.re_header
                 ("/doc" +:+ "/reference/en.cppreference.com/w") (link other)))
  ∧ Site.cpp_syms !! "std::basic_string"
    = Some (Sym (name other) (type other) (alias other) (link other)
                (Full.page_header Site.exists_ Site.read Site.re_header
                   ("/doc" +:+ "/reference/en.cppreference.com/w") (link other))).
Proof.
  exact (tables_alias_header Site.listdir Site.open_ Site.gzip_open Site.xml_root
           Site.exists_ Site.read Example.re_include Example.re_func Site.re_header
           Example.items Site.link_items "/doc" Site.man_syms Site.c_syms Site.cpp_syms
           Site.err Site.cpp_nodes "std::string" "std::basic_string" _ _
           site_items site_link_items site_tables site_xml_cpp
           (proj1 site_cpp_loaded) eq_refl ltac:(done) (proj2 site_cpp_loaded) eq_refl).
Defined.

Lemma indexes_resolve_witness : all_hdrs Site.c_index ∧ resolves Site.cpp_index.
Proof.
  exact (indexes_resolve Site.listdir Site.open_ Site.gzip_open Site.xml_root
           Site.exists_ Site.read Example.re_include Example.re_func Site.re_header
           Example.items Site.link_items "/doc" Site.c_index Site.cpp_index Site.out
           Site.err_all site_items site_indexes).
Defined.

Lemma main_raises_witness :
  OSError = TypeError
  ∨ (∃ key, OSError = KeyError key)
  ∨ environment_raises Site.listdir_none Site.open_ Site.gzip_open Site.xml_root
      Site.read Site.create Site.write OSError.
Proof.
  exact (main_raises Site.listdir_none Site.open_ Site.gzip_open Site.xml_root
           Site.exists_ Site.read Site.create Site.write Example.re_include
           Example.re_func Site.re_header elements Example.items Site.link_items
           "/doc" _ site_no_man).
Defined.

Lemma main_outcome_witness :
  ((∃ item, item ∈ Example.items _ Site.c_syms ∧ c_crash Site.c_syms item) →
   Full.main Site.listdir Site.open_ Site.gzip_open Site.xml_root Site.exists_
     Site.read Site.create_one Site.write Example.re_include Example.re_func
     Site.re_header elements Example.items Site.link_items "/doc"
   = Raise TypeError)
  ∧ ((∀ item, item ∈ Example.items _ Site.c_syms → ¬ c_crash Site.c_syms item) →
     ∃ c_index cpp_index out err_all c_el cpp_el,
       Full.indexes Site.listdir Site.open_ Site.gzip_open Site.xml_root Site.exists_
         Site.read Example.re_include Example.re_func Site.re_header Example.items
         Site.link_items "/doc"
       = Ok (c_index, cpp_index, out, err_all)
       ∧ write_index elements Example.items "includeme-index-c" c_index = Ok c_el
       ∧ write_index elements Example.items "includeme-index-cpp" cpp_index
         = Ok cpp_el
       ∧ Full.main Site.listdir Site.open_ Site.gzip_open Site.xml_root Site.exists_
           Site.read Site.create_one Site.write Example.re_include Example.re_func
           Site.re_header elements Example.items Site.link_items "/doc"
         = (_ ← Site.create_one "includeme-index-c.el";
            _ ← Site.write "includeme-index-c.el" c_el;
            _ ← Site.create_one "includeme-index-cpp.el";
            _ ← Site.write "includeme-index-cpp.el" cpp_el;
            Ok (c_el, cpp_el, out, err_all))).
Proof.
  exact (main_outcome Site.listdir Site.open_ Site.gzip_open Site.xml_root
           Site.exists_ Site.read Site.create_one Site.write Example.re_include
           Example.re_func Site.re_header elements Example.items Site.link_items
           "/doc" Site.man_syms Site.c_syms Site.cpp_syms Site.err site_tables).
Defined.

Lemma tables_messages_witness :
  ∃ mans3 mans2 c_nodes ls,
    Full.get_mans Site.listdir Site.open_ Site.gzip_open 3 "/usr/share/man" = Ok mans3
    ∧ Full.get_mans Site.listdir Site.open_ Site.gzip_open 2 "/usr/share/man"
      = Ok mans2
    ∧ Site.xml_root ("/doc" +:+ "/index-functions-c.xml") = Ok c_nodes
    ∧ Site.err
      = (Full.Diag
           <$> (load_mans Example.re_include Example.re_func (mans3 ++ mans2)
                  (∅, [])).2)
        ++ omap (page_message Site.exists_ Site.read Site.re_header
                   ("/doc" +:+ "/reference/en.cppreference.com/w")) ls
    ∧ NoDup ls
    ∧ ∀ l, l ∈ ls
        ↔ (∃ child k s, child ∈ c_nodes ∧ c_record child = Some (k, s) ∧ link s = l)
          ∨ (∃ k s, Site.cpp_syms !! k = Some s ∧ link s = l).
Proof.
  exact (tables_messages Site.listdir Site.open_ Site.gzip_open Site.xml_root
           Site.exists_ Site.read Example.re_include Example.re_func Site.re_header
           Example.items Site.link_items "/doc" Site.man_syms Site.c_syms Site.cpp_syms
           Site.err site_items site_link_items site_tables).
Defined.

(** * Reading the literal *)

Lemma string_app_nil_r (s : string) : s +:+ EmptyString = s.
Proof. induction s as [|c s IH]; [done|]. change (String c (s +:+ "") = String c s). by rewrite IH. Qed.

Lemma lex_atom_chars acc a s :
  Lisp.constituents a = true →
  Lisp.lex (Lisp.InAtom acc) (a +:+ s) = Lisp.lex (Lisp.InAtom (acc +:+ a)) s.
Proof.
  revert acc. induction a as [|c a IH]; intros acc Ha.
  { by rewrite string_app_nil_r. }
  change (String c a +:+ s) with (String c (a +:+ s)). cbn [Lisp.constituents] in Ha.
  cbn [Lisp.lex]. destruct (Lisp.classify c); try done.
  cbn [Lisp.pending]. rewrite (IH _ Ha). by rewrite string_app_assoc.
Qed.

Lemma lex_atom_end acc s :
  Lisp.delimited s = true →
  Lisp.lex (Lisp.InAtom acc) s = Lisp.atom_token acc :: Lisp.lex Lisp.Idle s.
Proof.
  destruct s as [|c s]; [done|]. cbn [Lisp.delimited Lisp.lex].
  by destruct (Lisp.classify c).
Qed.

(** An atom that a delimiter follows gives one token. *)
Lemma lex_atom a s :
  Lisp.constituents a = true → a ≠ EmptyString → Lisp.delimited s = true →
  Lisp.lex Lisp.Idle (a +:+ s) = Lisp.atom_token a :: Lisp.lex Lisp.Idle s.
Proof.
  intros Ha Hne Hs. destruct a as [|c a]; [done|].
  change (String c a +:+ s) with (String c (a +:+ s)). cbn [Lisp.constituents] in Ha.
  cbn [Lisp.lex]. destruct (Lisp.classify c); try done.
  cbn [Lisp.pending]. rewrite (lex_atom_chars _ _ _ Ha), (lex_atom_end _ _ Hs).
  done.
Qed.

Lemma symbol_spec h :
  Lisp.symbol h = true →
  Lisp.constituents h = true ∧ h ≠ EmptyString
  ∧ Lisp.atom_token h = Lisp.TAtom h ∧ bool_decide (h = "nil") = false.
Proof.
  unfold Lisp.symbol, Lisp.atom_token.
  intros [[[Hc He%negb_true_iff]%andb_prop Hd%negb_true_iff]%andb_prop
            Hn%negb_true_iff]%andb_prop.
  split_and!; [done| |by rewrite Hd|done].
  by apply bool_decide_eq_false in He.
Qed.

Lemma lex_symbol h s :
  Lisp.symbol h = true → Lisp.delimited s = true →
  Lisp.lex Lisp.Idle (h +:+ s) = Lisp.TAtom h :: Lisp.lex Lisp.Idle s.
Proof.
  intros (Hc & Hne & Htok & _)%symbol_spec Hs. by rewrite lex_atom, Htok.
Qed.

(** A string is read up to the double quote that closes it. *)
Lemma lex_str acc name s :
  Lisp.verbatim name = true →
  Lisp.lex (Lisp.InStr acc) (name +:+ dquote +:+ s)
  = Lisp.TStr (acc +:+ name) :: Lisp.lex Lisp.Idle s.
Proof.
  revert acc. induction name as [|c name IH]; intros acc Hname.
  { by rewrite string_app_nil_r. }
  change (String c name +:+ dquote +:+ s) with (String c (name +:+ dquote +:+ s)).
  cbn [Lisp.verbatim] in Hname. cbn [Lisp.lex].
  destruct (Lisp.classify c); try done;
    apply andb_prop in Hname as [Hc%negb_true_iff Hname]; rewrite Hc, (IH _ Hname);
    by rewrite string_app_assoc.
Qed.

Lemma lex_join hs s :
  Forall (λ h, Lisp.symbol h = true) hs → Lisp.delimited s = true →
  Lisp.lex Lisp.Idle (join " " hs +:+ s)
  = (Lisp.TAtom <$> hs) ++ Lisp.lex Lisp.Idle s.
Proof.
  intros Hhs Hs. induction Hhs as [|h hs Hh Hhs IH]; [done|].
  destruct hs as [|h' hs].
  { simpl. by apply lex_symbol. }
  change (join " " (h :: h' :: hs)) with (h +:+ " " +:+ join " " (h' :: hs)).
  rewrite !string_app_assoc, lex_symbol by done.
  rewrite fmap_cons. cbn [app]. f_equal. exact IH.
Qed.

Lemma readable_spec set_iter e :
  set_enumerates set_iter → readable e = true →
  Lisp.verbatim e.1 = true
  ∧ match e.2 with
    | Canonical canonical_name => Lisp.symbol canonical_name = true
    | Hdrs hdrs =>
        Forall (λ h, Lisp.symbol h = true) (set_iter hdrs)
        ∧ list_to_set (set_iter hdrs) = hdrs
    end.
Proof.
  intros Hset [Hname He]%andb_prop. split; [done|].
  destruct e.2 as [hdrs|canonical_name]; [|done]. split.
  - rewrite (Hset hdrs). apply Forall_forall. intros h Hh.
    rewrite forallb_forall in He. apply He. by apply list_elem_of_In.
  - apply set_eq. intros h. by rewrite elem_of_list_to_set, (Hset hdrs), elem_of_elements.
Qed.

Lemma lex_entry set_iter e s :
  set_enumerates set_iter → readable e = true →
  Lisp.lex Lisp.Idle (entry_text set_iter e +:+ s)
  = Lisp.TOpen :: entry_tokens set_iter e ++ Lisp.lex Lisp.Idle s.
Proof.
  intros Hset He. destruct (readable_spec set_iter e Hset He) as [Hname Hval].
  unfold entry_text, entry_tokens. destruct e.2 as [hdrs|canonical_name].
  - destruct Hval as [Hhs _]. rewrite !string_app_assoc.
    change (Lisp.lex Lisp.Idle ("((" +:+ dquote +:+ e.1 +:+ dquote +:+ " "
              +:+ join " " (set_iter hdrs) +:+ ")" +:+ newline +:+ s))
      with (Lisp.TOpen :: Lisp.TOpen
              :: Lisp.lex (Lisp.InStr "") (e.1 +:+ dquote +:+ " "
                   +:+ join " " (set_iter hdrs) +:+ ")" +:+ newline +:+ s)).
    rewrite (lex_str _ _ _ Hname).
    change (Lisp.lex Lisp.Idle (" " +:+ join " " (set_iter hdrs) +:+ ")" +:+ newline
              +:+ s))
      with (Lisp.lex Lisp.Idle (join " " (set_iter hdrs) +:+ ")" +:+ newline +:+ s)).
    rewrite (lex_join _ _ Hhs) by done.
    change (Lisp.lex Lisp.Idle (")" +:+ newline +:+ s))
      with (Lisp.TClose :: Lisp.lex Lisp.Idle s).
    cbn [app]. do 3 f_equal. by rewrite <- (assoc_L (++)).
  - rewrite !string_app_assoc.
    change (Lisp.lex Lisp.Idle ("((" +:+ dquote +:+ e.1 +:+ dquote +:+ " . "
              +:+ canonical_name +:+ ")" +:+ newline +:+ s))
      with (Lisp.TOpen :: Lisp.TOpen
              :: Lisp.lex (Lisp.InStr "") (e.1 +:+ dquote +:+ " . "
                   +:+ canonical_name +:+ ")" +:+ newline +:+ s)).
    rewrite (lex_str _ _ _ Hname).
    change (Lisp.lex Lisp.Idle (" . " +:+ canonical_name +:+ ")" +:+ newline +:+ s))
      with (Lisp.TDot :: Lisp.lex Lisp.Idle (canonical_name +:+ ")" +:+ newline +:+ s)).
    rewrite (lex_symbol _ _ Hval) by done.
    change (Lisp.lex Lisp.Idle (")" +:+ newline +:+ s))
      with (Lisp.TClose :: Lisp.lex Lisp.Idle s).
    done.
Qed.

(** The tokens of the text of a tree. *)
Lemma lex_tree set_iter t s :
  set_enumerates set_iter →
  Forall (λ e, readable e = true) (inorder t) →
  Lisp.delimited s = true →
  Lisp.lex Lisp.Idle (render set_iter t +:+ s)
  = tree_tokens set_iter t ++ Lisp.lex Lisp.Idle s.
Proof.
  intros Hset. revert s. induction t as [|e l IHl r IHr]; intros s Ht Hs.
  { by apply (lex_atom "nil"). }
  cbn [inorder] in Ht. apply Forall_app in Ht as [Hl [He Hr]%Forall_cons].
  cbn [render tree_tokens]. rewrite !string_app_assoc.
  rewrite (lex_entry _ _ _ Hset He), (IHl _ Hl) by done.
  change (Lisp.lex Lisp.Idle (" . " +:+ render set_iter r +:+ ")" +:+ s))
    with (Lisp.TDot :: Lisp.lex Lisp.Idle (render set_iter r +:+ ")" +:+ s)).
  rewrite (IHr _ Hr) by done.
  change (Lisp.lex Lisp.Idle (")" +:+ s)) with (Lisp.TClose :: Lisp.lex Lisp.Idle s).
  cbn [app]. f_equal. rewrite <- !(assoc_L (++)). cbn [app].
  do 3 f_equal. by rewrite <- (assoc_L (++)).
Qed.

Lemma read_tail_item f (ts : list Lisp.token) :
  match ts with
  | tok :: _ => tok ≠ Lisp.TClose ∧ tok ≠ Lisp.TDot
  | [] => False
  end →
  Lisp.read_tail (S f) ts
  = match Lisp.read_sexp f ts with
    | Some (a, ts') =>
        match Lisp.read_tail f ts' with
        | Some (d, ts'') => Some (Lisp.Cons a d, ts'')
        | None => None
        end
    | None => None
    end.
Proof. destruct ts as [|[] ts]; [done|..]; by intros [? ?]. Qed.

Lemma read_tail_atoms hs ts fuel :
  Forall (λ h, Lisp.symbol h = true) hs →
  (length hs < fuel)%nat →
  Lisp.read_tail fuel ((Lisp.TAtom <$> hs) ++ Lisp.TClose :: ts)
  = Some (foldr (λ h d, Lisp.Cons (Lisp.Atom h) d) Lisp.Null hs, ts).
Proof.
  intros Hhs. revert fuel. induction Hhs as [|h hs Hh Hhs IH]; intros fuel Hfuel.
  { destruct fuel as [|f]; [simpl in Hfuel; lia|done]. }
  destruct fuel as [|[|f]]; simpl in Hfuel; [lia..|].
  rewrite fmap_cons. cbn [app]. rewrite read_tail_item by done.
  cbn [Lisp.read_sexp]. apply symbol_spec in Hh as (_ & _ & _ & ->).
  rewrite IH by lia. done.
Qed.

Lemma entry_tokens_length set_iter e : (3 ≤ length (entry_tokens set_iter e))%nat.
Proof. unfold entry_tokens. cbn [length]. rewrite length_app. simpl. lia. Qed.

Lemma tree_tokens_length set_iter t : (1 ≤ length (tree_tokens set_iter t))%nat.
Proof. destruct t; simpl; lia. Qed.

Lemma read_entry set_iter e ts fuel :
  set_enumerates set_iter → readable e = true →
  (length (entry_tokens set_iter e) < fuel)%nat →
  Lisp.read_sexp fuel (entry_tokens set_iter e ++ ts) = Some (entry_sexp set_iter e, ts).
Proof.
  intros Hset He. destruct (readable_spec set_iter e Hset He) as [_ Hval].
  unfold entry_tokens, entry_sexp. destruct e.2 as [hdrs|canonical_name].
  - destruct Hval as [Hhs _]. cbn [length app]. rewrite length_app. cbn [length].
    rewrite length_fmap. intros Hfuel.
    destruct fuel as [|[|[|f]]]; [lia..|].
    rewrite <- (assoc_L (++)). cbn [app Lisp.read_sexp].
    rewrite read_tail_item by done. cbn [Lisp.read_sexp].
    by rewrite (read_tail_atoms _ _ _ Hhs) by lia.
  - cbn [length app]. intros Hfuel.
    destruct fuel as [|[|[|[|f]]]]; [lia..|].
    cbn [Lisp.read_sexp]. rewrite read_tail_item by done.
    cbn [Lisp.read_sexp Lisp.read_tail].
    by apply symbol_spec in Hval as (_ & _ & _ & ->).
Qed.

(** The expression of the tokens of a tree. *)
Lemma read_tree_tokens set_iter t ts fuel :
  set_enumerates set_iter →
  Forall (λ e, readable e = true) (inorder t) →
  (length (tree_tokens set_iter t) < fuel)%nat →
  Lisp.read_sexp fuel (tree_tokens set_iter t ++ ts) = Some (tree_sexp set_iter t, ts).
Proof.
  intros Hset. revert ts fuel. induction t as [|e l IHl r IHr]; intros ts fuel Ht Hfuel.
  { destruct fuel as [|f]; [simpl in Hfuel; lia|done]. }
  cbn [inorder] in Ht. apply Forall_app in Ht as [Hl [He Hr]%Forall_cons].
  cbn [tree_tokens length] in Hfuel. rewrite !length_app in Hfuel.
  cbn [length] in Hfuel. rewrite length_app in Hfuel. cbn [length] in Hfuel.
  pose proof (entry_tokens_length set_iter e).
  pose proof (tree_tokens_length set_iter l).
  pose proof (tree_tokens_length set_iter r).
  destruct fuel as [|[|[|[|f]]]]; [lia..|].
  cbn [tree_tokens tree_sexp app]. rewrite <- !(assoc_L (++)). cbn [app].
  rewrite <- !(assoc_L (++)). cbn [app Lisp.read_sexp].
  rewrite read_tail_item by (unfold entry_tokens; cbn [app]; done).
  rewrite (read_entry _ _ _ _ Hset He) by lia.
  rewrite read_tail_item by (destruct l; cbn [tree_tokens app]; done).
  rewrite (IHl _ _ Hl) by lia.
  cbn [Lisp.read_tail]. by rewrite (IHr _ _ Hr) by lia.
Qed.

Lemma atoms_foldr hs :
  Lisp.atoms (foldr (λ h d, Lisp.Cons (Lisp.Atom h) d) Lisp.Null hs) = Some hs.
Proof. induction hs as [|h hs IH]; [done|]. simpl. by rewrite IH. Qed.

Lemma entry_of_sexp set_iter e :
  set_enumerates set_iter → readable e = true →
  Lisp.entry (entry_sexp set_iter e) = Some e.
Proof.
  intros Hset He. destruct (readable_spec set_iter e Hset He) as [_ Hval].
  destruct e as [name v]. unfold entry_sexp. cbn [fst snd] in *.
  destruct v as [hdrs|canonical_name]; [|done]. destruct Hval as [_ Hhdrs].
  pose proof (atoms_foldr (set_iter hdrs)) as Hatoms.
  destruct (set_iter hdrs) as [|h hs]; cbn [foldr] in *.
  - simpl. by rewrite <- Hhdrs.
  - cbn [Lisp.entry]. rewrite Hatoms. simpl. by rewrite <- Hhdrs.
Qed.

Lemma tree_of_sexp set_iter t :
  set_enumerates set_iter →
  Forall (λ e, readable e = true) (inorder t) →
  Lisp.tree_of (tree_sexp set_iter t) = Some t.
Proof.
  intros Hset. induction t as [|e l IHl r IHr]; intros Ht; [done|].
  cbn [inorder] in Ht. apply Forall_app in Ht as [Hl [He Hr]%Forall_cons].
  cbn [tree_sexp Lisp.tree_of].
  by rewrite (entry_of_sexp _ _ Hset He), (IHl Hl), (IHr Hr).
Qed.

(** The reader gives back the tree whose text it is given, after the quote
    mark. *)
Lemma read_tree_literal set_iter t :
  set_enumerates set_iter →
  Forall (λ e, readable e = true) (inorder t) →
  Lisp.read_tree ("'" +:+ render set_iter t) = Some t.
Proof.
  intros Hset Ht. unfold Lisp.read_tree, Lisp.read.
  change (Lisp.lex Lisp.Idle ("'" +:+ render set_iter t))
    with (Lisp.TQuote :: Lisp.lex Lisp.Idle (render set_iter t)).
  rewrite <- (string_app_nil_r (render set_iter t)), (lex_tree _ _ _ Hset Ht) by done.
  change (Lisp.lex Lisp.Idle "") with (@nil Lisp.token).
  cbn zeta. cbn [length].
  replace (2 * S (length (tree_tokens set_iter t ++ [])) + 1)%nat
    with (S (2 * length (tree_tokens set_iter t ++ []) + 2))%nat by lia.
  cbn [Lisp.read_sexp].
  rewrite (read_tree_tokens _ _ _ _ Hset Ht) by (rewrite length_app; simpl; lia).
  simpl. by apply tree_of_sexp.
Qed.

(** What [make_happy_tree] writes, and what is read from it. *)
Lemma make_happy_tree_read set_iter syms :
  set_enumerates set_iter →
  forallb readable syms = true →
  ∃ t, happy_tree syms = Ok t
    ∧ inorder t = sort_by_name syms
    ∧ (∀ out, make_happy_tree set_iter out syms
              = Ok (out +:+ "'" +:+ render set_iter t))
    ∧ Lisp.read_tree ("'" +:+ render set_iter t) = Some t.
Proof.
  intros Hset Hsyms. unfold happy_tree, make_happy_tree.
  destruct (node_tree_inorder (S (length (sort_by_name syms)))
              (sort_by_name syms) 0 (length (sort_by_name syms)))
    as (t & Ht & Hin); [lia..|].
  change (Z.of_nat 0) with 0 in Ht. rewrite slice_all in Hin.
  exists t. split_and!; [done|done|..].
  - intros out. rewrite do_node_render, Ht. simpl. by rewrite string_app_assoc.
  - apply read_tree_literal; [done|]. rewrite Hin.
    apply Forall_forall. intros e He. rewrite forallb_forall in Hsyms.
    apply Hsyms, list_elem_of_In. by rewrite <- (sort_by_name_perm syms).
Qed.

Lemma length_inorder_nodes (t : tree) : length (inorder t) = nodes t.
Proof.
  induction t as [|e l IHl r IHr]; [done|]. simpl.
  rewrite length_app. simpl. lia.
Qed.

(** ** The serializer claims *)







(** X1: for entries that the reader reads back (a Lisp string holds each
    name as it is, the headers and canonical names are atoms), the literal
    that [make_happy_tree] writes is read as a tree that has one node for
    each entry and is balanced: at every node the left subtree holds as many
    entries as the right one, or one more. *)
Theorem make_happy_tree_balanced
    (set_iter : gset string → list string) (syms : list (string * value)) :
  set_enumerates set_iter →
  forallb readable syms = true →
  ∃ lit t,
    (∀ out, make_happy_tree set_iter out syms = Ok (out +:+ lit))
    ∧ Lisp.read_tree lit = Some t
    ∧ happy_tree syms = Ok t
    ∧ nodes t = length syms
    ∧ balanced t.
Proof.
  intros Hset Hsyms.
  destruct (make_happy_tree_read set_iter syms Hset Hsyms)
    as (t & Ht & Hin & Hwrite & Hread).
  exists ("'" +:+ render set_iter t), t. split_and!; [done..| |].
  - by rewrite <- (length_inorder_nodes t), Hin, sort_by_name_length.
  - unfold happy_tree in Ht.
    by destruct (node_tree_size _ _ 0 _ t ltac:(lia) Ht) as [_ Hb].
Qed.

Lemma make_happy_tree_balanced_witness :
  let syms := [("log", Canonical "std::log");
               ("std::log", Hdrs {["cmath"]});
               ("abs", Hdrs {["stdlib.h"; "cstdlib"]});
               ("fstat", Hdrs {["sys/stat.h"]})] in
  ∃ lit t,
    (∀ out, make_happy_tree elements out syms = Ok (out +:+ lit))
    ∧ Lisp.read_tree lit = Some t
    ∧ happy_tree syms = Ok t
    ∧ nodes t = length syms
    ∧ balanced t.
Proof.
  intros syms.
  apply (make_happy_tree_balanced elements syms).
  - intros hdrs. reflexivity.
  - vm_compute. reflexivity.
Defined.
